(** * validate_rules.py: the rule-file validator, embedded and verified

    The program reads every [.mdc] file below [.cursor/rules], cuts the
    front matter out of it with regular expressions, checks the two
    mandatory properties and prints a report.  This development embeds

    - Python text as lists of code points,
    - the part of the [re] module the script uses, as a backtracking
      matcher over a small pattern syntax (the six patterns of the script
      are transcribed into it symbol by symbol),
    - the [RuleValidator] object as a record threaded through
      [validate_file], [validate_all], [print_report] and [main],

    and then states and proves the properties of the validator. *)

From Stdlib Require Import ZArith NArith List String Ascii Bool Lia.
From Stdlib Require Import Sorted Permutation.
From stdpp Require Import base option gmap strings.
Import ListNotations.

Local Open Scope N_scope.
Local Open Scope list_scope.

(** ** Text *)

(** A Python [str] is a sequence of Unicode code points. *)
Abbreviation char := N.
Abbreviation str := (list N).

(** ASCII literals of the script, written as Rocq strings. *)
Definition s (x : string) : str :=
  map N_of_ascii (list_ascii_of_string x).

Definition NL : char := 10.     (* the line feed *)
Definition DQ : char := 34.     (* the double quote *)
Definition SQ : char := 39.     (* the single quote *)

(** [str.isspace] on one code point, which is also what [\s] matches in a
    [str] pattern (CPython's [Py_UNICODE_ISSPACE]). *)
Definition isspace (c : char) : bool :=
  ((9 <=? c) && (c <=? 13)) || ((28 <=? c) && (c <=? 32))
  || (c =? 133) || (c =? 160) || (c =? 5760)
  || ((8192 <=? c) && (c <=? 8202))
  || (c =? 8232) || (c =? 8233) || (c =? 8239) || (c =? 8287)
  || (c =? 12288).

(** Caseless comparison of a pattern character with an input character
    under [re.IGNORECASE].  The pattern characters of the script are ASCII;
    for an ASCII letter the matching inputs are its two cases and, for
    [i], [k] and [s], the extra code points CPython's compiler adds
    (U+0130 and U+0131, U+212A, U+017F). *)
Definition is_upper (c : char) : bool := (65 <=? c) && (c <=? 90).
Definition is_lower (c : char) : bool := (97 <=? c) && (c <=? 122).

Definition ascii_lower (c : char) : char := if is_upper c then c + 32 else c.

Definition caseless_extra (pl c : char) : bool :=
  ((pl =? 105) && ((c =? 304) || (c =? 305)))
  || ((pl =? 107) && (c =? 8490))
  || ((pl =? 115) && (c =? 383)).

Definition caseless_eq (pc c : char) : bool :=
  let pl := ascii_lower pc in
  if is_lower pl then (ascii_lower c =? pl) || caseless_extra pl c
  else c =? pc.

(** [str.lower], exact on ASCII text and on U+017F; the script applies it
    to group 1 of the [alwaysApply] pattern only, which holds nothing
    else. *)
Definition lower (x : str) : str := map ascii_lower x.

Fixpoint str_eqb (x y : str) : bool :=
  match x, y with
  | [], [] => true
  | a :: x', b :: y' => (a =? b) && str_eqb x' y'
  | _, _ => false
  end.

(** [x.startswith(p)] and [x.endswith(p)]. *)
Fixpoint startswith (x p : str) : bool :=
  match p, x with
  | [], _ => true
  | a :: p', b :: x' => (a =? b) && startswith x' p'
  | _ :: _, [] => false
  end.

Definition endswith (x p : str) : bool := startswith (rev x) (rev p).

(** [x.strip()]. *)
Fixpoint lstrip (x : str) : str :=
  match x with
  | c :: x' => if isspace c then lstrip x' else x
  | [] => []
  end.

Definition rstrip (x : str) : str := rev (lstrip (rev x)).

Definition strip (x : str) : str := rstrip (lstrip x).

(** The slices [x[1:-1]] and [x[:n]]. *)
Definition slice_1_m1 (x : str) : str := removelast (tl x).
Definition slice_to (n : nat) (x : str) : str := firstn n x.
Arguments slice_to : simpl never.

(** ** The [re] module *)

Record flags := Flags { MULTILINE : bool; DOTALL : bool; IGNORECASE : bool }.

(** One-character items of a pattern. *)
Inductive atom :=
| Chr (c : char)              (* a literal character *)
| Any                         (* [.] *)
| Space                       (* [\s] *)
| OneOf (cs : list char)      (* [[...]] *)
| NoneOf (cs : list char).    (* [[^...]] *)

(** Patterns.  Every quantifier of the script's patterns applies to a
    single-character item, so [Star], [Plus] and [Opt] take an [atom];
    [greedy = false] is the lazy form ([*?]). *)
Inductive regex :=
| Eps
| Atom (a : atom)
| Bol                         (* [^] *)
| Eol                         (* [$] *)
| Star (greedy : bool) (a : atom)
| Plus (greedy : bool) (a : atom)
| Opt (a : atom)
| Seq (r1 r2 : regex)
| Alt (r1 r2 : regex)
| Group (r : regex).

(** A literal string inside a pattern. *)
Definition Lit (l : str) : regex :=
  fold_right (fun c r => Seq (Atom (Chr c)) r) Eps l.

Definition chr_match (fl : flags) (pc c : char) : bool :=
  if IGNORECASE fl then caseless_eq pc c else c =? pc.

Definition atom_match (fl : flags) (a : atom) (c : char) : bool :=
  match a with
  | Chr pc => chr_match fl pc c
  | Any => DOTALL fl || negb (c =? NL)
  | Space => isspace c
  | OneOf cs => existsb (fun pc => chr_match fl pc c) cs
  | NoneOf cs => negb (existsb (fun pc => chr_match fl pc c) cs)
  end.

(** [^] looks at the character before the position ([None] at the start of
    the text), [$] at the text that follows. *)
Definition at_bol (fl : flags) (p : option char) : bool :=
  match p with
  | None => true
  | Some c => MULTILINE fl && (c =? NL)
  end.

Definition at_eol (fl : flags) (x : str) : bool :=
  match x with
  | [] => true
  | c :: x' =>
      (c =? NL) && (MULTILINE fl || match x' with [] => true | _ => false end)
  end.

Section Matcher.
Context (fl : flags) {R : Type}.

(** The matcher is a backtracking one, as CPython's: it passes the group
    captured so far, the character before the position and the rest of
    the text to a continuation, and the first continuation that succeeds
    decides.  Greedy repetition tries the longest run first, lazy
    repetition the shortest, alternation its left branch. *)
Fixpoint star_greedy (a : atom) (p : option char) (x : str)
    (k : option char -> str -> option R) : option R :=
  match x with
  | c :: x' =>
      if atom_match fl a c then
        match star_greedy a (Some c) x' k with
        | Some r => Some r
        | None => k p x
        end
      else k p x
  | [] => k p x
  end.

Fixpoint star_lazy (a : atom) (p : option char) (x : str)
    (k : option char -> str -> option R) : option R :=
  match k p x with
  | Some r => Some r
  | None =>
      match x with
      | c :: x' => if atom_match fl a c then star_lazy a (Some c) x' k else None
      | [] => None
      end
  end.

Definition star (greedy : bool) := if greedy then star_greedy else star_lazy.

Fixpoint exec (r : regex) (g : option str) (p : option char) (x : str)
    (k : option str -> option char -> str -> option R) : option R :=
  match r with
  | Eps => k g p x
  | Atom a =>
      match x with
      | c :: x' => if atom_match fl a c then k g (Some c) x' else None
      | [] => None
      end
  | Bol => if at_bol fl p then k g p x else None
  | Eol => if at_eol fl x then k g p x else None
  | Star greedy a => star greedy a p x (k g)
  | Plus greedy a =>
      match x with
      | c :: x' => if atom_match fl a c then star greedy a (Some c) x' (k g) else None
      | [] => None
      end
  | Opt a =>
      match x with
      | c :: x' =>
          if atom_match fl a c then
            match k g (Some c) x' with
            | Some r => Some r
            | None => k g p x
            end
          else k g p x
      | [] => k g p x
      end
  | Seq r1 r2 => exec r1 g p x (fun g' p' x' => exec r2 g' p' x' k)
  | Alt r1 r2 =>
      match exec r1 g p x k with
      | Some r => Some r
      | None => exec r2 g p x k
      end
  | Group r1 =>
      exec r1 g p x
        (fun _ p' x' => k (Some (firstn (length x - length x') x)) p' x')
  end.
End Matcher.

(** The character before the position once [u] has been consumed, and the
    rest of a text after a literal prefix. *)
Definition prev_after (p : option char) (u : str) : option char :=
  fold_left (fun _ c => Some c) u p.

Fixpoint lit_prefix (fl : flags) (l x : str) : option str :=
  match l with
  | [] => Some x
  | pc :: l' =>
      match x with
      | c :: x' => if chr_match fl pc c then lit_prefix fl l' x' else None
      | [] => None
      end
  end.

(** A match object, as far as the script reads it: [group(1)] and the text
    after [end()]. *)
Record rmatch := Match { group1 : option str; after : str }.

(** [m.group(1)]; group 1 takes part in every match of each pattern of the
    script, so the value is never Python's [None]. *)
Definition group (m : rmatch) : str :=
  match group1 m with Some g => g | None => [] end.

Definition match_at (fl : flags) (r : regex) (p : option char) (x : str)
    : option (rmatch * option char) :=
  exec fl r None p x (fun g p' x' => Some (Match g x', p')).

(** [re.match]: at the start of the text only. *)
Definition re_match (fl : flags) (r : regex) (x : str) : option rmatch :=
  fst <$> match_at fl r None x.

(** [re.search]: the first position, from the left, where the pattern
    matches. *)
Fixpoint search_from (fl : flags) (r : regex) (p : option char) (x : str)
    : option rmatch :=
  match match_at fl r p x with
  | Some (m, _) => Some m
  | None =>
      match x with
      | c :: x' => search_from fl r (Some c) x'
      | [] => None
      end
  end.

Definition re_search (fl : flags) (r : regex) (x : str) : option rmatch :=
  search_from fl r None x.

(** [re.findall] for a pattern with one group: group 1 of every match,
    left to right, each search resuming where the previous match ended.
    The recursion is on a bound of the text's length; a match that
    consumes nothing (none of the script's patterns has one) moves one
    character on, as CPython does. *)
Fixpoint findall_from (fl : flags) (r : regex) (n : nat) (p : option char)
    (x : str) : list str :=
  match n with
  | O => []
  | S n' =>
      match match_at fl r p x with
      | Some (m, p') =>
          let item := group m in
          if (length (after m) <? length x)%nat
          then item :: findall_from fl r n' p' (after m)
          else item :: match x with
                       | c :: x' => findall_from fl r n' (Some c) x'
                       | [] => []
                       end
      | None =>
          match x with
          | c :: x' => findall_from fl r n' (Some c) x'
          | [] => []
          end
      end
  end.

Definition re_findall (fl : flags) (r : regex) (x : str) : list str :=
  findall_from fl r (S (length x)) None x.

Definition no_flags : flags := Flags false false false.

(** ** The patterns of the script *)

(** [^---\n(.*?)\n---\n] with [re.DOTALL]. *)
Definition re_frontmatter : regex :=
  Seq Bol (Seq (Lit (s "---" ++ [NL]))
    (Seq (Group (Star false Any)) (Lit ([NL] ++ s "---" ++ [NL])))).
Definition fl_frontmatter : flags := Flags false true false.

(** [^description:\s*(.+)$] with [re.MULTILINE]. *)
Definition re_description : regex :=
  Seq Bol (Seq (Lit (s "description:"))
    (Seq (Star true Space) (Seq (Group (Plus true Any)) Eol))).
Definition fl_description : flags := Flags true false false.

(** [^alwaysApply:\s*(true|false)$] with [re.MULTILINE | re.IGNORECASE]. *)
Definition re_alwaysApply : regex :=
  Seq Bol (Seq (Lit (s "alwaysApply:"))
    (Seq (Star true Space)
      (Seq (Group (Alt (Lit (s "true")) (Lit (s "false")))) Eol))).
Definition fl_alwaysApply : flags := Flags true false true.

(** [^globs:\s*\[(.*?)\]] with [re.MULTILINE | re.DOTALL]. *)
Definition re_globs : regex :=
  Seq Bol (Seq (Lit (s "globs:"))
    (Seq (Star true Space)
      (Seq (Atom (Chr 91)) (Seq (Group (Star false Any)) (Atom (Chr 93)))))).
Definition fl_globs : flags := Flags true true false.

(** The list-item pattern: a quote of either kind, group 1 = one or more
    characters that are no quote of either kind, a quote of either kind;
    no flag. *)
Definition re_glob_item : regex :=
  Seq (Atom (OneOf [DQ; SQ]))
    (Seq (Group (Plus true (NoneOf [DQ; SQ]))) (Atom (OneOf [DQ; SQ]))).

(** [^globs:\s*\[?\s*\]] with [re.MULTILINE]. *)
Definition re_globs_simple : regex :=
  Seq Bol (Seq (Lit (s "globs:"))
    (Seq (Star true Space)
      (Seq (Opt (Chr 91)) (Seq (Star true Space) (Atom (Chr 93)))))).
Definition fl_globs_simple : flags := Flags true false false.

(** ** Python values and the front matter dictionary *)

#[local] Set Warnings "-register-all".
Inductive pyval :=
| PNone
| PBool (b : bool)
| PStr (x : str)
| PList (l : list pyval).

(** [isinstance(v, list)] and the truth value of a Python object. *)
Definition is_list (v : pyval) : bool :=
  match v with PList _ => true | _ => false end.

Definition is_none (v : pyval) : bool :=
  match v with PNone => true | _ => false end.

Definition truthy (v : pyval) : bool :=
  match v with
  | PNone => false
  | PBool b => b
  | PStr x => match x with [] => false | _ => true end
  | PList l => match l with [] => false | _ => true end
  end.

(** The dictionary [frontmatter]: [{}] on the early returns, the three keys
    otherwise. *)
Abbreviation dict := (gmap string pyval).

(** ** Parsing the header block (lines 56 to 90 of the script) *)

(** Lines 61 to 64: one layer of surrounding quotes is removed. *)
Definition unquote (desc_value : str) : str :=
  if startswith desc_value [DQ] && endswith desc_value [DQ]
  then slice_1_m1 desc_value
  else if startswith desc_value [SQ] && endswith desc_value [SQ]
  then slice_1_m1 desc_value
  else desc_value.

(** [frontmatter[description]]: the first match of the description
    pattern, stripped, with one layer of surrounding quotes removed. *)
Definition parse_description (frontmatter_str : str) : pyval :=
  match re_search fl_description re_description frontmatter_str with
  | Some description_match =>
      let desc_value := strip (group description_match) in
      PStr (unquote desc_value)
  | None => PNone
  end.

(** [frontmatter[alwaysApply]]. *)
Definition parse_alwaysApply (frontmatter_str : str) : pyval :=
  match re_search fl_alwaysApply re_alwaysApply frontmatter_str with
  | Some always_apply_match =>
      PBool (str_eqb (lower (group always_apply_match)) (s "true"))
  | None => PNone
  end.

(** [frontmatter[globs]]. *)
Definition parse_globs (frontmatter_str : str) : pyval :=
  match re_search fl_globs re_globs frontmatter_str with
  | Some globs_match =>
      let globs_str := strip (group globs_match) in
      match globs_str with
      | _ :: _ => PList (map PStr (re_findall no_flags re_glob_item globs_str))
      | [] => PList []
      end
  | None =>
      match re_search fl_globs_simple re_globs_simple frontmatter_str with
      | Some globs_simple => PList []
      | None => PNone
      end
  end.

(** ** The validator object *)

(** A path is the list of its parts; [Path]s compare part by part and the
    parts compare as strings do, code point by code point. *)
Abbreviation path := (list (list N)).

Fixpoint str_ltb (x y : str) : bool :=
  match x, y with
  | _, [] => false
  | [], _ :: _ => true
  | a :: x', b :: y' => (a <? b) || ((a =? b) && str_ltb x' y')
  end.

Fixpoint path_ltb (x y : path) : bool :=
  match x, y with
  | _, [] => false
  | [], _ :: _ => true
  | a :: x', b :: y' => str_ltb a b || (str_eqb a b && path_ltb x' y')
  end.

(** The messages of the script, one constructor for each f-string, with
    the values it interpolates. *)
Inductive message :=
| ErrUnreadable (file_path : path) (e : str)   (* Impossible de lire le fichier *)
| ErrNoFrontmatter (file_path : path)          (* Manque le frontmatter YAML *)
| ErrBadFrontmatter (file_path : path)         (* Frontmatter YAML mal formate *)
| ErrNoDescription (file_path : path)          (* Manque la propriete description *)
| ErrEmptyDescription (file_path : path)       (* La propriete description est vide *)
| ErrNoAlwaysApply (file_path : path)          (* Manque la propriete alwaysApply *)
| ErrGlobsNotList (file_path : path)           (* globs doit etre une liste *)
| ErrNoRulesDir (rules_dir : path)             (* Le repertoire n'existe pas *)
| ErrNoMdcFiles (rules_dir : path)             (* Aucun fichier .mdc trouve *)
| WarnNoContent (file_path : path).            (* Aucun contenu apres le frontmatter *)

(** [self.stats]: the six counters of [__init__]. *)
Record Stats := mkStats {
  total_files : Z;
  valid_files : Z;
  invalid_files : Z;
  files_without_description : Z;
  files_without_alwaysApply : Z;
  files_with_invalid_yaml : Z
}.

Record RuleValidator := mkValidator {
  rules_dir : path;
  errors : list message;
  warnings : list message;
  stats : Stats
}.

Local Open Scope Z_scope.

(** [RuleValidator.__init__]. *)
Definition init (rules_dir : path) : RuleValidator :=
  mkValidator rules_dir [] [] (mkStats 0 0 0 0 0 0).

(** [self.errors.append(m)], [self.warnings.append(m)] and the
    [self.stats[k] += 1] of each key the script increments. *)
Definition errors_append (m : message) (v : RuleValidator) : RuleValidator :=
  mkValidator (rules_dir v) (errors v ++ [m]) (warnings v) (stats v).

Definition warnings_append (m : message) (v : RuleValidator) : RuleValidator :=
  mkValidator (rules_dir v) (errors v) (warnings v ++ [m]) (stats v).

Definition with_stats (f : Stats -> Stats) (v : RuleValidator) : RuleValidator :=
  mkValidator (rules_dir v) (errors v) (warnings v) (f (stats v)).

Definition incr_total_files (v : RuleValidator) : RuleValidator :=
  with_stats (fun t => mkStats (total_files t + 1) (valid_files t)
    (invalid_files t) (files_without_description t)
    (files_without_alwaysApply t) (files_with_invalid_yaml t)) v.

Definition incr_valid_files (v : RuleValidator) : RuleValidator :=
  with_stats (fun t => mkStats (total_files t) (valid_files t + 1)
    (invalid_files t) (files_without_description t)
    (files_without_alwaysApply t) (files_with_invalid_yaml t)) v.

Definition incr_invalid_files (v : RuleValidator) : RuleValidator :=
  with_stats (fun t => mkStats (total_files t) (valid_files t)
    (invalid_files t + 1) (files_without_description t)
    (files_without_alwaysApply t) (files_with_invalid_yaml t)) v.

Definition incr_files_without_description (v : RuleValidator) : RuleValidator :=
  with_stats (fun t => mkStats (total_files t) (valid_files t)
    (invalid_files t) (files_without_description t + 1)
    (files_without_alwaysApply t) (files_with_invalid_yaml t)) v.

Definition incr_files_without_alwaysApply (v : RuleValidator) : RuleValidator :=
  with_stats (fun t => mkStats (total_files t) (valid_files t)
    (invalid_files t) (files_without_description t)
    (files_without_alwaysApply t + 1) (files_with_invalid_yaml t)) v.

(** What [file_path.read_text(encoding=utf-8)] gives: the decoded text, or
    an exception with its message. *)
Inductive read_result :=
| ReadError (e : str)
| Content (content : str).

(** Lines 95 to 101: the check of [description], which is [None] or a
    string ([parse_description] gives nothing else). *)
Definition check_description (file_path : path) (description : pyval)
    (v : RuleValidator) : bool * RuleValidator :=
  match description with
  | PNone =>
      (true, incr_files_without_description
               (errors_append (ErrNoDescription file_path) v))
  | PStr d =>
      if negb (truthy (PStr d)) || negb (truthy (PStr (strip d)))
      then (true, errors_append (ErrEmptyDescription file_path) v)
      else (false, v)
  | _ => (false, v)
  end.

(** Lines 103 to 106: the check of [alwaysApply]. *)
Definition check_alwaysApply (file_path : path) (alwaysApply : pyval)
    (has_errors : bool) (v : RuleValidator) : bool * RuleValidator :=
  if is_none alwaysApply
  then (true, incr_files_without_alwaysApply
                (errors_append (ErrNoAlwaysApply file_path) v))
  else (has_errors, v).

(** Lines 108 to 111: the check of the type of [globs]. *)
Definition check_globs (file_path : path) (globs : pyval)
    (has_errors : bool) (v : RuleValidator) : bool * RuleValidator :=
  if negb (is_none globs) && negb (is_list globs)
  then (true, errors_append (ErrGlobsNotList file_path) v)
  else (has_errors, v).

(** The dictionary built in lines 53 to 90. *)
Definition frontmatter_of (frontmatter_str : str) : dict :=
  <["globs" := parse_globs frontmatter_str]>
    (<["alwaysApply" := parse_alwaysApply frontmatter_str]>
      (<["description" := parse_description frontmatter_str]> ∅)).

(** Lines 50 to 123: what [validate_file] does once the header block has
    been cut out. *)
Definition validate_frontmatter (v : RuleValidator) (file_path : path)
    (frontmatter_match : rmatch) : (bool * dict) * RuleValidator :=
  let frontmatter_str := group frontmatter_match in
  let description := parse_description frontmatter_str in
  let alwaysApply := parse_alwaysApply frontmatter_str in
  let globs := parse_globs frontmatter_str in
  let frontmatter : dict :=
    <["globs" := globs]>
      (<["alwaysApply" := alwaysApply]>
        (<["description" := description]> ∅)) in
  let '(has_errors, v) := check_description file_path description v in
  let '(has_errors, v) := check_alwaysApply file_path alwaysApply has_errors v in
  let '(has_errors, v) := check_globs file_path globs has_errors v in
  let content_after := strip (after frontmatter_match) in
  let v := match content_after with
           | [] => warnings_append (WarnNoContent file_path) v
           | _ :: _ => v
           end in
  if has_errors
  then ((false, frontmatter), incr_invalid_files v)
  else ((true, frontmatter), incr_valid_files v).

(** [RuleValidator.validate_file]; the file's text is what [read_text]
    returned.  The result is the pair the method returns and the object
    after the call. *)
Definition validate_file (v : RuleValidator) (file_path : path)
    (read : read_result) : (bool * dict) * RuleValidator :=
  let v := incr_total_files v in
  match read with
  | ReadError e =>
      ((false, ∅), incr_invalid_files (errors_append (ErrUnreadable file_path e) v))
  | Content content =>
      if negb (startswith content (s "---")) then
        ((false, ∅), incr_invalid_files (errors_append (ErrNoFrontmatter file_path) v))
      else
        match re_match fl_frontmatter re_frontmatter content with
        | None =>
            ((false, ∅),
             incr_invalid_files (errors_append (ErrBadFrontmatter file_path) v))
        | Some frontmatter_match => validate_frontmatter v file_path frontmatter_match
        end
  end.

(** ** The run over the directory *)

(** What the run sees of the file system: whether [rules_dir] exists, and
    the files [rglob] finds below it, each with its path relative to
    [rules_dir] and with what reading it gives. *)
Record directory := mkDirectory {
  dir_exists : bool;
  rglob : list (path * read_result)
}.

(** [sorted]: a stable sort with [<] on the paths. *)
Fixpoint insert_sorted (x : path * read_result) (l : list (path * read_result))
    : list (path * read_result) :=
  match l with
  | [] => [x]
  | y :: l' => if path_ltb (fst y) (fst x) then y :: insert_sorted x l' else x :: l
  end.

Definition sorted (l : list (path * read_result)) : list (path * read_result) :=
  fold_right insert_sorted [] l.

(** [file_path.relative_to(rules_dir)]; [None] is the [ValueError]. *)
Fixpoint relative_to (file_path rules_dir : path) : option path :=
  match rules_dir, file_path with
  | [], _ => Some file_path
  | a :: d, b :: f => if str_eqb a b then relative_to f d else None
  | _ :: _, [] => None
  end.

(** [v[:60]]; [None] is the [TypeError] of a value that has no slices. *)
Definition py_slice_to (n : nat) (v : pyval) : option pyval :=
  match v with
  | PStr x => Some (PStr (slice_to n x))
  | PList l => Some (PList (firstn n l))
  | _ => None
  end.

(** What the script prints, one constructor for each [print]. *)
Inductive line :=
| OutValidating (n : nat)
| OutFile (always_apply : bool) (relative : path)
| OutDescription (desc : pyval)
| OutRule
| OutTitle
| OutStatistics
| OutTotal (n : Z)
| OutValid (n : Z)
| OutInvalid (n : Z)
| OutWithoutDescription (n : Z)
| OutWithoutAlwaysApply (n : Z)
| OutInvalidYaml (n : Z)
| OutErrors (n : nat)
| OutWarnings (n : nat)
| OutItem (m : message)
| OutAllReadable
| OutValidWithWarnings
| OutMustBeFixed.

(** Lines 144 to 149, the status line of a valid file; [None] is an
    exception that leaves the loop. *)
Definition print_status (rules_dir file_path : path) (frontmatter : dict)
    : option (list line) :=
  let always_apply := default (PBool false) (frontmatter !! "alwaysApply") in
  desc ← py_slice_to 60 (default (PStr []) (frontmatter !! "description"));
  relative ← relative_to file_path rules_dir;
  Some (OutFile (truthy always_apply) relative
        :: if truthy desc then [OutDescription desc] else []).

(** The [for] loop of [validate_all]. *)
Fixpoint validate_each (v : RuleValidator) (out : list line)
    (files : list (path * read_result)) : option (RuleValidator * list line) :=
  match files with
  | [] => Some (v, out)
  | (file_path, read) :: rest =>
      let '((is_valid, frontmatter), v) := validate_file v file_path read in
      if is_valid then
        printed ← print_status (rules_dir v) file_path frontmatter;
        validate_each v (out ++ printed) rest
      else validate_each v out rest
  end.

(** [RuleValidator.validate_all]: the returned flag, the object after the
    call and what was printed. *)
Definition validate_all (v : RuleValidator) (d : directory)
    : option (bool * RuleValidator * list line) :=
  if negb (dir_exists d) then
    Some (false, errors_append (ErrNoRulesDir (rules_dir v)) v, [])
  else
    let mdc_files := map (fun f => (rules_dir v ++ fst f, snd f)) (rglob d) in
    match mdc_files with
    | [] => Some (false, errors_append (ErrNoMdcFiles (rules_dir v)) v, [])
    | _ :: _ =>
        '(v, out) ← validate_each v [OutValidating (length mdc_files)]
                      (sorted mdc_files);
        Some (match errors v with [] => true | _ :: _ => false end, v, out)
    end.

(** [RuleValidator.print_report]. *)
Definition print_report (v : RuleValidator) : list line :=
  [OutRule; OutTitle; OutRule; OutStatistics;
   OutTotal (total_files (stats v));
   OutValid (valid_files (stats v));
   OutInvalid (invalid_files (stats v))]
  ++ (if 0 <? files_without_description (stats v)
      then [OutWithoutDescription (files_without_description (stats v))] else [])
  ++ (if 0 <? files_without_alwaysApply (stats v)
      then [OutWithoutAlwaysApply (files_without_alwaysApply (stats v))] else [])
  ++ (if 0 <? files_with_invalid_yaml (stats v)
      then [OutInvalidYaml (files_with_invalid_yaml (stats v))] else [])
  ++ (match errors v with
      | [] => []
      | _ :: _ => OutErrors (length (errors v)) :: map OutItem (errors v)
      end)
  ++ (match warnings v with
      | [] => []
      | _ :: _ => OutWarnings (length (warnings v)) :: map OutItem (warnings v)
      end)
  ++ [match errors v, warnings v with
      | [], [] => OutAllReadable
      | [], _ :: _ => OutValidWithWarnings
      | _ :: _, _ => OutMustBeFixed
      end]
  ++ [OutRule].

(** [main]: the exit status, the object at the end of the run and the
    whole output.  [RuleValidator()] takes the default directory. *)
Definition default_rules_dir : path := [s ".cursor"; s "rules"].

Definition main (d : directory) : option (Z * RuleValidator * list line) :=
  let validator := init default_rules_dir in
  '(is_valid, validator, out) ← validate_all validator d;
  Some (if is_valid : bool then 0 else 1, validator, out ++ print_report validator).

(** The opening line and the closing line of the header block, as the
    pattern spells them. *)
Definition opening : str := s "---" ++ [NL].
Definition closing : str := [NL] ++ s "---" ++ [NL].

(** The lines of a text: [x.split] on the line feed. *)
Fixpoint lines (x : str) : list str :=
  match x with
  | [] => [[]]
  | c :: x' =>
      if (c =? NL)%N then [] :: lines x'
      else match lines x' with
           | l :: ls => (c :: l) :: ls
           | [] => [[c]]
           end
  end.

(** What [validate_file] leaves when it reports a header block that is not
    closed: the pair it returns and the one error it appends. *)
Definition reports_malformed (v : RuleValidator) (file_path : path)
    (r : (bool * dict) * RuleValidator) : Prop :=
  fst r = (false, ∅)
  /\ errors (snd r) = errors v ++ [ErrBadFrontmatter file_path].

(** The errors the two checks append, read off the parsed fields. *)
Definition description_errors (file_path : path) (description : pyval)
    : list message :=
  match description with
  | PNone => [ErrNoDescription file_path]
  | PStr d => match strip d with
              | [] => [ErrEmptyDescription file_path]
              | _ :: _ => []
              end
  | _ => []
  end.

Definition alwaysApply_errors (file_path : path) (alwaysApply : pyval)
    : list message :=
  if is_none alwaysApply then [ErrNoAlwaysApply file_path] else [].

(** Where a pattern anchored with [^] and [$] may start and end under
    [re.MULTILINE]: at the start of the text or after a line feed, at the
    end of the text or before a line feed. *)
Definition line_start (pre : str) : Prop :=
  pre = [] \/ exists t, pre = t ++ [NL].

Definition line_end (post : str) : Prop :=
  post = [] \/ exists t, post = NL :: t.

(** [u] is the literal [l] up to case, as [re.IGNORECASE] compares. *)
Definition caseless (l u : str) : Prop :=
  Forall2 (fun pc c => caseless_eq pc c = true) l u.

Definition all_space (ws : str) : Prop :=
  Forall (fun c => isspace c = true) ws.

Definition boolean_literal (b : bool) : str := s (if b then "true" else "false").

(** The header holds, from the start of a line, the key [alwaysApply:] up
    to case, a run of white space (line feeds included), the literal of
    [b] up to case, and then the end of a line. *)
Definition alwaysApply_written (hdr : str) (b : bool) : Prop :=
  exists pre key ws val post,
    hdr = pre ++ key ++ ws ++ val ++ post
    /\ line_start pre
    /\ caseless (s "alwaysApply:") key
    /\ all_space ws
    /\ caseless (boolean_literal b) val
    /\ line_end post.

(** The reading of the specification: one line of the header is the key,
    white space and the literal of [b], and nothing else. *)
Definition alwaysApply_line (l : str) (b : bool) : Prop :=
  exists key ws val,
    l = key ++ ws ++ val
    /\ caseless (s "alwaysApply:") key
    /\ all_space ws
    /\ caseless (boolean_literal b) val.

(** A literal followed by [$], with the literal as group 1: the two
    branches of [(true|false)$]. *)
Definition literal_then_eol (fl : flags) (l : str) (p : option char) (y : str)
    : option (rmatch * option char) :=
  match lit_prefix fl l y with
  | Some z =>
      if at_eol fl z
      then Some (Match (Some (firstn (length y - length z) y)) z,
                 prev_after p (firstn (length l) y))
      else None
  | None => None
  end.

Definition boolean_then_eol (fl : flags) (p : option char) (y : str)
    : option (rmatch * option char) :=
  match literal_then_eol fl (s "true") p y with
  | Some r => Some r
  | None => literal_then_eol fl (s "false") p y
  end.

(** A header given by its lines: each line of [ls] followed by a line
    feed. *)
Definition join_lines (ls : list str) : str :=
  concat (map (fun l => l ++ [NL]) ls).

(** A line that holds no line feed and does not begin with [key]. *)
Definition other_line (key l : str) : Prop :=
  ~ In NL l /\ startswith l key = false.

(** The header holds, from the start of a line, the key [globs:], a run of
    white space and then a bracket. *)
Definition globs_key_bracket (hdr : str) : Prop :=
  exists pre ws c post,
    hdr = pre ++ s "globs:" ++ ws ++ c :: post
    /\ line_start pre /\ all_space ws /\ (c = 91%N \/ c = 93%N).

(** The two patterns for [globs] after [^globs:]. *)
Definition globs_tail : regex :=
  Seq (Star true Space)
    (Seq (Atom (Chr 91)) (Seq (Group (Star false Any)) (Atom (Chr 93)))).

Definition globs_simple_tail : regex :=
  Seq (Star true Space)
    (Seq (Opt (Chr 91)) (Seq (Star true Space) (Atom (Chr 93)))).

Definition globs_key : str := s "globs:".

(** [globs_key_bracket], decided by a scan of the header; [bol] tells
    whether the scan stands at the start of a line. *)
Fixpoint key_bracketb (bol : bool) (x : str) : bool :=
  (bol && match lit_prefix no_flags globs_key x with
          | Some x1 =>
              match lstrip x1 with
              | c :: _ => (c =? 91)%N || (c =? 93)%N
              | [] => false
              end
          | None => false
          end)
  || match x with
     | c :: x' => key_bracketb (c =? NL)%N x'
     | [] => false
     end.

(** ** Rule files that conform to the schema

    The header block of a conforming file, line by line: a description
    (quoted or bare), an [alwaysApply] flag, a one-line bracketed list of
    quoted globs; in any order. *)

Inductive quote := Double | Single.

Definition quote_char (q : quote) : char :=
  match q with Double => DQ | Single => SQ end.

Definition quoted (q : quote) (x : str) : str := quote_char q :: x ++ [quote_char q].

Definition scalar (q : option quote) (d : str) : str :=
  match q with Some q => quoted q d | None => d end.

(** An item of a bracketed list: its quotes, its text, and what is written
    after it, up to the next item or the closing bracket. *)
Record item := Item { item_quote : quote; item_text : str; item_after : str }.

Inductive field :=
| Description (q : option quote) (d : str)
| AlwaysApply (b : bool)
| Globs (lead : str) (items : list item).

Definition item_written (i : item) : str :=
  quoted (item_quote i) (item_text i) ++ item_after i.

(** The text between the brackets: what is written before the first item,
    then the items. *)
Definition items_text (lead : str) (items : list item) : str :=
  lead ++ concat (map item_written items).

Definition render (f : field) : str :=
  match f with
  | Description q d => s "description: " ++ scalar q d
  | AlwaysApply b => s "alwaysApply: " ++ boolean_literal b
  | Globs lead items => s "globs: [" ++ items_text lead items ++ s "]"
  end.

(** The lines of the header with a line feed between them. *)
Fixpoint header (fs : list field) : str :=
  match fs with
  | [] => []
  | f :: rest =>
      render f ++ match rest with [] => [] | _ :: _ => NL :: header rest end
  end.

Definition is_empty (x : str) : bool :=
  match x with [] => true | _ :: _ => false end.

(** The two quote characters of the list-item pattern. *)
Definition is_quote (c : char) : bool := (c =? DQ)%N || (c =? SQ)%N.

(** What separates the items of a list: commas and white space. *)
Definition is_separator (c : char) : bool := (c =? 44)%N || isspace c.

Definition one_line (x : str) : bool := forallb (fun c => negb (c =? NL)%N) x.

(** The values the schema admits: a description on one line that is not
    blank, and, when it is written bare, has no white space around it and
    is not itself wrapped in quotes; glob items that are not empty and
    hold no quote and no closing bracket, with commas and white space
    between them, the whole list on one line. *)
Definition description_ok (q : option quote) (d : str) : bool :=
  forallb (fun c => negb (c =? NL)%N) d
  && negb (is_empty (strip d))
  && match q with
     | Some _ => true
     | None =>
         str_eqb (strip d) d
         && negb (startswith d [DQ] && endswith d [DQ])
         && negb (startswith d [SQ] && endswith d [SQ])
     end.

Definition item_char_ok (c : char) : bool := negb (is_quote c || (c =? 93)%N).

Definition text_ok (i : str) : bool :=
  negb (is_empty i) && forallb item_char_ok i.

Definition item_ok (i : item) : bool :=
  text_ok (item_text i) && forallb is_separator (item_after i).

Definition list_ok (lead : str) (items : list item) : bool :=
  forallb is_separator lead && forallb item_ok items.

Definition field_ok (f : field) : bool :=
  match f with
  | Description q d => description_ok q d
  | AlwaysApply _ => true
  | Globs lead items => list_ok lead items && one_line (items_text lead items)
  end.

(** The literal values of the header: those of the first line of each
    key. *)
Fixpoint first_value {A : Type} (value : field -> option A) (fs : list field)
    : option A :=
  match fs with
  | [] => None
  | f :: rest =>
      match value f with
      | Some a => Some a
      | None => first_value value rest
      end
  end.

Definition description_of : list field -> option str :=
  first_value (fun f => match f with Description _ d => Some d | _ => None end).

Definition alwaysApply_of : list field -> option bool :=
  first_value (fun f => match f with AlwaysApply b => Some b | _ => None end).

Definition globs_of : list field -> option (list str) :=
  first_value (fun f => match f with Globs _ items => Some (map item_text items) | _ => None end).

(** The text of group 1 where a line is decided by each pattern. *)
Definition written_description (f : field) : option str :=
  match f with Description q d => Some (scalar q d) | _ => None end.

Definition written_alwaysApply (f : field) : option str :=
  match f with AlwaysApply b => Some (boolean_literal b) | _ => None end.

Definition written_globs (f : field) : option str :=
  match f with Globs lead items => Some (items_text lead items) | _ => None end.

(** A line feed followed by a dash somewhere in the text. *)
Fixpoint nl_dash (x : str) : bool :=
  match x with
  | [] => false
  | c :: x' =>
      ((c =? NL)%N && match x' with c' :: _ => (c' =? 45)%N | [] => false end)
      || nl_dash x'
  end.

(** The text of the example of the specification. *)
Definition example_fields : list field :=
  [Description (Some Double) (s "Test rule"); AlwaysApply true;
   Globs [] [Item Double (s "*.ts") []]].

Definition example_content : str :=
  s "---" ++ [NL] ++ s "description: " ++ [DQ] ++ s "Test rule" ++ [DQ] ++ [NL]
  ++ s "alwaysApply: true" ++ [NL]
  ++ s "globs: [" ++ [DQ] ++ s "*.ts" ++ [DQ] ++ s "]" ++ [NL]
  ++ s "---" ++ [NL] ++ s "Body text".

(** The description and the [alwaysApply] patterns after [^] and the key. *)
Definition description_key : str := s "description:".
Definition description_tail : regex :=
  Seq (Star true Space) (Seq (Group (Plus true Any)) Eol).

Definition alwaysApply_key : str := s "alwaysApply:".
Definition alwaysApply_tail : regex :=
  Seq (Star true Space)
    (Seq (Group (Alt (Lit (s "true")) (Lit (s "false")))) Eol).

(** A pattern decides a line of the header: at the start of a line it
    matches with the written value as group 1 and the rest of the header
    after it, or it does not match. *)
Definition decides (fl : flags) (r : regex) (value : field -> option str)
    (f : field) : Prop :=
  forall p (rest : str),
    at_bol fl p = true -> line_end rest ->
    match value f with
    | Some g => exists q, match_at fl r p (render f ++ rest)
                          = Some (Match (Some g) rest, q)
    | None => match_at fl r p (render f ++ rest) = None
    end.

(** The fields of the object a call leaves alone or only extends. *)
Record extends (v v' : RuleValidator) : Prop := {
  ext_rules_dir : rules_dir v' = rules_dir v;
  ext_errors : exists es, errors v' = errors v ++ es;
  ext_warnings : exists ws, warnings v' = warnings v ++ ws;
  ext_invalid_yaml :
    files_with_invalid_yaml (stats v') = files_with_invalid_yaml (stats v);
  ext_globs_error :
    forall q, In (ErrGlobsNotList q) (errors v') -> In (ErrGlobsNotList q) (errors v)
}.

(** ** One call apart from the object it is made on *)

(** The sum of two sets of counters, and the object [v] with what another
    object recorded added to it: the messages appended, the counters
    summed. *)
Definition add_stats (t u : Stats) : Stats :=
  mkStats (total_files t + total_files u) (valid_files t + valid_files u)
    (invalid_files t + invalid_files u)
    (files_without_description t + files_without_description u)
    (files_without_alwaysApply t + files_without_alwaysApply u)
    (files_with_invalid_yaml t + files_with_invalid_yaml u).

Definition absorb (v w : RuleValidator) : RuleValidator :=
  mkValidator (rules_dir v) (errors v ++ errors w) (warnings v ++ warnings w)
    (add_stats (stats v) (stats w)).

(** What a call of [validate_file] records on an object that holds nothing
    yet. *)
Definition recorded (dir : path) (f : path * read_result) : RuleValidator :=
  snd (validate_file (init dir) (fst f) (snd f)).

(** The status lines the loop of [validate_all] prints for one file. *)
Definition file_status (dir : path) (f : path * read_result) : list line :=
  let '((is_valid, frontmatter), _) := validate_file (init dir) (fst f) (snd f) in
  if is_valid : bool
  then match print_status dir (fst f) frontmatter with
       | Some printed => printed
       | None => []
       end
  else [].

(** The relations the counters and the two lists keep between them. *)
Definition consistent (v : RuleValidator) : Prop :=
  let t := stats v in
  total_files t = valid_files t + invalid_files t
  /\ 0 <= valid_files t
  /\ 0 <= files_without_description t <= invalid_files t
  /\ 0 <= files_without_alwaysApply t <= invalid_files t
  /\ invalid_files t <= Z.of_nat (length (errors v)) <= 2 * invalid_files t
  /\ Z.of_nat (length (warnings v)) <= total_files t.

(** The messages listed in a printed text. *)
Fixpoint items (out : list line) : list message :=
  match out with
  | [] => []
  | OutItem m :: out' => m :: items out'
  | _ :: out' => items out'
  end.

(** The order [sorted] sorts by, on the files. *)
Definition file_ltb (x y : path * read_result) : bool := path_ltb (fst x) (fst y).

(** The three early returns of [validate_file]: the error is appended and
    the file counted as invalid. *)
Definition early_return (v : RuleValidator) (m : message) : RuleValidator :=
  incr_invalid_files (errors_append m (incr_total_files v)).

(** The text after the opening line cut at its first closing line: [h]
    before it, [b] after it. *)
Definition first_cut (rest h b : str) : Prop :=
  rest = h ++ closing ++ b
  /\ forall h' b', rest = h' ++ closing ++ b' -> (length h <= length h')%nat.

(** [x] is a piece of [y]: it stands in [y], whole and in one place. *)
Definition piece (x y : str) : Prop := exists a b, y = a ++ x ++ b.

(** * Properties *)

(** ** Text and path helpers *)

Lemma str_eqb_refl (x : str) : str_eqb x x = true.
Proof.
  induction x as [|c x IH]; simpl; [reflexivity|].
  now rewrite N.eqb_refl, IH.
Qed.

Lemma str_eqb_eq (x y : str) : str_eqb x y = true <-> x = y.
Proof.
  split; [|intros ->; apply str_eqb_refl].
  revert y; induction x as [|a x IH]; intros [|b y]; simpl; try discriminate; auto.
  intros [Hab Hxy]%andb_prop. apply N.eqb_eq in Hab. f_equal; auto.
Qed.

Lemma relative_to_app (d rel : path) : relative_to (d ++ rel) d = Some rel.
Proof.
  induction d as [|a d IH]; simpl; [now destruct rel|].
  now rewrite str_eqb_refl.
Qed.

Lemma Forall_insert_sorted (P : path * read_result -> Prop) x l :
  P x -> Forall P l -> Forall P (insert_sorted x l).
Proof.
  intros Hx Hl. induction Hl as [|y l Hy Hl IH]; simpl.
  - constructor; [assumption|constructor].
  - destruct (path_ltb (fst y) (fst x)); constructor; auto.
Qed.

Lemma Forall_sorted (P : path * read_result -> Prop) l :
  Forall P l -> Forall P (sorted l).
Proof.
  induction 1 as [|x l Hx Hl IH]; simpl; [constructor|].
  now apply Forall_insert_sorted.
Qed.

(** ** What one call of [validate_file] does to the object *)

Ltac unfold_updates :=
  unfold incr_total_files, incr_valid_files, incr_invalid_files,
    incr_files_without_description, incr_files_without_alwaysApply,
    with_stats, errors_append, warnings_append in *; simpl in *.

(** The type of each parsed field. *)
Lemma parse_description_type (x : str) :
  parse_description x = PNone \/ exists d, parse_description x = PStr d.
Proof.
  unfold parse_description. destruct (re_search _ _ _); eauto.
Qed.

Lemma parse_alwaysApply_type (x : str) :
  parse_alwaysApply x = PNone \/ exists b, parse_alwaysApply x = PBool b.
Proof.
  unfold parse_alwaysApply. destruct (re_search _ _ _); eauto.
Qed.

Lemma parse_globs_type (x : str) :
  parse_globs x = PNone \/ exists l, parse_globs x = PList (map PStr l).
Proof.
  unfold parse_globs. destruct (re_search fl_globs _ _) as [m|].
  - right. destruct (strip (group m)); [exists []|]; eauto.
  - destruct (re_search _ _ _); [right; exists []|left]; reflexivity.
Qed.

(** On a parsed [globs] the type check does nothing. *)
Lemma check_globs_parsed file_path (x : str) h v :
  check_globs file_path (parse_globs x) h v = (h, v).
Proof.
  unfold check_globs.
  now destruct (parse_globs_type x) as [->|[l ->]].
Qed.

(** The check of the description, case by case. *)
Lemma check_description_spec (file_path : path) (description : pyval)
    (v : RuleValidator) :
  check_description file_path description v =
    match description with
    | PNone => (true, incr_files_without_description
                        (errors_append (ErrNoDescription file_path) v))
    | PStr d => match strip d with
                | [] => (true, errors_append (ErrEmptyDescription file_path) v)
                | _ :: _ => (false, v)
                end
    | _ => (false, v)
    end.
Proof.
  destruct description as [| |d|]; try reflexivity.
  unfold check_description.
  destruct d as [|c d]; [reflexivity|].
  simpl truthy at 1. simpl negb at 1. rewrite orb_false_l.
  unfold truthy. now destruct (strip (c :: d)).
Qed.

(** [validate_frontmatter] without the type check of [globs], which never
    fires. *)
Lemma validate_frontmatter_unfold v file_path m :
  validate_frontmatter v file_path m =
    let c1 := check_description file_path (parse_description (group m)) v in
    let c2 := check_alwaysApply file_path (parse_alwaysApply (group m))
                (fst c1) (snd c1) in
    let v3 := match strip (after m) with
              | [] => warnings_append (WarnNoContent file_path) (snd c2)
              | _ :: _ => snd c2
              end in
    if fst c2
    then ((false, frontmatter_of (group m)), incr_invalid_files v3)
    else ((true, frontmatter_of (group m)), incr_valid_files v3).
Proof.
  unfold validate_frontmatter.
  destruct (check_description _ _ _) as [h1 v1].
  destruct (check_alwaysApply _ _ _ _) as [h2 v2].
  now rewrite check_globs_parsed.
Qed.

(** The frontmatter dictionary of a file whose header block was cut out. *)
Lemma validate_frontmatter_dict v file_path m :
  snd (fst (validate_frontmatter v file_path m)) = frontmatter_of (group m).
Proof.
  rewrite validate_frontmatter_unfold. cbv zeta.
  now destruct (fst (check_alwaysApply _ _ _ _)).
Qed.

Lemma frontmatter_of_description x :
  frontmatter_of x !! "description"%string = Some (parse_description x).
Proof.
  unfold frontmatter_of.
  rewrite lookup_insert_ne by discriminate.
  rewrite lookup_insert_ne by discriminate.
  apply lookup_insert_eq.
Qed.

Lemma frontmatter_of_alwaysApply x :
  frontmatter_of x !! "alwaysApply"%string = Some (parse_alwaysApply x).
Proof.
  unfold frontmatter_of.
  rewrite lookup_insert_ne by discriminate.
  apply lookup_insert_eq.
Qed.

Lemma frontmatter_of_globs x :
  frontmatter_of x !! "globs"%string = Some (parse_globs x).
Proof. apply lookup_insert_eq. Qed.

(** A valid file has a string for its description, so that the status line
    of the loop can be printed. *)
Lemma validate_frontmatter_valid v file_path m :
  fst (fst (validate_frontmatter v file_path m)) = true ->
  exists d, parse_description (group m) = PStr d.
Proof.
  rewrite validate_frontmatter_unfold, check_description_spec. cbv zeta.
  destruct (parse_description_type (group m)) as [->|[d ->]]; [|eauto].
  unfold check_alwaysApply.
  destruct (is_none _); discriminate.
Qed.

Lemma validate_file_valid v file_path read :
  fst (fst (validate_file v file_path read)) = true ->
  exists d, snd (fst (validate_file v file_path read)) !! "description"%string
            = Some (PStr d).
Proof.
  unfold validate_file. destruct read as [e|content]; [discriminate|].
  destruct (negb _); [discriminate|].
  destruct (re_match _ _ _) as [m|]; [|discriminate].
  intros [d Hd]%validate_frontmatter_valid. exists d.
  now rewrite validate_frontmatter_dict, frontmatter_of_description, Hd.
Qed.

Lemma extends_refl v : extends v v.
Proof. split; try reflexivity; auto; exists []; now rewrite app_nil_r. Qed.

Lemma extends_trans v1 v2 v3 : extends v1 v2 -> extends v2 v3 -> extends v1 v3.
Proof.
  intros [Hd [es Hes] [ws Hws] Hy Hg] [Hd' [es' Hes'] [ws' Hws'] Hy' Hg'].
  split; try congruence; auto.
  - exists (es ++ es'). now rewrite Hes', Hes, app_assoc.
  - exists (ws ++ ws'). now rewrite Hws', Hws, app_assoc.
Qed.

Lemma extends_errors_append m v :
  (forall q, m <> ErrGlobsNotList q) -> extends v (errors_append m v).
Proof.
  intros Hm. split; simpl; try reflexivity.
  - now exists [m].
  - exists []; now rewrite app_nil_r.
  - intros q [Hq|[Hq|[]]]%in_app_or; [assumption|]. now apply Hm in Hq.
Qed.

Lemma extends_warnings_append m v : extends v (warnings_append m v).
Proof.
  split; simpl; try reflexivity; auto;
    [exists []; now rewrite app_nil_r|now exists [m]].
Qed.

Lemma extends_counter v v' :
  rules_dir v' = rules_dir v -> errors v' = errors v ->
  warnings v' = warnings v ->
  files_with_invalid_yaml (stats v') = files_with_invalid_yaml (stats v) ->
  extends v v'.
Proof.
  intros Hd He Hw Hy. split; try assumption;
    [exists []; now rewrite app_nil_r|exists []; now rewrite app_nil_r|].
  now rewrite He.
Qed.

Create HintDb validator.
#[local] Hint Resolve extends_refl extends_warnings_append : validator.

Lemma extends_incr_total_files v : extends v (incr_total_files v).
Proof. now apply extends_counter. Qed.
Lemma extends_incr_valid_files v : extends v (incr_valid_files v).
Proof. now apply extends_counter. Qed.
Lemma extends_incr_invalid_files v : extends v (incr_invalid_files v).
Proof. now apply extends_counter. Qed.
Lemma extends_incr_files_without_description v :
  extends v (incr_files_without_description v).
Proof. now apply extends_counter. Qed.
Lemma extends_incr_files_without_alwaysApply v :
  extends v (incr_files_without_alwaysApply v).
Proof. now apply extends_counter. Qed.

#[local] Hint Resolve extends_incr_total_files extends_incr_valid_files
  extends_incr_invalid_files extends_incr_files_without_description
  extends_incr_files_without_alwaysApply : validator.

Ltac extends_peel :=
  repeat match goal with
  | |- extends ?v ?v => apply extends_refl
  | |- extends _ (incr_total_files ?x) =>
      apply (extends_trans _ x); [|apply extends_incr_total_files]
  | |- extends _ (incr_valid_files ?x) =>
      apply (extends_trans _ x); [|apply extends_incr_valid_files]
  | |- extends _ (incr_invalid_files ?x) =>
      apply (extends_trans _ x); [|apply extends_incr_invalid_files]
  | |- extends _ (incr_files_without_description ?x) =>
      apply (extends_trans _ x); [|apply extends_incr_files_without_description]
  | |- extends _ (incr_files_without_alwaysApply ?x) =>
      apply (extends_trans _ x); [|apply extends_incr_files_without_alwaysApply]
  | |- extends _ (errors_append ?m ?x) =>
      apply (extends_trans _ x);
      [|apply extends_errors_append; intros ?; discriminate]
  | |- extends _ (warnings_append ?m ?x) =>
      apply (extends_trans _ x); [|apply extends_warnings_append]
  end.

Lemma extends_check_description file_path description v :
  extends v (snd (check_description file_path description v)).
Proof.
  rewrite check_description_spec.
  destruct description as [| |d|]; simpl; [|extends_peel| |extends_peel].
  - extends_peel.
  - destruct (strip d); simpl; extends_peel.
Qed.

Lemma extends_check_alwaysApply file_path a h v :
  extends v (snd (check_alwaysApply file_path a h v)).
Proof.
  unfold check_alwaysApply. destruct (is_none a); simpl; extends_peel.
Qed.


Lemma extends_validate_frontmatter v file_path m :
  extends v (snd (validate_frontmatter v file_path m)).
Proof.
  rewrite validate_frontmatter_unfold. cbv zeta.
  pose proof (extends_check_description file_path (parse_description (group m)) v) as H1.
  destruct (check_description _ _ _) as [h1 v1]; simpl in H1.
  pose proof (extends_check_alwaysApply file_path (parse_alwaysApply (group m)) h1 v1) as H2.
  simpl fst; simpl snd.
  destruct (check_alwaysApply _ _ _ _) as [h2 v2]; simpl in H2.
  assert (H4 : extends v v2) by eauto using extends_trans.
  destruct (strip (after m)), h2; simpl; extends_peel; exact H4.
Qed.

Lemma extends_validate_file v file_path read :
  extends v (snd (validate_file v file_path read)).
Proof.
  unfold validate_file.
  destruct read as [e|content]; simpl.
  - extends_peel.
  - destruct (negb _); simpl.
    + extends_peel.
    + destruct (re_match _ _ _) as [m|]; simpl.
      * eapply extends_trans; [apply extends_incr_total_files|].
        apply extends_validate_frontmatter.
      * extends_peel.
Qed.

(** ** The loop and the whole run return *)

Lemma print_status_defined (d rel : path) (frontmatter : dict) (x : str) :
  frontmatter !! "description"%string = Some (PStr x) ->
  exists printed, print_status d (d ++ rel) frontmatter = Some printed
    /\ forall n, ~ In (OutInvalidYaml n) printed.
Proof.
  intros Hx. unfold print_status. rewrite Hx. simpl.
  rewrite relative_to_app. simpl. eexists; split; [reflexivity|].
  intros n [Hn|Hn]; [discriminate|].
  destruct (slice_to 60 x); [destruct Hn|destruct Hn as [Hn|[]]; discriminate].
Qed.

Lemma validate_each_defined (files : list (path * read_result)) :
  forall (v : RuleValidator) (out : list line),
    Forall (fun f => exists rel, fst f = rules_dir v ++ rel) files ->
    exists v' out',
      validate_each v out files = Some (v', out')
      /\ extends v v'
      /\ (forall n, In (OutInvalidYaml n) out' -> In (OutInvalidYaml n) out).
Proof.
  induction files as [|[file_path read] files IH]; intros v out Hall.
  - exists v, out. simpl. auto with validator.
  - inversion Hall as [|? ? [rel Hrel] Hall']; subst. simpl in Hrel.
    simpl.
    pose proof (extends_validate_file v file_path read) as Hext.
    pose proof (validate_file_valid v file_path read) as Hvalid.
    destruct (validate_file v file_path read) as [[is_valid frontmatter] v1].
    simpl in Hext, Hvalid.
    assert (Hall1 : Forall (fun f => exists rel, fst f = rules_dir v1 ++ rel) files).
    { rewrite (ext_rules_dir _ _ Hext). exact Hall'. }
    destruct is_valid.
    + destruct (Hvalid eq_refl) as [x Hx].
      rewrite (ext_rules_dir _ _ Hext), Hrel.
      destruct (print_status_defined (rules_dir v) rel frontmatter x Hx)
        as (printed & -> & Hprinted). simpl.
      destruct (IH v1 (out ++ printed) Hall1) as (v' & out' & -> & Hext' & Hout).
      exists v', out'. split; [reflexivity|]. split; [eauto using extends_trans|].
      intros n Hn. apply Hout in Hn. apply in_app_or in Hn.
      destruct Hn as [Hn|Hn]; [assumption|now apply Hprinted in Hn].
    + destruct (IH v1 out Hall1) as (v' & out' & -> & Hext' & Hout).
      exists v', out'. eauto using extends_trans.
Qed.

(** [validate_all] always returns; its flag says whether the error list is
    empty, and the two early returns leave exactly one error. *)
Lemma validate_all_defined (v : RuleValidator) (d : directory) :
  exists is_valid v' out,
    validate_all v d = Some (is_valid, v', out)
    /\ extends v v'
    /\ (errors v = [] -> (is_valid = true <-> errors v' = []))
    /\ (forall n, ~ In (OutInvalidYaml n) out)
    /\ (dir_exists d = false ->
        is_valid = false /\ errors v' = errors v ++ [ErrNoRulesDir (rules_dir v)])
    /\ (dir_exists d = true -> rglob d = [] ->
        is_valid = false /\ errors v' = errors v ++ [ErrNoMdcFiles (rules_dir v)]).
Proof.
  unfold validate_all. destruct (dir_exists d) eqn:Hd; cbn [negb].
  - destruct (rglob d) as [|f fs] eqn:Hfs; cbn [map].
    + do 3 eexists. split; [reflexivity|]. split; [extends_peel|].
      split; [intros He; simpl; rewrite He; split; discriminate|].
      split; [intros n []|]. split; [discriminate|]. auto.
    + match goal with |- context [sorted ?l] => set (files := sorted l) end.
      assert (Hall : Forall (fun f => exists rel, fst f = rules_dir v ++ rel) files).
      { apply Forall_sorted. constructor; [now exists (fst f)|].
        apply List.Forall_forall. intros x [y [<- _]]%in_map_iff. now exists (fst y). }
      match goal with |- context [validate_each v ?o files] =>
        destruct (validate_each_defined files v o Hall)
          as (v' & out' & Heach & Hext & Hout); rewrite Heach
      end.
      simpl.
      do 3 eexists. split; [reflexivity|]. split; [assumption|].
      split; [intros _; destruct (errors v'); split; congruence|].
      split; [|split; [discriminate|intros _; discriminate]].
      intros n Hn. apply Hout in Hn. destruct Hn as [Hn|[]]. discriminate.
  - do 3 eexists. split; [reflexivity|]. split; [extends_peel|].
    split; [intros He; simpl; rewrite He; split; discriminate|].
    split; [intros n []|]. split; [auto|discriminate].
Qed.

(** ** The exit status and the counters of a run *)

Lemma main_defined (d : directory) :
  exists code v out,
    main d = Some (code, v, out)
    /\ extends (init default_rules_dir) v
    /\ (code = 0 <-> errors v = [])
    /\ (code = 0 \/ code = 1)
    /\ (forall n, In (OutInvalidYaml n) out ->
        0 < files_with_invalid_yaml (stats v))
    /\ (dir_exists d = false ->
        code = 1 /\ errors v = [ErrNoRulesDir default_rules_dir])
    /\ (dir_exists d = true -> rglob d = [] ->
        code = 1 /\ errors v = [ErrNoMdcFiles default_rules_dir]).
Proof.
  unfold main.
  destruct (validate_all_defined (init default_rules_dir) d)
    as (is_valid & v & out & -> & Hext & Hflag & Hout & Hdir & Hnone).
  simpl. exists (if is_valid then 0 else 1), v, (out ++ print_report v).
  split; [reflexivity|]. split; [assumption|].
  specialize (Hflag eq_refl).
  split; [|split; [|split; [|split]]].
  - destruct is_valid; split; intros H; try reflexivity; try discriminate.
    + now apply Hflag.
    + apply Hflag in H. discriminate.
  - destruct is_valid; auto.
  - intros n [Hn|Hn]%in_app_or; [now apply Hout in Hn|].
    unfold print_report in Hn.
    repeat (apply in_app_or in Hn; destruct Hn as [Hn|Hn]).
    + simpl in Hn. repeat (destruct Hn as [Hn|Hn]; [discriminate|]). destruct Hn.
    + destruct (0 <? _); [destruct Hn as [Hn|[]]; discriminate|destruct Hn].
    + destruct (0 <? _); [destruct Hn as [Hn|[]]; discriminate|destruct Hn].
    + destruct (0 <? files_with_invalid_yaml (stats v)) eqn:Hy; [|destruct Hn].
      now apply Z.ltb_lt in Hy.
    + destruct (errors v); [destruct Hn|].
      destruct Hn as [Hn|Hn]; [discriminate|].
      apply in_map_iff in Hn. destruct Hn as (? & ? & _). discriminate.
    + destruct (warnings v); [destruct Hn|].
      destruct Hn as [Hn|Hn]; [discriminate|].
      apply in_map_iff in Hn. destruct Hn as (? & ? & _). discriminate.
    + destruct Hn as [Hn|[]]. destruct (errors v), (warnings v); discriminate.
    + destruct Hn as [Hn|[]]. discriminate.
  - intros Hd. destruct (Hdir Hd) as [-> ->]. auto.
  - intros Hd Hfs. destruct (Hnone Hd Hfs) as [-> ->]. auto.
Qed.

(** C2.  Every run ends with an exit status, which is 0 exactly when the
    error list is empty at the end of the run (whatever the warning list
    holds) and 1 otherwise; a missing root directory and a root directory
    without matching files each record one error and so give status 1. *)
Theorem exit_status_reports_errors (d : directory) :
  exists code v out,
    main d = Some (code, v, out)
    /\ (code = 0 <-> errors v = [])
    /\ (code = 1 <-> errors v <> [])
    /\ (dir_exists d = false ->
        code = 1 /\ errors v = [ErrNoRulesDir default_rules_dir])
    /\ (dir_exists d = true -> rglob d = [] ->
        code = 1 /\ errors v = [ErrNoMdcFiles default_rules_dir]).
Proof.
  destruct (main_defined d)
    as (code & v & out & Hmain & _ & Hzero & Hcode & _ & Hdir & Hnone).
  exists code, v, out.
  split; [assumption|]. split; [assumption|].
  split; [|split; assumption].
  split.
  - intros -> He. apply Hzero in He. discriminate.
  - intros He. destruct Hcode as [Hc|Hc]; [|assumption].
    now apply Hzero in Hc.
Qed.

(** A run over one valid file without a body: a warning is recorded, no
    error, and the exit status is 0. *)
Example exit_status_with_warning :
  exists v out,
    main (mkDirectory true
            [([s "a.mdc"],
              Content (opening ++ s "description: d" ++ [NL]
                       ++ s "alwaysApply: false" ++ closing))])
    = Some (0, v, out)
    /\ errors v = []
    /\ warnings v = [WarnNoContent (default_rules_dir ++ [s "a.mdc"])].
Proof. do 2 eexists. split; [vm_compute; reflexivity|]. split; reflexivity. Qed.

(** C10.  The invalid-YAML counter starts at 0, no call of [validate_file]
    changes it, and so at the end of every run it is 0 and the report
    holds no invalid-YAML line. *)
Theorem invalid_yaml_counter_stays_zero (d : directory) :
  files_with_invalid_yaml (stats (init default_rules_dir)) = 0
  /\ (forall v file_path read,
        files_with_invalid_yaml (stats (snd (validate_file v file_path read)))
        = files_with_invalid_yaml (stats v))
  /\ exists code v out,
       main d = Some (code, v, out)
       /\ files_with_invalid_yaml (stats v) = 0
       /\ forall n, ~ In (OutInvalidYaml n) out.
Proof.
  split; [reflexivity|]. split.
  - intros v file_path read. apply ext_invalid_yaml, extends_validate_file.
  - destruct (main_defined d)
      as (code & v & out & Hmain & Hext & _ & _ & Hout & _).
    exists code, v, out. split; [assumption|].
    pose proof (ext_invalid_yaml _ _ Hext) as Hy. simpl in Hy.
    split; [assumption|]. intros n Hn. apply Hout in Hn. lia.
Qed.

(** C9.  Whatever the file, the [globs] entry of the returned dictionary is
    [None] or a list of strings; the type check of [globs] therefore
    changes neither the error flag nor the object, no call of
    [validate_file] adds the wrong-type error, and no run ends with one. *)
Theorem globs_type_error_unreachable :
  (forall v file_path read g,
     snd (fst (validate_file v file_path read)) !! "globs"%string = Some g ->
     g = PNone \/ exists l, g = PList (map PStr l))
  /\ (forall file_path frontmatter_str has_errors v,
        check_globs file_path (parse_globs frontmatter_str) has_errors v
        = (has_errors, v))
  /\ (forall v file_path read q,
        In (ErrGlobsNotList q) (errors (snd (validate_file v file_path read))) ->
        In (ErrGlobsNotList q) (errors v))
  /\ (forall d, exists code v out,
        main d = Some (code, v, out)
        /\ forall q, ~ In (ErrGlobsNotList q) (errors v)).
Proof.
  split; [|split; [|split]].
  - intros v file_path read g. unfold validate_file.
    destruct read as [e|content]; [simpl; now rewrite lookup_empty|].
    destruct (negb _); [simpl; now rewrite lookup_empty|].
    destruct (re_match _ _ _) as [m|]; [|simpl; now rewrite lookup_empty].
    rewrite validate_frontmatter_dict, frontmatter_of_globs.
    intros [= <-]. apply parse_globs_type.
  - intros. apply check_globs_parsed.
  - intros v file_path read q. apply ext_globs_error, extends_validate_file.
  - intros d. destruct (main_defined d)
      as (code & v & out & Hmain & Hext & _).
    exists code, v, out. split; [assumption|].
    intros q Hq. now apply (ext_globs_error _ _ Hext) in Hq.
Qed.

(** C8.  A file whose text does not start with the three dashes is invalid
    with the empty dictionary; the call appends exactly one error, the
    missing-header one for that file, and no warning, and adds one to the
    total and to the invalid counter and nothing to the others. *)
Theorem missing_header_one_error (v : RuleValidator) (file_path : path)
    (content : str) :
  startswith content (s "---") = false ->
  let r := validate_file v file_path (Content content) in
  fst r = (false, ∅)
  /\ errors (snd r) = errors v ++ [ErrNoFrontmatter file_path]
  /\ warnings (snd r) = warnings v
  /\ total_files (stats (snd r)) = total_files (stats v) + 1
  /\ invalid_files (stats (snd r)) = invalid_files (stats v) + 1
  /\ valid_files (stats (snd r)) = valid_files (stats v)
  /\ files_without_description (stats (snd r))
     = files_without_description (stats v)
  /\ files_without_alwaysApply (stats (snd r))
     = files_without_alwaysApply (stats v)
  /\ files_with_invalid_yaml (stats (snd r)) = files_with_invalid_yaml (stats v).
Proof.
  intros Hstart. unfold validate_file. rewrite Hstart. simpl.
  repeat split.
Qed.

Lemma missing_header_one_error_witness :
  let r := validate_file (init default_rules_dir)
             (default_rules_dir ++ [s "a.mdc"])
             (Content (s "description: no header here")) in
  fst r = (false, ∅)
  /\ errors (snd r) = [ErrNoFrontmatter (default_rules_dir ++ [s "a.mdc"])]
  /\ total_files (stats (snd r)) = 1
  /\ invalid_files (stats (snd r)) = 1.
Proof.
  pose proof (missing_header_one_error (init default_rules_dir)
                (default_rules_dir ++ [s "a.mdc"])
                (s "description: no header here") eq_refl) as H.
  cbv zeta in H. destruct H as (H1 & H2 & _ & H4 & H5 & _).
  cbv zeta. repeat split; assumption.
Defined.

(** ** The matcher *)

Section MatcherFacts.
Context (fl : flags) {R : Type}.

Lemma prev_after_app p (u w : str) :
  prev_after p (u ++ w) = prev_after (prev_after p u) w.
Proof. unfold prev_after. apply fold_left_app. Qed.

Lemma prev_after_snoc p (u : str) c : prev_after p (u ++ [c]) = Some c.
Proof. now rewrite prev_after_app. Qed.

Lemma lit_prefix_split (l x x' : str) :
  lit_prefix fl l x = Some x' ->
  exists u, x = u ++ x' /\ length u = length l
            /\ Forall2 (fun pc c => chr_match fl pc c = true) l u.
Proof.
  revert x. induction l as [|pc l IH]; intros x; simpl.
  - intros [= ->]. exists []. repeat split. constructor.
  - destruct x as [|c x]; [discriminate|].
    destruct (chr_match fl pc c) eqn:Hc; [|discriminate].
    intros (u & -> & Hlen & Hall)%IH.
    exists (c :: u). simpl. repeat split; [now rewrite Hlen|now constructor].
Qed.

Lemma lit_prefix_app (l u x' : str) :
  Forall2 (fun pc c => chr_match fl pc c = true) l u ->
  lit_prefix fl l (u ++ x') = Some x'.
Proof.
  induction 1 as [|pc c l u Hc _ IH]; simpl; [reflexivity|].
  now rewrite Hc.
Qed.

(** A literal consumes a matching prefix or fails. *)
Lemma exec_Lit (l : str) g p (x : str)
    (k : option str -> option char -> str -> option R) :
  exec fl (Lit l) g p x k =
    match lit_prefix fl l x with
    | Some x' => k g (prev_after p (firstn (length l) x)) x'
    | None => None
    end.
Proof.
  revert p x. induction l as [|pc l IH]; intros p x; simpl; [reflexivity|].
  destruct x as [|c x]; [reflexivity|].
  destruct (chr_match fl pc c); [|reflexivity].
  rewrite IH. reflexivity.
Qed.

(** Greedy repetition over a maximal run [u]: the continuation is first
    tried after the whole run. *)
Lemma star_greedy_longest a p (u y : str) (k : option char -> str -> option R) r :
  Forall (fun c => atom_match fl a c = true) u ->
  match y with c :: _ => atom_match fl a c = false | [] => True end ->
  k (prev_after p u) y = Some r ->
  star_greedy fl a p (u ++ y) k = Some r.
Proof.
  intros Hu Hy. revert p. induction Hu as [|c u Hc Hu IH]; intros p Hk.
  - destruct y as [|c y]; simpl in *; [assumption|]. now rewrite Hy.
  - simpl. rewrite Hc. now rewrite (IH (Some c) Hk).
Qed.

(** When the continuation fails wherever the repeated item could go on,
    giving characters back never helps: only the whole run counts. *)
Lemma star_greedy_no_backtrack a p (u y : str)
    (k : option char -> str -> option R) :
  Forall (fun c => atom_match fl a c = true) u ->
  match y with c :: _ => atom_match fl a c = false | [] => True end ->
  (forall p' c z, atom_match fl a c = true -> k p' (c :: z) = None) ->
  star_greedy fl a p (u ++ y) k = k (prev_after p u) y.
Proof.
  intros Hu Hy Hk. revert p. induction Hu as [|c u Hc Hu IH]; intros p.
  - destruct y as [|c y]; simpl in *; [reflexivity|]. now rewrite Hy.
  - simpl. rewrite Hc, IH.
    change (prev_after p (c :: u)) with (prev_after (Some c) u).
    destruct (k (prev_after (Some c) u) y) eqn:E; [reflexivity|].
    now apply Hk.
Qed.

(** Lazy repetition stops at the first position where the continuation
    succeeds. *)
Lemma star_lazy_first a p (u y : str) (k : option char -> str -> option R) r :
  Forall (fun c => atom_match fl a c = true) u ->
  (forall u1 u2, u = u1 ++ u2 -> u2 <> [] -> k (prev_after p u1) (u2 ++ y) = None) ->
  k (prev_after p u) y = Some r ->
  star_lazy fl a p (u ++ y) k = Some r.
Proof.
  intros Hu. revert p. induction Hu as [|c u Hc Hu IH]; intros p Hfail Hk.
  - simpl in *. destruct y; simpl; now rewrite Hk.
  - pose proof (Hfail [] (c :: u) eq_refl) as H0. simpl in H0.
    simpl. rewrite H0 by discriminate.
    rewrite Hc. apply IH; [|assumption].
    intros u1 u2 -> Hu2. apply (Hfail (c :: u1) u2 eq_refl Hu2).
Qed.

Lemma star_lazy_Some a p (x : str) (k : option char -> str -> option R) r :
  star_lazy fl a p x k = Some r ->
  exists u y, x = u ++ y
    /\ k (prev_after p u) y = Some r
    /\ forall u1 u2, u = u1 ++ u2 -> u2 <> [] ->
         k (prev_after p u1) (u2 ++ y) = None.
Proof.
  revert p. induction x as [|c x IH]; intros p; simpl.
  - destruct (k p []) eqn:E; [|discriminate].
    intros [= ->]. exists [], []. repeat split; [assumption|].
    intros [|? ?] [|? ?]; simpl; try discriminate. congruence.
  - destruct (k p (c :: x)) eqn:E.
    + intros [= ->]. exists [], (c :: x). repeat split; [assumption|].
      intros [|? ?] [|? ?]; simpl; try discriminate. congruence.
    + destruct (atom_match fl a c); [|discriminate].
      intros (u & y & -> & Hk & Hfail)%IH.
      exists (c :: u), y. repeat split; [assumption|].
      intros [|c1 u1] u2 Hu Hu2; simpl in *.
      * now rewrite <- Hu.
      * injection Hu as -> ->. now apply Hfail.
Qed.

Lemma star_lazy_None a p (x : str) (k : option char -> str -> option R) :
  (forall c, atom_match fl a c = true) ->
  star_lazy fl a p x k = None <->
  forall u y, x = u ++ y -> k (prev_after p u) y = None.
Proof.
  intros Hall. revert p. induction x as [|c x IH]; intros p; simpl.
  - split.
    + intros H [|? ?] [|? ?]; simpl; try discriminate.
      intros _. now destruct (k p []).
    + intros H. pose proof (H [] [] eq_refl) as H0. simpl in H0.
      now rewrite H0.
  - rewrite Hall. split.
    + intros H u y Hx. destruct (k p (c :: x)) eqn:E; [discriminate|].
      destruct u as [|c' u]; simpl in *; [now subst y|].
      injection Hx as Hc Hx. subst. now apply (proj1 (IH _)).
    + intros H. pose proof (H [] (c :: x) eq_refl) as H0. simpl in H0.
      rewrite H0.
      apply IH. intros u y ->. apply (H (c :: u) y eq_refl).
Qed.

End MatcherFacts.

(** [re.search] returns the match at the first position that has one. *)
Lemma search_from_None fl r p (x : str) :
  search_from fl r p x = None <->
  forall u y, x = u ++ y -> match_at fl r (prev_after p u) y = None.
Proof.
  revert p. induction x as [|c x IH]; intros p; simpl.
  - split.
    + intros H [|? ?] [|? ?]; simpl; try discriminate.
      intros _. now destruct (match_at fl r p []) as [[? ?]|].
    + intros H. pose proof (H [] [] eq_refl) as H0. simpl in H0.
      now rewrite H0.
  - split.
    + intros H u y Hx.
      destruct (match_at fl r p (c :: x)) as [[? ?]|] eqn:E; [discriminate|].
      destruct u as [|c' u]; simpl in *; [now subst y|].
      injection Hx as Hc Hx. subst. now apply (proj1 (IH _)).
    + intros H. pose proof (H [] (c :: x) eq_refl) as H0. simpl in H0.
      rewrite H0.
      apply IH. intros u y ->. apply (H (c :: u) y eq_refl).
Qed.

Lemma search_from_Some fl r p (x : str) m :
  search_from fl r p x = Some m ->
  exists u y p', x = u ++ y
    /\ match_at fl r (prev_after p u) y = Some (m, p').
Proof.
  revert p. induction x as [|c x IH]; intros p; simpl.
  - destruct (match_at fl r p []) as [[m' p']|] eqn:E; [|discriminate].
    intros [= ->]. now exists [], [], p'.
  - destruct (match_at fl r p (c :: x)) as [[m' p']|] eqn:E.
    + intros [= ->]. now exists [], (c :: x), p'.
    + intros (u & y & p' & -> & Hm)%IH. now exists (c :: u), y, p'.
Qed.

Lemma search_from_skip fl r p (u y : str) :
  (forall u1 u2, u = u1 ++ u2 -> u2 <> [] ->
     match_at fl r (prev_after p u1) (u2 ++ y) = None) ->
  search_from fl r p (u ++ y) = search_from fl r (prev_after p u) y.
Proof.
  revert p. induction u as [|c u IH]; intros p Hfail; [reflexivity|].
  pose proof (Hfail [] (c :: u) eq_refl) as H0. simpl in H0.
  simpl. rewrite H0 by discriminate.
  apply IH. intros u1 u2 -> Hu2. apply (Hfail (c :: u1) u2 eq_refl Hu2).
Qed.

Lemma star_lazy_ext fl {R : Type} a p (x : str)
    (k k' : option char -> str -> option R) :
  (forall p' x', k p' x' = k' p' x') ->
  star_lazy fl a p x k = star_lazy fl a p x k'.
Proof.
  intros Hk. revert p. induction x as [|c x IH]; intros p; simpl; rewrite Hk.
  - reflexivity.
  - destruct (k' p (c :: x)); [reflexivity|].
    destruct (atom_match fl a c); [apply IH|reflexivity].
Qed.

Lemma star_greedy_ext fl {R : Type} a p (x : str)
    (k k' : option char -> str -> option R) :
  (forall p' x', k p' x' = k' p' x') ->
  star_greedy fl a p x k = star_greedy fl a p x k'.
Proof.
  intros Hk. revert p. induction x as [|c x IH]; intros p; simpl; rewrite Hk.
  - reflexivity.
  - destruct (atom_match fl a c); [|reflexivity]. now rewrite IH.
Qed.

(** Without [re.IGNORECASE] a literal matches itself only. *)
Lemma lit_prefix_exact fl (l x x' : str) :
  IGNORECASE fl = false ->
  lit_prefix fl l x = Some x' <-> x = l ++ x'.
Proof.
  intros Hfl. revert x. induction l as [|pc l IH]; intros x; simpl.
  - split; [now intros [= ->]|now intros ->].
  - destruct x as [|c x]; [split; discriminate|].
    unfold chr_match. rewrite Hfl.
    destruct (N.eqb_spec c pc) as [->|Hne].
    + rewrite IH. split; [now intros ->|now intros [= ->]].
    + split; [discriminate|]. intros [= -> _]. now destruct Hne.
Qed.

Lemma lit_prefix_self fl (l x' : str) :
  IGNORECASE fl = false -> lit_prefix fl l (l ++ x') = Some x'.
Proof. intros Hfl. now apply lit_prefix_exact. Qed.

Lemma firstn_exact {A : Type} (u y : list A) : firstn (length u) (u ++ y) = u.
Proof. induction u as [|c u IH]; simpl; [reflexivity|now rewrite IH]. Qed.

Lemma firstn_length_app (u y : str) :
  firstn (length (u ++ y) - length y) (u ++ y) = u.
Proof.
  rewrite length_app, Nat.add_sub. apply firstn_exact.
Qed.

(** Two ways of cutting one text: the shorter head is a prefix of the
    longer one. *)
Lemma app_eq_shorter {A : Type} (u y h b : list A) :
  u ++ y = h ++ b -> (length h < length u)%nat ->
  exists u2, u = h ++ u2 /\ u2 <> [].
Proof.
  revert h. induction u as [|c u IH]; intros h Heq Hlt; simpl in *; [lia|].
  destruct h as [|c' h]; simpl in *.
  - exists (c :: u). split; [reflexivity|discriminate].
  - injection Heq as -> Heq.
    destruct (IH h Heq) as (u2 & -> & Hu2); [lia|].
    now exists u2.
Qed.

(** ** Cutting out the header block *)

Lemma frontmatter_match_at (x : str) :
  match_at fl_frontmatter re_frontmatter None x =
    match lit_prefix fl_frontmatter opening x with
    | Some x1 =>
        star_lazy fl_frontmatter Any (prev_after None (firstn 4 x)) x1
          (fun p' x' =>
             match lit_prefix fl_frontmatter closing x' with
             | Some x2 =>
                 Some (Match (Some (firstn (length x1 - length x') x1)) x2,
                       prev_after p' (firstn 5 x'))
             | None => None
             end)
    | None => None
    end.
Proof.
  unfold match_at, re_frontmatter. cbn [exec at_bol].
  rewrite exec_Lit. fold opening.
  destruct (lit_prefix fl_frontmatter opening x) as [x1|]; [|reflexivity].
  cbn [exec star]. apply star_lazy_ext. intros p' x'.
  now rewrite exec_Lit.
Qed.

(** The header block is the text up to the first closing line. *)
Lemma frontmatter_found (h body : str) :
  (forall u1 u2 z, h = u1 ++ u2 -> u2 <> [] ->
     u2 ++ closing ++ body <> closing ++ z) ->
  re_match fl_frontmatter re_frontmatter (opening ++ h ++ closing ++ body)
  = Some (Match (Some h) body).
Proof.
  intros Hfirst. unfold re_match. rewrite frontmatter_match_at.
  rewrite lit_prefix_self by reflexivity.
  match goal with |- fst <$> star_lazy ?f ?a ?p ?x ?k = _ =>
    assert (E : exists p', star_lazy f a p x k = Some (Match (Some h) body, p'))
  end.
  { eexists. apply star_lazy_first.
    - apply List.Forall_forall. reflexivity.
    - intros u1 u2 Hh Hu2.
      destruct (lit_prefix fl_frontmatter closing (u2 ++ closing ++ body))
        as [z|] eqn:E; [|reflexivity].
      apply lit_prefix_exact in E; [|reflexivity].
      now apply (Hfirst u1 u2 z) in E.
    - rewrite lit_prefix_self by reflexivity.
      now rewrite firstn_length_app. }
  destruct E as [p' ->]. reflexivity.
Qed.

Lemma frontmatter_Some (rest : str) m :
  re_match fl_frontmatter re_frontmatter (opening ++ rest) = Some m ->
  exists h, group1 m = Some h
    /\ rest = h ++ closing ++ after m
    /\ forall h' b', rest = h' ++ closing ++ b' -> (length h <= length h')%nat.
Proof.
  unfold re_match. rewrite frontmatter_match_at.
  rewrite lit_prefix_self by reflexivity.
  destruct (star_lazy _ _ _ _ _) as [[m' p']|] eqn:E; [|discriminate].
  intros [= <-].
  apply star_lazy_Some in E. destruct E as (u & y & -> & Hk & Hmin).
  destruct (lit_prefix fl_frontmatter closing y) as [x2|] eqn:Hy; [|discriminate].
  injection Hk as <- _.
  apply lit_prefix_exact in Hy; [|reflexivity]. subst y.
  rewrite firstn_length_app. exists u. cbn [group1 after].
  split; [reflexivity|]. split; [reflexivity|].
  intros h' b' Heq.
  destruct (Nat.le_gt_cases (length u) (length h')) as [Hle|Hgt]; [assumption|].
  exfalso.
  destruct (app_eq_shorter _ _ _ _ Heq Hgt) as (u2 & -> & Hu2).
  specialize (Hmin h' u2 eq_refl Hu2). cbv beta in Hmin.
  rewrite <- app_assoc in Heq. apply app_inv_head in Heq.
  rewrite Heq in Hmin.
  rewrite lit_prefix_self in Hmin by reflexivity. discriminate.
Qed.

Lemma frontmatter_None (rest : str) :
  re_match fl_frontmatter re_frontmatter (opening ++ rest) = None <->
  forall h b, rest <> h ++ closing ++ b.
Proof.
  unfold re_match. rewrite frontmatter_match_at.
  rewrite lit_prefix_self by reflexivity.
  split.
  - intros H h b ->.
    destruct (star_lazy _ _ _ _ _) as [[m' p']|] eqn:E; [discriminate|].
    rewrite star_lazy_None in E by reflexivity.
    specialize (E h (closing ++ b) eq_refl). cbv beta in E.
    rewrite lit_prefix_self in E by reflexivity. discriminate.
  - intros H.
    destruct (star_lazy _ _ _ _ _) as [[m' p']|] eqn:E; [|reflexivity].
    apply star_lazy_Some in E. destruct E as (u & y & -> & Hk & _).
    destruct (lit_prefix fl_frontmatter closing y) as [x2|] eqn:Hy; [|discriminate].
    apply lit_prefix_exact in Hy; [|reflexivity]. subst y.
    now destruct (H u x2).
Qed.

Lemma lines_nonempty (x : str) : lines x <> [].
Proof.
  destruct x as [|c x]; simpl; [discriminate|].
  destruct (c =? NL)%N; [discriminate|]. destruct (lines x); discriminate.
Qed.

Lemma lines_app_NL (h t : str) : lines (h ++ NL :: t) = lines h ++ lines t.
Proof.
  induction h as [|c h IH]; [reflexivity|].
  simpl. rewrite IH. destruct (c =? NL)%N; [reflexivity|].
  pose proof (lines_nonempty h) as Hne.
  destruct (lines h); [contradiction|reflexivity].
Qed.

(** A closing line seen by the pattern is a line of the text. *)
Lemma closing_is_line (h b : str) : In (s "---") (lines (h ++ closing ++ b)).
Proof.
  change (h ++ closing ++ b) with (h ++ NL :: (s "---" ++ NL :: b)).
  rewrite !lines_app_NL. apply in_or_app. right.
  apply in_or_app. left. now left.
Qed.

Lemma frontmatter_of_nonempty (x : str) : frontmatter_of x <> ∅.
Proof.
  intros H. pose proof (frontmatter_of_globs x) as Hg.
  rewrite H, lookup_empty in Hg. discriminate.
Qed.

Lemma startswith_opening (rest : str) :
  startswith (opening ++ rest) (s "---") = true.
Proof. reflexivity. Qed.

Lemma validate_file_opening v file_path (rest : str) :
  validate_file v file_path (Content (opening ++ rest)) =
    match re_match fl_frontmatter re_frontmatter (opening ++ rest) with
    | None => ((false, ∅),
               incr_invalid_files
                 (errors_append (ErrBadFrontmatter file_path) (incr_total_files v)))
    | Some m => validate_frontmatter (incr_total_files v) file_path m
    end.
Proof. unfold validate_file. now rewrite startswith_opening. Qed.

(** What the code does with a text that begins with the opening line: the
    malformed-header error is reported exactly when the rest of the text
    holds no closing line in the pattern's sense (a line feed, the three
    dashes, a line feed).  So it is reported whenever no later line is the
    three dashes; and whenever a marker line follows at least one header
    line and is itself ended by a line feed, the header block is cut out
    (the text before the first such marker) and validated. *)
Lemma malformed_iff_no_closing (v : RuleValidator) (file_path : path)
    (rest : str) :
  let r := validate_file v file_path (Content (opening ++ rest)) in
  (reports_malformed v file_path r <-> forall h b, rest <> h ++ closing ++ b)
  /\ (~ In (s "---") (lines rest) -> reports_malformed v file_path r)
  /\ (forall h b, rest = h ++ closing ++ b ->
      exists m h0,
        re_match fl_frontmatter re_frontmatter (opening ++ rest) = Some m
        /\ group m = h0
        /\ rest = h0 ++ closing ++ after m
        /\ (length h0 <= length h)%nat
        /\ r = validate_frontmatter (incr_total_files v) file_path m).
Proof.
  cbv zeta. rewrite validate_file_opening.
  assert (Hnone : (forall h b, rest <> h ++ closing ++ b) ->
                  re_match fl_frontmatter re_frontmatter (opening ++ rest) = None)
    by apply frontmatter_None.
  split; [|split].
  - split.
    + intros [Hfst _].
      destruct (re_match _ _ _) as [m|] eqn:E;
        [|exact (proj1 (frontmatter_None rest) E)].
      apply (f_equal snd) in Hfst. cbn [snd] in Hfst.
      rewrite validate_frontmatter_dict in Hfst.
      now apply frontmatter_of_nonempty in Hfst.
    + intros H. rewrite (Hnone H). split; reflexivity.
  - intros Hline. rewrite Hnone; [split; reflexivity|].
    intros h b ->. apply Hline, closing_is_line.
  - intros h b Hrest.
    destruct (re_match _ _ _) as [m|] eqn:E.
    + destruct (frontmatter_Some rest m E) as (h0 & Hg & Hh0 & Hmin).
      exists m, h0. split; [reflexivity|].
      split; [unfold group; now rewrite Hg|].
      split; [assumption|]. split; [now apply (Hmin h b)|reflexivity].
    + now destruct (proj1 (frontmatter_None rest) E h b).
Qed.

(** C3 fails on the code.  In each of the two texts a later line is the
    marker that ends the header block: in the first it comes right after
    the opening line, in the second it is the last line of a file that
    does not end with a line feed.  The call reports the malformed-header
    error for both, where the specification has the header block
    extracted; with a line feed after its last line the second text is a
    valid file with the empty-body warning. *)
Theorem closing_marker_line_rejected :
  let file_path := default_rules_dir ++ [s "a.mdc"] in
  let v := init default_rules_dir in
  let rest1 := s "---" ++ [NL] ++ s "Body text" in
  let rest2 := s "description: ok" ++ [NL] ++ s "alwaysApply: true" ++ [NL]
               ++ s "---" in
  (In (s "---") (lines rest1)
   /\ reports_malformed v file_path
        (validate_file v file_path (Content (opening ++ rest1))))
  /\ (In (s "---") (lines rest2)
      /\ reports_malformed v file_path
           (validate_file v file_path (Content (opening ++ rest2))))
  /\ (fst (fst (validate_file v file_path (Content (opening ++ rest2 ++ [NL]))))
      = true
      /\ warnings (snd (validate_file v file_path
                          (Content (opening ++ rest2 ++ [NL]))))
         = [WarnNoContent file_path]).
Proof.
  cbv zeta. unfold reports_malformed.
  split; [|split];
    (split; [vm_compute; tauto || reflexivity|try split; vm_compute; reflexivity]).
Qed.

(** ** The checks of the mandatory properties *)

(** Everything [validate_frontmatter] does, read off the parsed
    [description] and [alwaysApply]. *)
Lemma validate_frontmatter_result v file_path m :
  let d := parse_description (group m) in
  let a := parse_alwaysApply (group m) in
  let e1 := description_errors file_path d in
  let e2 := alwaysApply_errors file_path a in
  let ok := match e1 ++ e2 with [] => true | _ :: _ => false end in
  let r := validate_frontmatter v file_path m in
  fst r = (ok, frontmatter_of (group m))
  /\ errors (snd r) = errors v ++ e1 ++ e2
  /\ warnings (snd r)
     = warnings v ++ match strip (after m) with
                     | [] => [WarnNoContent file_path]
                     | _ :: _ => []
                     end
  /\ total_files (stats (snd r)) = total_files (stats v)
  /\ valid_files (stats (snd r))
     = valid_files (stats v) + (if ok then 1 else 0)
  /\ invalid_files (stats (snd r))
     = invalid_files (stats v) + (if ok then 0 else 1)
  /\ files_without_description (stats (snd r))
     = files_without_description (stats v) + (if is_none d then 1 else 0)
  /\ files_without_alwaysApply (stats (snd r))
     = files_without_alwaysApply (stats v) + (if is_none a then 1 else 0)
  /\ files_with_invalid_yaml (stats (snd r)) = files_with_invalid_yaml (stats v).
Proof.
  cbv zeta. rewrite validate_frontmatter_unfold, check_description_spec.
  cbv zeta. unfold check_alwaysApply, description_errors, alwaysApply_errors.
  destruct (parse_description_type (group m)) as [->|[d ->]];
    destruct (parse_alwaysApply_type (group m)) as [->|[b ->]];
    try destruct (strip d) as [|c d'];
    destruct (strip (after m)); simpl;
    rewrite ?app_nil_r, ?Z.add_0_r; repeat split; try reflexivity;
    rewrite <- ?app_assoc; reflexivity.
Qed.

Lemma validate_file_parsed v file_path (content : str) m :
  startswith content (s "---") = true ->
  re_match fl_frontmatter re_frontmatter content = Some m ->
  validate_file v file_path (Content content)
  = validate_frontmatter (incr_total_files v) file_path m.
Proof. intros Hs Hm. unfold validate_file. now rewrite Hs, Hm. Qed.

(** ** The [alwaysApply] pattern *)

Lemma lstrip_split (x : str) :
  exists ws, x = ws ++ lstrip x /\ all_space ws
    /\ match lstrip x with c :: _ => isspace c = false | [] => True end.
Proof.
  induction x as [|c x (ws & Hx & Hws & Hhd)]; simpl.
  - exists []. repeat split. constructor.
  - destruct (isspace c) eqn:Hc.
    + exists (c :: ws). split; [simpl; now f_equal|]. split; [now constructor|assumption].
    + exists []. repeat split; [constructor|assumption].
Qed.

Lemma lstrip_app_space (ws y : str) :
  all_space ws ->
  match y with c :: _ => isspace c = false | [] => True end ->
  lstrip (ws ++ y) = y.
Proof.
  induction 1 as [|c ws Hc _ IH]; intros Hy; simpl.
  - destruct y as [|c y]; [reflexivity|]. simpl. now rewrite Hy.
  - rewrite Hc. now apply IH.
Qed.

Lemma at_eol_line_end fl (post : str) :
  MULTILINE fl = true -> at_eol fl post = true <-> line_end post.
Proof.
  intros Hfl. unfold at_eol, line_end. rewrite Hfl.
  destruct post as [|c post]; [tauto|].
  rewrite andb_true_r. split.
  - intros ->%N.eqb_eq. right. now exists post.
  - intros [H|[t [= -> _]]]; [discriminate|reflexivity].
Qed.

Lemma at_bol_line_start fl (pre : str) :
  MULTILINE fl = true ->
  at_bol fl (prev_after None pre) = true <-> line_start pre.
Proof.
  intros Hfl. unfold line_start.
  destruct pre as [|c pre] using rev_ind; [simpl; tauto|].
  rewrite prev_after_snoc. simpl. rewrite Hfl. simpl. split.
  - intros ->%N.eqb_eq. right. now exists pre.
  - intros [H|[t Ht]]; [now destruct pre|].
    apply app_inj_tail in Ht. destruct Ht as [_ ->]. reflexivity.
Qed.

(** The letters of [true] and [false] have no caseless partner among the
    white space, and none outside ASCII but the long s. *)
Lemma caseless_eq_letter (pc c : char) :
  is_lower pc = true -> caseless_eq pc c = true ->
  c = pc \/ (c + 32 = pc)%N \/ caseless_extra pc c = true.
Proof.
  intros Hpc. unfold caseless_eq.
  assert (Hl : ascii_lower pc = pc).
  { unfold ascii_lower, is_upper. unfold is_lower in Hpc.
    destruct (N.leb_spec 65 pc), (N.leb_spec pc 90); simpl; try reflexivity.
    apply andb_prop in Hpc. destruct Hpc as [H1%N.leb_le _]. lia. }
  rewrite Hl, Hpc. intros [H|H]%orb_prop; [|auto].
  apply N.eqb_eq in H. unfold ascii_lower in H.
  destruct (is_upper c); auto.
Qed.

Ltac decide_comparisons :=
  repeat match goal with
  | |- context [(?a <=? ?b)%N] =>
      first [ rewrite (proj2 (N.leb_le a b)) by lia
            | rewrite (proj2 (N.leb_gt a b)) by lia ]
  | |- context [(?a =? ?b)%N] =>
      first [ rewrite (proj2 (N.eqb_neq a b)) by lia
            | rewrite (proj2 (N.eqb_eq a b)) by lia ]
  end.

Lemma isspace_letter (x : char) : (65 <= x <= 122)%N -> isspace x = false.
Proof. intros Hx. unfold isspace. decide_comparisons. reflexivity. Qed.

Lemma caseless_extra_cases (pc c : char) :
  caseless_extra pc c = true -> c = 304%N \/ c = 305%N \/ c = 8490%N \/ c = 383%N.
Proof.
  unfold caseless_extra. intros H.
  repeat match goal with
  | H : (_ || _) = true |- _ => apply orb_prop in H; destruct H as [H|H]
  | H : (_ && _) = true |- _ => apply andb_prop in H; destruct H as [_ H]
  end; apply N.eqb_eq in H; auto.
Qed.

Lemma caseless_not_space (pc c : char) :
  is_lower pc = true -> isspace c = true -> caseless_eq pc c = false.
Proof.
  intros Hpc Hc. destruct (caseless_eq pc c) eqn:E; [|reflexivity].
  exfalso. apply caseless_eq_letter in E; [|assumption].
  unfold is_lower in Hpc. apply andb_prop in Hpc.
  destruct Hpc as [H1%N.leb_le H2%N.leb_le].
  destruct E as [-> | [E | E]].
  - rewrite isspace_letter in Hc by lia. discriminate.
  - rewrite isspace_letter in Hc by lia. discriminate.
  - apply caseless_extra_cases in E.
    destruct E as [-> | [-> | [-> | ->]]]; discriminate.
Qed.

Lemma alwaysApply_value_exec p (y : str) :
  exec fl_alwaysApply
    (Seq (Group (Alt (Lit (s "true")) (Lit (s "false")))) Eol) None p y
    (fun g p' x' => Some (Match g x', p'))
  = boolean_then_eol fl_alwaysApply p y.
Proof.
  cbn [exec]. rewrite !exec_Lit.
  unfold boolean_then_eol, literal_then_eol.
  destruct (lit_prefix fl_alwaysApply (s "true") y) as [z|];
    [destruct (at_eol fl_alwaysApply z); [reflexivity|]|];
    (destruct (lit_prefix fl_alwaysApply (s "false") y) as [z'|];
      [destruct (at_eol fl_alwaysApply z')|]; reflexivity).
Qed.

Lemma boolean_then_eol_space p c (z : str) :
  isspace c = true -> boolean_then_eol fl_alwaysApply p (c :: z) = None.
Proof.
  intros Hc. unfold boolean_then_eol, literal_then_eol.
  cbn [lit_prefix s map list_ascii_of_string].
  unfold chr_match. cbn [IGNORECASE fl_alwaysApply].
  now rewrite !caseless_not_space.
Qed.

(** The pattern at one position: the key, the white space after it, and
    then the literal up to the end of the line. *)
Lemma alwaysApply_match_at p (x : str) :
  exists q,
    match_at fl_alwaysApply re_alwaysApply p x =
      if at_bol fl_alwaysApply p then
        match lit_prefix fl_alwaysApply (s "alwaysApply:") x with
        | Some x1 => boolean_then_eol fl_alwaysApply q (lstrip x1)
        | None => None
        end
      else None.
Proof.
  unfold match_at, re_alwaysApply. cbn [exec].
  destruct (at_bol fl_alwaysApply p); [|now exists None].
  rewrite exec_Lit.
  destruct (lit_prefix fl_alwaysApply (s "alwaysApply:") x) as [x1|];
    [|now exists None].
  cbn [exec star].
  destruct (lstrip_split x1) as (ws & Hx1 & Hws & Hhd).
  eexists. rewrite Hx1 at 1.
  erewrite star_greedy_ext; [|intros p' x'; apply alwaysApply_value_exec].
  rewrite star_greedy_no_backtrack; [reflexivity|exact Hws|exact Hhd|].
  intros p' c z Hc. now apply boolean_then_eol_space.
Qed.

Lemma chr_match_caseless (l u : str) :
  Forall2 (fun pc c => chr_match fl_alwaysApply pc c = true) l u <-> caseless l u.
Proof. reflexivity. Qed.

Lemma literal_then_eol_Some l p (y : str) m p' :
  literal_then_eol fl_alwaysApply l p y = Some (m, p') ->
  exists val, y = val ++ after m /\ caseless l val
    /\ line_end (after m) /\ group1 m = Some val.
Proof.
  unfold literal_then_eol.
  destruct (lit_prefix fl_alwaysApply l y) as [z|] eqn:E; [|discriminate].
  destruct (at_eol fl_alwaysApply z) eqn:Hz; [|discriminate].
  intros [= <- _]. cbn [after group1].
  apply lit_prefix_split in E. destruct E as (u & -> & _ & Hu).
  exists u. rewrite firstn_length_app.
  repeat split; [assumption|]. now apply (at_eol_line_end fl_alwaysApply).
Qed.

Lemma literal_then_eol_complete l p (val post : str) :
  caseless l val -> line_end post ->
  exists p', literal_then_eol fl_alwaysApply l p (val ++ post)
             = Some (Match (Some val) post, p').
Proof.
  intros Hval Hpost. unfold literal_then_eol.
  rewrite (lit_prefix_app fl_alwaysApply l val post Hval).
  apply (at_eol_line_end fl_alwaysApply) in Hpost; [|reflexivity].
  rewrite Hpost, firstn_length_app. now eexists.
Qed.

Lemma caseless_first_not_space (b : bool) (val post : str) :
  caseless (boolean_literal b) val ->
  match val ++ post with c :: _ => isspace c = false | [] => True end.
Proof.
  intros H. destruct b; inversion H as [|pc c l u Hc _]; subst; simpl;
    (destruct (isspace c) eqn:E; [|reflexivity]);
    rewrite caseless_not_space in Hc by (reflexivity || assumption);
    discriminate.
Qed.

Lemma caseless_false_not_true (val post : str) :
  caseless (s "false") val ->
  lit_prefix fl_alwaysApply (s "true") (val ++ post) = None.
Proof.
  intros H. inversion H as [|pc c l u Hc _]; subst.
  cbn [lit_prefix s map list_ascii_of_string app].
  unfold chr_match. cbn [IGNORECASE fl_alwaysApply].
  apply caseless_eq_letter in Hc; [|reflexivity].
  destruct Hc as [-> | [Hc | Hc]].
  - reflexivity.
  - assert (c = 70%N) as -> by (simpl in Hc; lia). reflexivity.
  - unfold caseless_extra in Hc. simpl in Hc. discriminate.
Qed.

Lemma alwaysApply_match_at_Some p (x : str) m p' :
  match_at fl_alwaysApply re_alwaysApply p x = Some (m, p') ->
  at_bol fl_alwaysApply p = true
  /\ exists key ws val b,
       x = key ++ ws ++ val ++ after m
       /\ caseless (s "alwaysApply:") key
       /\ all_space ws
       /\ caseless (boolean_literal b) val
       /\ line_end (after m)
       /\ group1 m = Some val.
Proof.
  destruct (alwaysApply_match_at p x) as [q ->].
  destruct (at_bol fl_alwaysApply p); [|discriminate].
  destruct (lit_prefix fl_alwaysApply (s "alwaysApply:") x) as [x1|] eqn:E;
    [|discriminate].
  apply lit_prefix_split in E. destruct E as (key & -> & _ & Hkey).
  destruct (lstrip_split x1) as (ws & Hx1 & Hws & _).
  intros H. split; [reflexivity|].
  unfold boolean_then_eol in H.
  destruct (literal_then_eol fl_alwaysApply (s "true") q (lstrip x1))
    as [[m1 p1]|] eqn:E1.
  - injection H as -> ->.
    apply literal_then_eol_Some in E1.
    destruct E1 as (val & Hy & Hval & Hpost & Hg).
    exists key, ws, val, true. rewrite <- Hy, <- Hx1.
    repeat split; assumption.
  - apply literal_then_eol_Some in H.
    destruct H as (val & Hy & Hval & Hpost & Hg).
    exists key, ws, val, false. rewrite <- Hy, <- Hx1.
    repeat split; assumption.
Qed.

Lemma alwaysApply_match_at_complete p (key ws val post : str) (b : bool) :
  at_bol fl_alwaysApply p = true ->
  caseless (s "alwaysApply:") key -> all_space ws ->
  caseless (boolean_literal b) val -> line_end post ->
  exists p', match_at fl_alwaysApply re_alwaysApply p (key ++ ws ++ val ++ post)
             = Some (Match (Some val) post, p').
Proof.
  intros Hp Hkey Hws Hval Hpost.
  destruct (alwaysApply_match_at p (key ++ ws ++ val ++ post)) as [q ->].
  rewrite Hp, (lit_prefix_app fl_alwaysApply _ key _ Hkey).
  rewrite lstrip_app_space;
    [|assumption|now apply (caseless_first_not_space b)].
  unfold boolean_then_eol. destruct b; unfold boolean_literal in Hval.
  - destruct (literal_then_eol_complete _ q val post Hval Hpost) as [p' ->].
    now exists p'.
  - unfold literal_then_eol at 1.
    rewrite caseless_false_not_true by assumption.
    apply literal_then_eol_complete; assumption.
Qed.

Lemma caseless_length (l u : str) : caseless l u -> length u = length l.
Proof. induction 1; simpl; congruence. Qed.

Lemma caseless_plain_letter (pc c : char) :
  is_lower pc = true -> caseless_extra pc c = false ->
  caseless_eq pc c = true -> ascii_lower c = pc.
Proof.
  intros Hpc Hex H. unfold caseless_eq in H.
  assert (Hl : ascii_lower pc = pc).
  { unfold ascii_lower, is_upper. unfold is_lower in Hpc.
    apply andb_prop in Hpc. destruct Hpc as [H1%N.leb_le _].
    destruct (N.leb_spec 65 pc), (N.leb_spec pc 90); simpl; try reflexivity; lia. }
  rewrite Hl, Hpc, Hex, orb_false_r in H. now apply N.eqb_eq in H.
Qed.

Lemma lower_caseless_true (val : str) :
  caseless (s "true") val -> lower val = s "true".
Proof.
  intros H.
  repeat match goal with
  | H : caseless _ _ |- _ => inversion H; clear H; subst
  | H : Forall2 _ _ _ |- _ => inversion H; clear H; subst
  end.
  unfold lower. simpl map.
  repeat match goal with
  | H : caseless_eq _ _ = true |- _ =>
      apply caseless_plain_letter in H; [rewrite H; clear H|reflexivity|reflexivity]
  end.
  reflexivity.
Qed.

Lemma lower_caseless_false (val : str) :
  caseless (s "false") val -> str_eqb (lower val) (s "true") = false.
Proof.
  intros H. inversion H as [|pc c l u Hc _]; subst.
  apply caseless_plain_letter in Hc; [|reflexivity|reflexivity].
  unfold lower. simpl. now rewrite Hc.
Qed.

(** What the parsed [alwaysApply] says about the header, and back. *)
Lemma parse_alwaysApply_written (hdr : str) (b : bool) :
  parse_alwaysApply hdr = PBool b -> alwaysApply_written hdr b.
Proof.
  unfold parse_alwaysApply, re_search.
  destruct (search_from _ _ _ _) as [m|] eqn:E; [|discriminate].
  apply search_from_Some in E. destruct E as (u & y & p' & -> & Hm).
  apply alwaysApply_match_at_Some in Hm.
  destruct Hm as (Hbol & key & ws & val & b0 & -> & Hkey & Hws & Hval & Hpost & Hg).
  apply at_bol_line_start in Hbol; [|reflexivity].
  unfold group. rewrite Hg. intros [= <-].
  exists u, key, ws, val, (after m).
  assert (Hb : str_eqb (lower val) (s "true") = b0).
  { destruct b0; unfold boolean_literal in Hval.
    - rewrite (lower_caseless_true val Hval). reflexivity.
    - now apply lower_caseless_false. }
  rewrite Hb. repeat split; assumption.
Qed.

Lemma parse_alwaysApply_present (hdr : str) (b : bool) :
  alwaysApply_written hdr b -> parse_alwaysApply hdr <> PNone.
Proof.
  intros (pre & key & ws & val & post & -> & Hpre & Hkey & Hws & Hval & Hpost).
  unfold parse_alwaysApply, re_search.
  destruct (search_from _ _ _ _) as [m|] eqn:E; [discriminate|].
  rewrite search_from_None in E.
  specialize (E pre (key ++ ws ++ val ++ post) eq_refl).
  apply at_bol_line_start with (fl := fl_alwaysApply) in Hpre; [|reflexivity].
  destruct (alwaysApply_match_at_complete _ key ws val post b
              Hpre Hkey Hws Hval Hpost) as [p' Hm].
  congruence.
Qed.

(** C5, as the code has it.  In a file whose header block was cut out, the
    [alwaysApply] field is a boolean or absent; it is the boolean [b] only
    if the header holds, from the start of a line, the key (up to case), a
    run of white space that may hold line feeds, and the literal of [b]
    (up to case) up to the end of a line; it is absent only if the header
    holds no such text.  When it is absent the call returns invalid,
    appends the missing-alwaysApply error and adds exactly one to the
    missing-alwaysApply counter; otherwise that counter keeps its value. *)
Theorem alwaysApply_parsed_from_key (v : RuleValidator) (file_path : path)
    (content : str) (m : rmatch) :
  startswith content (s "---") = true ->
  re_match fl_frontmatter re_frontmatter content = Some m ->
  let hdr := group m in
  let r := validate_file v file_path (Content content) in
  (parse_alwaysApply hdr = PNone \/ exists b, parse_alwaysApply hdr = PBool b)
  /\ (forall b, parse_alwaysApply hdr = PBool b -> alwaysApply_written hdr b)
  /\ (parse_alwaysApply hdr = PNone -> forall b, ~ alwaysApply_written hdr b)
  /\ (parse_alwaysApply hdr = PNone ->
        fst (fst r) = false
        /\ errors (snd r)
           = errors v ++ description_errors file_path (parse_description hdr)
               ++ [ErrNoAlwaysApply file_path]
        /\ files_without_alwaysApply (stats (snd r))
           = files_without_alwaysApply (stats v) + 1)
  /\ (forall b, parse_alwaysApply hdr = PBool b ->
        errors (snd r)
        = errors v ++ description_errors file_path (parse_description hdr)
        /\ files_without_alwaysApply (stats (snd r))
           = files_without_alwaysApply (stats v)).
Proof.
  intros Hs Hm. cbv zeta. rewrite (validate_file_parsed _ _ _ _ Hs Hm).
  pose proof (validate_frontmatter_result (incr_total_files v) file_path m) as H.
  cbv zeta in H. destruct H as (Hfst & Herr & _ & _ & _ & _ & _ & Hcount & _).
  split; [apply parse_alwaysApply_type|].
  split; [apply parse_alwaysApply_written|].
  split; [intros Hnone b Hb; now apply parse_alwaysApply_present in Hb|].
  split.
  - intros Hnone. rewrite Hnone in *. unfold alwaysApply_errors in *.
    simpl in *. rewrite Hfst, Herr, Hcount.
    split; [|split; [reflexivity|lia]].
    simpl. now destruct (description_errors _ _).
  - intros b Hb. rewrite Hb in *. unfold alwaysApply_errors in *. simpl in *.
    rewrite Herr, Hcount, app_nil_r. split; [reflexivity|lia].
Qed.

Lemma alwaysApply_parsed_from_key_witness :
  let file_path := default_rules_dir ++ [s "a.mdc"] in
  let v := init default_rules_dir in
  let content := opening ++ s "description: a rule" ++ [NL]
                 ++ s "alwaysApply: yes" ++ closing ++ s "Body" in
  fst (fst (validate_file v file_path (Content content))) = false
  /\ errors (snd (validate_file v file_path (Content content)))
     = [ErrNoAlwaysApply file_path]
  /\ files_without_alwaysApply
       (stats (snd (validate_file v file_path (Content content)))) = 1.
Proof.
  cbv zeta.
  pose proof (alwaysApply_parsed_from_key (init default_rules_dir)
    (default_rules_dir ++ [s "a.mdc"])
    (opening ++ s "description: a rule" ++ [NL]
       ++ s "alwaysApply: yes" ++ closing ++ s "Body")
    (Match (Some (s "description: a rule" ++ [NL] ++ s "alwaysApply: yes"))
       (s "Body"))
    eq_refl ltac:(vm_compute; reflexivity)) as H.
  cbv zeta in H. destruct H as (_ & _ & _ & H & _).
  destruct (H ltac:(vm_compute; reflexivity)) as (H1 & H2 & H3).
  repeat split; assumption.
Defined.

(** C5 as stated fails: the key stands alone on its line, the literal on
    the next one, no line of the header is the key with a boolean value,
    and the field is parsed as [True] all the same. *)
Lemma alwaysApply_parsed_from_key_counterexample :
  let hdr := s "alwaysApply:" ++ [NL] ++ s "true" in
  parse_alwaysApply hdr = PBool true
  /\ forall l b, In l (lines hdr) -> ~ alwaysApply_line l b.
Proof.
  cbv zeta. split; [vm_compute; reflexivity|].
  intros l b Hl (key & ws & val & -> & Hkey%caseless_length & _ & Hval%caseless_length).
  assert (Hlines : lines (s "alwaysApply:" ++ [NL] ++ s "true")
                   = [s "alwaysApply:"; s "true"]) by (vm_compute; reflexivity).
  rewrite Hlines in Hl.
  destruct Hl as [Hl|[Hl|[]]]; apply (f_equal (@length _)) in Hl;
    rewrite !length_app, Hkey, Hval in Hl;
    destruct b; simpl in Hl; lia.
Qed.

(** ** Patterns that begin with [^] and a key *)

Section Keyed.
Context (fl : flags) (key : str) (r' : regex).
Hypothesis multiline : MULTILINE fl = true.
Hypothesis exact : IGNORECASE fl = false.
Hypothesis key_one_line : ~ In NL key.

Let r := Seq Bol (Seq (Lit key) r').

Lemma keyed_match_at p (x : str) :
  match_at fl r p x =
    if at_bol fl p then
      match lit_prefix fl key x with
      | Some x1 =>
          exec fl r' None (prev_after p (firstn (length key) x)) x1
            (fun g p' x' => Some (Match g x', p'))
      | None => None
      end
    else None.
Proof.
  unfold match_at, r. cbn [exec]. destruct (at_bol fl p); [|reflexivity].
  now rewrite exec_Lit.
Qed.

Lemma keyed_not_bol p (x : str) :
  at_bol fl p = false -> match_at fl r p x = None.
Proof. intros H. now rewrite keyed_match_at, H. Qed.

Lemma lit_prefix_startswith (l x x' : str) :
  lit_prefix fl l x = Some x' -> startswith x l = true.
Proof.
  intros ->%lit_prefix_exact; [|exact exact].
  induction l as [|c l IH]; simpl; [now destruct x'|].
  now rewrite N.eqb_refl.
Qed.

Lemma startswith_line (k l y : str) :
  ~ In NL k -> startswith (l ++ NL :: y) k = true -> startswith l k = true.
Proof.
  revert l. induction k as [|pc k IH]; intros l Hk; [now destruct l|].
  destruct l as [|c l]; simpl.
  - intros [H _]%andb_prop. apply N.eqb_eq in H. subst pc.
    destruct Hk. now left.
  - intros [H1 H2]%andb_prop. rewrite H1. simpl.
    apply IH in H2; [assumption|]. intros Hin. apply Hk. now right.
Qed.

Lemma keyed_other_line p (l y : str) :
  startswith l key = false -> match_at fl r p (l ++ NL :: y) = None.
Proof.
  intros Hl. rewrite keyed_match_at. destruct (at_bol fl p); [|reflexivity].
  destruct (lit_prefix fl key (l ++ NL :: y)) as [x1|] eqn:E; [|reflexivity].
  apply lit_prefix_startswith, startswith_line in E; [congruence|assumption].
Qed.

Lemma keyed_other_last_line p (l : str) :
  startswith l key = false -> match_at fl r p l = None.
Proof.
  intros Hl. rewrite keyed_match_at. destruct (at_bol fl p); [|reflexivity].
  destruct (lit_prefix fl key l) as [x1|] eqn:E; [|reflexivity].
  apply lit_prefix_startswith in E. congruence.
Qed.

(** The search moves over a line that does not begin with the key. *)
Lemma search_skip_line p (l y : str) :
  ~ In NL l -> match_at fl r p (l ++ NL :: y) = None ->
  search_from fl r p (l ++ NL :: y) = search_from fl r (Some NL) y.
Proof.
  revert p. induction l as [|c l IH]; intros p Hl Hm; simpl in *; rewrite Hm.
  - reflexivity.
  - apply IH; [tauto|]. apply keyed_not_bol. simpl.
    destruct (N.eqb_spec c NL) as [->|_]; [tauto|].
    now rewrite andb_false_r.
Qed.

Lemma search_last_line p (l : str) :
  ~ In NL l -> match_at fl r p l = None -> search_from fl r p l = None.
Proof.
  revert p. induction l as [|c l IH]; intros p Hl Hm; simpl in *; rewrite Hm.
  - reflexivity.
  - apply IH; [tauto|]. apply keyed_not_bol. simpl.
    destruct (N.eqb_spec c NL) as [->|_]; [tauto|].
    now rewrite andb_false_r.
Qed.

Lemma search_skip_lines (ls : list str) p (y : str) :
  Forall (other_line key) ls -> at_bol fl p = true ->
  exists p', at_bol fl p' = true
    /\ search_from fl r p (join_lines ls ++ y) = search_from fl r p' y.
Proof.
  intros Hls. revert p. induction Hls as [|l ls [Hnl Hkey] _ IH]; intros p Hp.
  - now exists p.
  - unfold join_lines. cbn [map concat]. rewrite <- !app_assoc.
    change ([NL] ++ ?z) with (NL :: z).
    rewrite search_skip_line; [|assumption|now apply keyed_other_line].
    apply IH. simpl. now rewrite multiline.
Qed.

(** No line begins with the key: the search finds nothing. *)
Lemma search_absent (ls : list str) (l : str) p :
  Forall (other_line key) ls -> other_line key l -> at_bol fl p = true ->
  search_from fl r p (join_lines ls ++ l) = None.
Proof.
  intros Hls [Hnl Hkey] Hp.
  destruct (search_skip_lines ls p l Hls Hp) as (p' & _ & ->).
  apply search_last_line; [assumption|now apply keyed_other_last_line].
Qed.

End Keyed.

(** ** The [globs] patterns *)

Lemma globs_key_one_line : ~ In NL globs_key.
Proof. vm_compute. intuition discriminate. Qed.

Lemma all_space_atom fl (ws : str) :
  all_space ws -> Forall (fun c => atom_match fl Space c = true) ws.
Proof. exact (fun H => H). Qed.

Lemma not_space_atom fl (y : str) :
  match y with c :: _ => isspace c = false | [] => True end ->
  match y with c :: _ => atom_match fl Space c = false | [] => True end.
Proof. exact (fun H => H). Qed.

(** After the key and the white space the bracketed pattern wants the
    opening bracket, and then stops at the first closing one. *)
Lemma globs_tail_found p (ws body post : str) :
  all_space ws -> ~ In 93%N body ->
  exists p',
    exec fl_globs globs_tail None p (ws ++ [91%N] ++ body ++ [93%N] ++ post)
      (fun g p' x' => Some (Match g x', p'))
    = Some (Match (Some body) post, p').
Proof.
  intros Hws Hbody. unfold globs_tail. cbn [exec star].
  eexists. apply star_greedy_longest;
    [now apply all_space_atom|reflexivity|].
  cbn [app exec atom_match chr_match fl_globs IGNORECASE].
  rewrite N.eqb_refl. cbn [exec star].
  apply star_lazy_first.
  - apply List.Forall_forall. reflexivity.
  - intros u1 [|c u2] Hu Hu2; [contradiction|]. cbn [app].
    cbn [exec atom_match chr_match fl_globs IGNORECASE].
    destruct (N.eqb_spec c 93) as [->|Hne]; [|reflexivity].
    destruct Hbody. rewrite Hu. apply in_or_app. right. now left.
  - cbn [app exec atom_match chr_match fl_globs IGNORECASE].
    rewrite N.eqb_refl.
    change (body ++ 93%N :: post) with (body ++ [93%N] ++ post).
    now rewrite firstn_length_app.
Qed.

Lemma globs_match_at_found p (ws body post : str) :
  at_bol fl_globs p = true -> all_space ws -> ~ In 93%N body ->
  exists p',
    match_at fl_globs re_globs p
      (globs_key ++ ws ++ [91%N] ++ body ++ [93%N] ++ post)
    = Some (Match (Some body) post, p').
Proof.
  intros Hp Hws Hbody.
  change re_globs with (Seq Bol (Seq (Lit globs_key) globs_tail)).
  rewrite keyed_match_at, Hp, lit_prefix_self by reflexivity.
  now apply globs_tail_found.
Qed.

(** Either pattern matches only where a bracket follows the key and the
    white space. *)
Lemma globs_tail_bracket p (x : str) res :
  exec fl_globs globs_tail None p x (fun g p' x' => Some (Match g x', p'))
  = Some res ->
  exists ws post, x = ws ++ 91%N :: post /\ all_space ws.
Proof.
  unfold globs_tail. cbn [exec star].
  destruct (lstrip_split x) as (ws & Hx & Hws & Hhd).
  rewrite Hx at 1.
  rewrite star_greedy_no_backtrack;
    [|now apply all_space_atom|now apply not_space_atom|].
  - destruct (lstrip x) as [|c y] eqn:E; [discriminate|].
    cbn [exec atom_match chr_match fl_globs IGNORECASE].
    destruct (N.eqb_spec c 91) as [->|_]; [|discriminate].
    intros _. exists ws, y. now split.
  - intros p' c z Hc. cbn [exec atom_match chr_match fl_globs IGNORECASE].
    destruct (N.eqb_spec c 91) as [->|_]; [discriminate|reflexivity].
Qed.

Lemma closing_bracket_after_space p (x : str) res :
  star_greedy fl_globs_simple Space p x
    (fun _ x' =>
       match x' with
       | [] => None
       | c :: x'' =>
           if (c =? 93)%N then Some (Match None x'', Some c) else None
       end) = Some res ->
  exists ws post, x = ws ++ 93%N :: post /\ all_space ws.
Proof.
  destruct (lstrip_split x) as (ws & Hx & Hws & Hhd).
  rewrite Hx at 1.
  rewrite star_greedy_no_backtrack;
    [|now apply all_space_atom|now apply not_space_atom|].
  - destruct (lstrip x) as [|c y] eqn:E; [discriminate|].
    destruct (N.eqb_spec c 93) as [->|_]; [|discriminate].
    intros _. exists ws, y. now split.
  - intros p' c z Hc.
    destruct (N.eqb_spec c 93) as [->|_]; [discriminate|reflexivity].
Qed.

Lemma globs_simple_tail_run (ws y : str) :
  all_space ws ->
  match y with c :: _ => isspace c = false | [] => True end ->
  forall p res,
    exec fl_globs_simple globs_simple_tail None p (ws ++ y)
      (fun g p' x' => Some (Match g x', p')) = Some res ->
    exists ws' c post, ws ++ y = ws' ++ c :: post /\ all_space ws'
                       /\ (c = 91%N \/ c = 93%N).
Proof.
  intros Hws Hhd. unfold globs_simple_tail. cbn [exec star].
  induction Hws as [|w ws Hw Hws IH]; intros p res.
  - cbn [app star_greedy].
    destruct y as [|c y].
    + cbn [exec star star_greedy atom_match]. discriminate.
    + cbn [star_greedy atom_match]. rewrite Hhd.
      cbn [exec atom_match chr_match fl_globs_simple IGNORECASE].
      destruct (N.eqb_spec c 91) as [->|Hne].
      * intros _. exists [], 91%N, y. repeat split; [constructor|now left].
      * destruct (N.eqb_spec c 93) as [->|_]; [|discriminate].
        intros _. exists [], 93%N, y. repeat split; [constructor|now right].
  - cbn [app star_greedy atom_match]. rewrite Hw.
    match goal with |- context [star_greedy ?f ?a ?q ?z ?k] =>
      destruct (star_greedy f a q z k) as [res'|] eqn:E1
    end.
    + intros _. destruct (IH _ _ E1) as (ws' & c & post & Hx' & Hws' & Hc).
      exists (w :: ws'), c, post. cbn [app]. rewrite Hx'.
      repeat split; [now constructor|assumption].
    + cbn [exec atom_match chr_match fl_globs_simple IGNORECASE].
      assert (Hw91 : (w =? 91)%N = false).
      { destruct (N.eqb_spec w 91) as [->|_]; [discriminate|reflexivity]. }
      rewrite Hw91.
      match goal with |- context [star_greedy ?f ?a ?q ?z ?k] =>
        destruct (star_greedy f a q z k) as [res'|] eqn:E2
      end.
      * intros _. apply closing_bracket_after_space in E2.
        destruct E2 as (ws' & post & Hx' & Hws').
        exists (w :: ws'), 93%N, post. cbn [app]. rewrite Hx'.
        repeat split; [now constructor|now right].
      * destruct (N.eqb_spec w 93) as [->|_]; discriminate.
Qed.

Lemma globs_simple_tail_bracket p (x : str) res :
  exec fl_globs_simple globs_simple_tail None p x
    (fun g p' x' => Some (Match g x', p')) = Some res ->
  exists ws c post, x = ws ++ c :: post /\ all_space ws
                    /\ (c = 91%N \/ c = 93%N).
Proof.
  destruct (lstrip_split x) as (ws & Hx & Hws & Hhd).
  rewrite Hx at 1. intros H.
  destruct (globs_simple_tail_run ws (lstrip x) Hws Hhd p res H)
    as (ws' & c & post & Hx' & Hws' & Hc).
  exists ws', c, post. rewrite Hx. auto.
Qed.

Lemma search_from_here fl r p (x : str) m q :
  match_at fl r p x = Some (m, q) -> search_from fl r p x = Some m.
Proof. intros H. destruct x; simpl; now rewrite H. Qed.

Lemma re_globs_keyed : re_globs = Seq Bol (Seq (Lit globs_key) globs_tail).
Proof. reflexivity. Qed.

Lemma re_globs_simple_keyed :
  re_globs_simple = Seq Bol (Seq (Lit globs_key) globs_simple_tail).
Proof. reflexivity. Qed.

(** A bracketed list after the first [globs:] key is read up to the first
    closing bracket, across line feeds too. *)
Lemma parse_globs_bracketed (ls : list str) (ws body post : str) :
  Forall (other_line globs_key) ls -> all_space ws -> ~ In 93%N body ->
  parse_globs (join_lines ls ++ globs_key ++ ws ++ [91%N] ++ body ++ [93%N] ++ post)
  = PList (map PStr (re_findall no_flags re_glob_item (strip body))).
Proof.
  intros Hls Hws Hbody. unfold parse_globs, re_search.
  rewrite re_globs_keyed.
  destruct (search_skip_lines fl_globs globs_key globs_tail eq_refl eq_refl
              globs_key_one_line ls None
              (globs_key ++ ws ++ [91%N] ++ body ++ [93%N] ++ post) Hls eq_refl)
    as (p' & Hp' & ->).
  destruct (globs_match_at_found p' ws body post Hp' Hws Hbody) as [q Hm].
  rewrite re_globs_keyed in Hm.
  rewrite (search_from_here _ _ _ _ _ _ Hm).
  unfold group. cbn [group1].
  destruct (strip body); reflexivity.
Qed.

(** Without a bracket after a [globs:] key neither pattern matches. *)
Lemma parse_globs_no_bracket (hdr : str) :
  ~ globs_key_bracket hdr -> parse_globs hdr = PNone.
Proof.
  intros Hno. unfold parse_globs, re_search.
  assert (H1 : search_from fl_globs re_globs None hdr = None).
  { apply search_from_None. intros u y ->.
    destruct (match_at fl_globs re_globs (prev_after None u) y)
      as [res|] eqn:E; [|reflexivity].
    exfalso. apply Hno. rewrite re_globs_keyed, keyed_match_at in E.
    destruct (at_bol fl_globs (prev_after None u)) eqn:Hbol; [|discriminate].
    apply at_bol_line_start in Hbol; [|reflexivity].
    destruct (lit_prefix fl_globs globs_key y) as [x1|] eqn:Hk; [|discriminate].
    apply lit_prefix_exact in Hk; [|reflexivity]. subst y.
    apply globs_tail_bracket in E. destruct E as (ws & post & -> & Hws).
    exists u, ws, 91%N, post. repeat split; auto. }
  assert (H2 : search_from fl_globs_simple re_globs_simple None hdr = None).
  { apply search_from_None. intros u y ->.
    destruct (match_at fl_globs_simple re_globs_simple (prev_after None u) y)
      as [res|] eqn:E; [|reflexivity].
    exfalso. apply Hno. rewrite re_globs_simple_keyed, keyed_match_at in E.
    destruct (at_bol fl_globs_simple (prev_after None u)) eqn:Hbol; [|discriminate].
    apply at_bol_line_start in Hbol; [|reflexivity].
    destruct (lit_prefix fl_globs_simple globs_key y) as [x1|] eqn:Hk; [|discriminate].
    apply lit_prefix_exact in Hk; [|reflexivity]. subst y.
    apply globs_simple_tail_bracket in E.
    destruct E as (ws & c & post & -> & Hws & Hc).
    exists u, ws, c, post. repeat split; auto. }
  now rewrite H1, H2.
Qed.

(** No line begins with [globs:]: the field is absent. *)
Lemma parse_globs_no_key (ls : list str) (l : str) :
  Forall (other_line globs_key) ls -> other_line globs_key l ->
  parse_globs (join_lines ls ++ l) = PNone.
Proof.
  intros Hls Hl. unfold parse_globs, re_search.
  rewrite re_globs_keyed, re_globs_simple_keyed.
  rewrite (search_absent fl_globs globs_key globs_tail eq_refl eq_refl
             globs_key_one_line ls l None Hls Hl eq_refl).
  now rewrite (search_absent fl_globs_simple globs_key globs_simple_tail
                 eq_refl eq_refl globs_key_one_line ls l None Hls Hl eq_refl).
Qed.

Lemma key_bracketb_suffix (pre y : str) (bol : bool) :
  key_bracketb (match rev pre with c :: _ => (c =? NL)%N | [] => bol end) y = true ->
  key_bracketb bol (pre ++ y) = true.
Proof.
  revert bol. induction pre as [|c pre IH]; intros bol; [exact (fun H => H)|].
  intros H. cbn [app key_bracketb]. apply orb_true_iff. right.
  apply IH. simpl rev in H.
  destruct (rev pre) as [|c' r]; [exact H|exact H].
Qed.

Lemma key_bracketb_here (x x1 : str) c (post : str) :
  lit_prefix no_flags globs_key x = Some x1 -> lstrip x1 = c :: post ->
  c = 91%N \/ c = 93%N -> key_bracketb true x = true.
Proof.
  intros H1 H2 Hc.
  destruct x; cbn [key_bracketb]; rewrite H1, H2;
    destruct Hc as [-> | ->]; reflexivity.
Qed.

Lemma key_bracketb_complete (hdr : str) :
  globs_key_bracket hdr -> key_bracketb true hdr = true.
Proof.
  intros (pre & ws & c & post & -> & Hpre & Hws & Hc).
  apply key_bracketb_suffix.
  assert (Hbol : match rev pre with c0 :: _ => (c0 =? NL)%N | [] => true end = true).
  { destruct Hpre as [->|[t ->]]; [reflexivity|].
    rewrite rev_app_distr. reflexivity. }
  rewrite Hbol.
  assert (Hhere : lit_prefix no_flags globs_key (globs_key ++ ws ++ c :: post)
                  = Some (ws ++ c :: post)) by now apply lit_prefix_self.
  assert (Hstrip : lstrip (ws ++ c :: post) = c :: post).
  { apply lstrip_app_space; [assumption|]. now destruct Hc as [-> | ->]. }
  exact (key_bracketb_here _ _ _ _ Hhere Hstrip Hc).
Qed.

Lemma key_bracketb_sound (x : str) :
  forall (pre : str) (bol : bool),
    (bol = true -> line_start pre) ->
    key_bracketb bol x = true -> globs_key_bracket (pre ++ x).
Proof.
  assert (Here : forall (pre y : str),
            line_start pre ->
            match lit_prefix no_flags globs_key y with
            | Some x1 =>
                match lstrip x1 with
                | c :: _ => (c =? 91)%N || (c =? 93)%N
                | [] => false
                end
            | None => false
            end = true ->
            globs_key_bracket (pre ++ y)).
  { intros pre y Hpre H.
    destruct (lit_prefix no_flags globs_key y) as [x1|] eqn:E; [|discriminate].
    apply lit_prefix_exact in E; [|reflexivity]. subst y.
    destruct (lstrip_split x1) as (ws & Hx1 & Hws & _).
    destruct (lstrip x1) as [|c post]; [discriminate|].
    exists pre, ws, c, post. rewrite Hx1 at 1.
    repeat split; try assumption.
    apply orb_prop in H. destruct H as [H|H]; apply N.eqb_eq in H; auto. }
  induction x as [|c x IH]; intros pre bol Hbol H.
  - cbn [key_bracketb] in H. rewrite orb_false_r in H.
    apply andb_prop in H. destruct H as [Hb H]. now apply Here; [apply Hbol|].
  - cbn [key_bracketb] in H. apply orb_prop in H. destruct H as [H|H].
    + apply andb_prop in H. destruct H as [Hb H]. now apply Here; [apply Hbol|].
    + change (pre ++ c :: x) with (pre ++ [c] ++ x). rewrite app_assoc.
      apply (IH (pre ++ [c]) (c =? NL)%N); [|assumption].
      intros Hc%N.eqb_eq. subst c. right. now exists pre.
Qed.

(** The scan decides [globs_key_bracket]. *)
Lemma key_bracketb_spec (hdr : str) :
  key_bracketb true hdr = true <-> globs_key_bracket hdr.
Proof.
  split; [|apply key_bracketb_complete].
  apply (key_bracketb_sound hdr [] true). intros _. now left.
Qed.

(** C7.  A header whose [globs:] key is written with the empty bracket
    list gives a list of length zero, which is neither [None] nor anything
    but a list; a header in which no line begins with the key gives
    [None]; in every header that holds the empty bracket list at the start
    of a line the field is a list. *)
Theorem empty_globs_list_is_present :
  (forall (ls : list str) (post : str),
     Forall (other_line globs_key) ls ->
     parse_globs (join_lines ls ++ s "globs: []" ++ post) = PList []
     /\ frontmatter_of (join_lines ls ++ s "globs: []" ++ post) !! "globs"%string
        = Some (PList []))
  /\ (forall (ls : list str) (l : str),
        Forall (other_line globs_key) ls -> other_line globs_key l ->
        parse_globs (join_lines ls ++ l) = PNone
        /\ frontmatter_of (join_lines ls ++ l) !! "globs"%string = Some PNone)
  /\ (forall (pre post : str),
        line_start pre ->
        exists l, parse_globs (pre ++ s "globs: []" ++ post) = PList (map PStr l))
  /\ PList [] <> PNone
  /\ is_none (PList []) = false
  /\ is_list (PList []) = true.
Proof.
  assert (H1 : forall (ls : list str) (post : str),
             Forall (other_line globs_key) ls ->
             parse_globs (join_lines ls ++ s "globs: []" ++ post) = PList []).
  { intros ls post Hls.
    exact (parse_globs_bracketed ls [32%N] [] post Hls
             ltac:(repeat constructor) ltac:(intros [])). }
  split; [|split; [|split; [|repeat split; discriminate]]].
  - intros ls post Hls. split; [now apply H1|].
    now rewrite frontmatter_of_globs, H1.
  - intros ls l Hls Hl. split; [now apply parse_globs_no_key|].
    now rewrite frontmatter_of_globs, parse_globs_no_key.
  - intros pre post Hpre.
    destruct (parse_globs_type (pre ++ s "globs: []" ++ post)) as [Hn|Hl];
      [|exact Hl].
    exfalso. revert Hn. unfold parse_globs, re_search.
    destruct (search_from fl_globs re_globs None _) as [m|] eqn:E.
    + now destruct (strip (group m)).
    + rewrite search_from_None in E.
      specialize (E pre (s "globs: []" ++ post) eq_refl).
      apply at_bol_line_start with (fl := fl_globs) in Hpre; [|reflexivity].
      destruct (globs_match_at_found _ [32%N] [] post Hpre
                  ltac:(repeat constructor) ltac:(intros [])) as [q Hm].
      change (globs_key ++ [32%N] ++ [91%N] ++ [] ++ [93%N] ++ post)
        with (s "globs: []" ++ post) in Hm.
      congruence.
Qed.

Lemma empty_globs_list_is_present_witness :
  parse_globs (s "description: d" ++ [NL] ++ s "alwaysApply: true" ++ [NL]
               ++ s "globs: []") = PList []
  /\ parse_globs (s "description: d" ++ [NL] ++ s "alwaysApply: true") = PNone.
Proof.
  split.
  - exact (proj1 (proj1 empty_globs_list_is_present
             [s "description: d"; s "alwaysApply: true"] []
             ltac:(repeat constructor; vm_compute; intuition discriminate))).
  - exact (proj1 (proj1 (proj2 empty_globs_list_is_present)
             [s "description: d"] (s "alwaysApply: true")
             ltac:(repeat constructor; vm_compute; intuition discriminate)
             ltac:(split; vm_compute; intuition discriminate))).
Defined.

(** ** Stripping and unquoting *)

Lemma lstrip_id (c : char) (x : str) :
  isspace c = false -> lstrip (c :: x) = c :: x.
Proof. intros H. simpl. now rewrite H. Qed.

Lemma rstrip_id (x : str) (c : char) :
  isspace c = false -> rstrip (x ++ [c]) = x ++ [c].
Proof.
  intros H. unfold rstrip. rewrite rev_app_distr. simpl. rewrite H.
  simpl. now rewrite rev_involutive.
Qed.

Lemma strip_quoted (q : quote) (x : str) : strip (quoted q x) = quoted q x.
Proof.
  unfold strip, quoted. rewrite lstrip_id by (destruct q; reflexivity).
  change (quote_char q :: x ++ [quote_char q])
    with ((quote_char q :: x) ++ [quote_char q]).
  apply rstrip_id. destruct q; reflexivity.
Qed.

Lemma removelast_snoc {A : Type} (x : list A) (c : A) : removelast (x ++ [c]) = x.
Proof.
  induction x as [|a x IH]; [reflexivity|].
  simpl. rewrite IH. now destruct x.
Qed.

Lemma endswith_snoc (x : str) (c : char) : endswith (x ++ [c]) [c] = true.
Proof.
  unfold endswith. rewrite rev_app_distr. simpl. rewrite N.eqb_refl.
  now destruct (rev x).
Qed.

Lemma startswith_nil (x : str) : startswith x [] = true.
Proof. now destruct x. Qed.

Lemma startswith_head (c : char) (x : str) : startswith (c :: x) [c] = true.
Proof. simpl. now rewrite N.eqb_refl, startswith_nil. Qed.

Lemma startswith_other (c c' : char) (x : str) :
  c <> c' -> startswith (c :: x) [c'] = false.
Proof.
  intros H. simpl. destruct (N.eqb_spec c' c) as [->|_]; [now destruct H|].
  reflexivity.
Qed.

Lemma unquote_quoted (q : quote) (x : str) : unquote (quoted q x) = x.
Proof.
  unfold unquote, quoted.
  assert (He : endswith (quote_char q :: x ++ [quote_char q]) [quote_char q] = true)
    by apply (endswith_snoc (quote_char q :: x)).
  assert (Hr : slice_1_m1 (quote_char q :: x ++ [quote_char q]) = x)
    by apply removelast_snoc.
  destruct q; cbn [quote_char] in *.
  - now rewrite startswith_head, He, Hr.
  - rewrite (startswith_other SQ DQ) by discriminate.
    now rewrite startswith_head, He, Hr.
Qed.

(** The parsed description of a well-formed description line. *)
Lemma unquote_scalar (q : option quote) (d : str) :
  description_ok q d = true -> unquote (strip (scalar q d)) = d.
Proof.
  intros Hok. destruct q as [q|]; cbn [scalar].
  - now rewrite strip_quoted, unquote_quoted.
  - unfold description_ok in Hok.
    apply andb_prop in Hok. destruct Hok as [_ Hok].
    apply andb_prop in Hok. destruct Hok as [Hok Hsq].
    apply andb_prop in Hok. destruct Hok as [Hs Hdq].
    apply str_eqb_eq in Hs. rewrite Hs. unfold unquote.
    apply negb_true_iff in Hdq. apply negb_true_iff in Hsq.
    now rewrite Hdq, Hsq.
Qed.

Lemma rstrip_prefix (y : str) : exists t, y = rstrip y ++ t.
Proof.
  destruct (lstrip_split (rev y)) as (ws & Hy & _).
  exists (rev ws). unfold rstrip.
  rewrite <- rev_app_distr, <- Hy. now rewrite rev_involutive.
Qed.

Lemma strip_head (x : str) (c : char) (y : str) :
  strip x = c :: y -> isspace c = false.
Proof.
  unfold strip. intros H.
  destruct (rstrip_prefix (lstrip x)) as [t Ht]. rewrite H in Ht.
  destruct (lstrip_split x) as (_ & _ & _ & Hhd).
  rewrite Ht in Hhd. exact Hhd.
Qed.

(** ** The description pattern *)

Lemma any_one_line (x : str) :
  ~ In NL x -> Forall (fun c => atom_match fl_description Any c = true) x.
Proof.
  intros H. apply List.Forall_forall. intros c Hc. cbn.
  destruct (N.eqb_spec c NL) as [->|_]; [contradiction|reflexivity].
Qed.

Lemma line_end_any (rest : str) :
  line_end rest ->
  match rest with
  | c :: _ => atom_match fl_description Any c = false
  | [] => True
  end.
Proof. intros [->|[t ->]]; [exact I|reflexivity]. Qed.

Lemma description_tail_found p (ws : str) c (line rest : str) :
  all_space ws -> isspace c = false -> ~ In NL (c :: line) -> line_end rest ->
  exists q,
    exec fl_description description_tail None p (ws ++ (c :: line) ++ rest)
      (fun g p' x' => Some (Match g x', p'))
    = Some (Match (Some (c :: line)) rest, q).
Proof.
  intros Hws Hc Hline Hrest. unfold description_tail. cbn [exec star].
  eexists. apply star_greedy_longest; [now apply all_space_atom|exact Hc|].
  cbn [app].
  assert (Hc' : atom_match fl_description Any c = true).
  { cbn. destruct (N.eqb_spec c NL) as [->|_]; [|reflexivity].
    destruct Hline. now left. }
  rewrite Hc'.
  apply star_greedy_longest.
  - apply any_one_line. intros H. apply Hline. now right.
  - now apply line_end_any.
  - change (c :: line ++ rest) with ((c :: line) ++ rest).
    rewrite firstn_length_app.
    apply (at_eol_line_end fl_description) in Hrest; [|reflexivity].
    now rewrite Hrest.
Qed.

Lemma re_description_keyed :
  re_description = Seq Bol (Seq (Lit description_key) description_tail).
Proof. reflexivity. Qed.

Lemma re_alwaysApply_keyed :
  re_alwaysApply = Seq Bol (Seq (Lit alwaysApply_key) alwaysApply_tail).
Proof. reflexivity. Qed.

(** No line begins with [description:]: the field is absent. *)
Lemma description_key_one_line : ~ In NL description_key.
Proof. vm_compute. intuition discriminate. Qed.

Lemma parse_description_no_key (ls : list str) (l : str) :
  Forall (other_line description_key) ls -> other_line description_key l ->
  parse_description (join_lines ls ++ l) = PNone.
Proof.
  intros Hls Hl. unfold parse_description, re_search.
  rewrite re_description_keyed.
  now rewrite (search_absent fl_description description_key description_tail
                 eq_refl eq_refl description_key_one_line ls l None Hls Hl
                 eq_refl).
Qed.

(** The white space after the key may run over a line feed: a key without
    a value takes the next line as its value. *)
Example description_takes_next_line :
  parse_description (s "description:" ++ [NL] ++ s "alwaysApply: true")
  = PStr (s "alwaysApply: true").
Proof. vm_compute. reflexivity. Qed.

(** C4.  In a file whose header block was cut out: when the description is
    absent (as it is when no line of the header begins with the key) the
    call returns invalid, appends the missing-description error (followed
    at most by the missing-alwaysApply one) and adds exactly one to the
    missing-description counter; when the description is present and
    blank after stripping the call returns invalid and appends the
    empty-description error, and the missing-description counter keeps its
    value. *)
Theorem description_absent_or_blank (v : RuleValidator) (file_path : path)
    (content : str) (m : rmatch) :
  startswith content (s "---") = true ->
  re_match fl_frontmatter re_frontmatter content = Some m ->
  let r := validate_file v file_path (Content content) in
  let rest := alwaysApply_errors file_path (parse_alwaysApply (group m)) in
  (parse_description (group m) = PNone ->
     fst (fst r) = false
     /\ errors (snd r) = errors v ++ ErrNoDescription file_path :: rest
     /\ files_without_description (stats (snd r))
        = files_without_description (stats v) + 1
     /\ invalid_files (stats (snd r)) = invalid_files (stats v) + 1
     /\ valid_files (stats (snd r)) = valid_files (stats v))
  /\ (forall d, parse_description (group m) = PStr d -> strip d = [] ->
        fst (fst r) = false
        /\ errors (snd r) = errors v ++ ErrEmptyDescription file_path :: rest
        /\ files_without_description (stats (snd r))
           = files_without_description (stats v)
        /\ invalid_files (stats (snd r)) = invalid_files (stats v) + 1
        /\ valid_files (stats (snd r)) = valid_files (stats v))
  /\ (forall (ls : list str) (l : str),
        group m = join_lines ls ++ l ->
        Forall (other_line description_key) ls ->
        other_line description_key l ->
        parse_description (group m) = PNone).
Proof.
  intros Hs Hm. cbv zeta. rewrite (validate_file_parsed _ _ _ _ Hs Hm).
  pose proof (validate_frontmatter_result (incr_total_files v) file_path m) as H.
  cbv zeta in H.
  destruct H as (Hfst & Herr & _ & _ & Hvalid & Hinvalid & Hdesc & _).
  split; [|split].
  - intros Hd. rewrite Hd in *. simpl in *.
    rewrite Hfst, Herr, Hdesc, Hinvalid, Hvalid. simpl.
    repeat split; lia.
  - intros d Hd Hblank. rewrite Hd in *.
    unfold description_errors in *. rewrite Hblank in *. simpl in *.
    rewrite Hfst, Herr, Hdesc, Hinvalid, Hvalid. simpl.
    repeat split; lia.
  - intros ls l -> Hls Hl. now apply parse_description_no_key.
Qed.

Lemma description_absent_or_blank_witness :
  let file_path := default_rules_dir ++ [s "a.mdc"] in
  let v := init default_rules_dir in
  let absent := opening ++ s "alwaysApply: true" ++ closing ++ s "Body" in
  let blank := opening ++ s "description: " ++ [DQ; DQ] ++ [NL]
               ++ s "alwaysApply: true" ++ closing ++ s "Body" in
  (fst (fst (validate_file v file_path (Content absent))) = false
   /\ errors (snd (validate_file v file_path (Content absent)))
      = [ErrNoDescription file_path]
   /\ files_without_description
        (stats (snd (validate_file v file_path (Content absent)))) = 1)
  /\ (fst (fst (validate_file v file_path (Content blank))) = false
      /\ errors (snd (validate_file v file_path (Content blank)))
         = [ErrEmptyDescription file_path]
      /\ files_without_description
           (stats (snd (validate_file v file_path (Content blank)))) = 0).
Proof.
  cbv zeta. split.
  - pose proof (description_absent_or_blank (init default_rules_dir)
      (default_rules_dir ++ [s "a.mdc"])
      (opening ++ s "alwaysApply: true" ++ closing ++ s "Body")
      (Match (Some (s "alwaysApply: true")) (s "Body"))
      eq_refl ltac:(vm_compute; reflexivity)) as H.
    cbv zeta in H. destruct H as (H & _ & Hkey).
    assert (Habsent : parse_description
              (group (Match (Some (s "alwaysApply: true")) (s "Body"))) = PNone).
    { apply (Hkey [] (s "alwaysApply: true") eq_refl); [constructor|].
      split; vm_compute; intuition discriminate. }
    destruct (H Habsent) as (H1 & H2 & H3 & _).
    repeat split; assumption.
  - pose proof (description_absent_or_blank (init default_rules_dir)
      (default_rules_dir ++ [s "a.mdc"])
      (opening ++ s "description: " ++ [DQ; DQ] ++ [NL]
         ++ s "alwaysApply: true" ++ closing ++ s "Body")
      (Match (Some (s "description: " ++ [DQ; DQ] ++ [NL]
                      ++ s "alwaysApply: true")) (s "Body"))
      eq_refl ltac:(vm_compute; reflexivity)) as H.
    cbv zeta in H. destruct H as (_ & H & _).
    destruct (H [] ltac:(vm_compute; reflexivity) eq_refl) as (H1 & H2 & H3 & _).
    repeat split; assumption.
Defined.

(** ** Searching the header of a conforming file *)

Lemma not_in_app {A : Type} (a : A) (x y : list A) :
  ~ In a x -> ~ In a y -> ~ In a (x ++ y).
Proof. intros Hx Hy [H|H]%in_app_or; tauto. Qed.

Lemma forallb_not_in (P : char -> bool) (bad : char) (x : str) :
  P bad = false -> forallb P x = true -> ~ In bad x.
Proof.
  intros Hbad Hx Hin. rewrite forallb_forall in Hx.
  apply Hx in Hin. congruence.
Qed.

Lemma quoted_free (bad : char) (q : quote) (x : str) :
  bad <> DQ -> bad <> SQ -> ~ In bad x -> ~ In bad (quoted q x).
Proof.
  intros Hd Hs Hx. unfold quoted.
  intros [H|H]; [destruct q; simpl in H; congruence|].
  apply in_app_or in H. destruct H as [H|[H|[]]]; [tauto|].
  destruct q; simpl in H; congruence.
Qed.

Lemma separator_not_quote (c : char) : is_separator c = true -> is_quote c = false.
Proof.
  intros H. unfold is_quote.
  destruct (N.eqb_spec c DQ) as [->|_]; [vm_compute in H; discriminate|].
  destruct (N.eqb_spec c SQ) as [->|_]; [vm_compute in H; discriminate|].
  reflexivity.
Qed.

Lemma separators_free (x : str) :
  forallb is_separator x = true -> ~ In 93%N x.
Proof. apply forallb_not_in. reflexivity. Qed.

Lemma items_free (items : list item) :
  forallb item_ok items = true -> ~ In 93%N (concat (map item_written items)).
Proof.
  induction items as [|[q i a] items IH]; intros Hok; [intros []|].
  cbn [forallb] in Hok. apply andb_prop in Hok. destruct Hok as [Hi Hok].
  unfold item_ok in Hi. cbn [item_text item_after] in Hi.
  apply andb_prop in Hi. destruct Hi as [Hi Ha].
  unfold text_ok in Hi. apply andb_prop in Hi. destruct Hi as [_ Hi].
  cbn [map concat]. unfold item_written at 1. cbn [item_quote item_text item_after].
  repeat apply not_in_app.
  - apply quoted_free; try discriminate.
    now apply (forallb_not_in item_char_ok).
  - now apply separators_free.
  - now apply IH.
Qed.

Lemma items_text_free (lead : str) (items : list item) :
  list_ok lead items = true -> ~ In 93%N (items_text lead items).
Proof.
  intros [Hl Hi]%andb_prop. apply not_in_app.
  - now apply separators_free.
  - now apply items_free.
Qed.

Lemma render_one_line (f : field) : field_ok f = true -> ~ In NL (render f).
Proof.
  destruct f as [q d|b|lead items]; cbn [field_ok render]; intros Hok.
  - apply not_in_app; [vm_compute; intuition discriminate|].
    unfold description_ok in Hok.
    apply andb_prop in Hok. destruct Hok as [Hok _].
    apply andb_prop in Hok. destruct Hok as [Hnl _].
    assert (Hd : ~ In NL d).
    { apply (forallb_not_in (fun c => negb (c =? NL)%N)); [reflexivity|assumption]. }
    destruct q as [q|]; cbn [scalar]; [|assumption].
    apply quoted_free; [discriminate|discriminate|assumption].
  - destruct b; vm_compute; intuition discriminate.
  - apply andb_prop in Hok. destruct Hok as [_ Hok].
    apply not_in_app; [vm_compute; intuition discriminate|].
    apply not_in_app; [|vm_compute; intuition discriminate].
    apply (forallb_not_in (fun c => negb (c =? NL)%N)); [reflexivity|assumption].
Qed.

Lemma header_tail_line_end (fs : list field) :
  line_end match fs with [] => [] | _ :: _ => NL :: header fs end.
Proof. destruct fs; [now left|right; eauto]. Qed.

(** The first line the pattern decides gives the match of the search. *)
Lemma search_header fl (key : str) (r' : regex) (value : field -> option str)
    (fs : list field) :
  MULTILINE fl = true -> key <> [] ->
  Forall (fun f => ~ In NL (render f)
                   /\ decides fl (Seq Bol (Seq (Lit key) r')) value f) fs ->
  forall p, at_bol fl p = true ->
    option_map group (search_from fl (Seq Bol (Seq (Lit key) r')) p (header fs))
    = first_value value fs.
Proof.
  intros Hml Hkey Hfs. induction Hfs as [|f fs [Hnl Hdec] Hfs IH]; intros p Hp.
  - cbn [header search_from first_value]. rewrite keyed_match_at, Hp.
    destruct key; [contradiction|reflexivity].
  - cbn [header first_value].
    specialize (Hdec p _ Hp (header_tail_line_end fs)).
    destruct (value f) as [g|].
    + destruct Hdec as [q Hm].
      now rewrite (search_from_here _ _ _ _ _ _ Hm).
    + destruct fs as [|f' fs'].
      * rewrite app_nil_r in *. now rewrite search_last_line.
      * rewrite search_skip_line by assumption.
        apply IH. simpl. now rewrite Hml.
Qed.

(** The four patterns on the three kinds of lines. *)
Lemma caseless_self_key : caseless alwaysApply_key alwaysApply_key.
Proof. repeat constructor. Qed.

Lemma caseless_self_literal (b : bool) :
  caseless (boolean_literal b) (boolean_literal b).
Proof. destruct b; repeat constructor. Qed.

Lemma scalar_head (q : option quote) (d : str) :
  description_ok q d = true ->
  exists c line, scalar q d = c :: line /\ isspace c = false
                 /\ ~ In NL (c :: line).
Proof.
  intros Hok.
  assert (Hline : ~ In NL (render (Description q d)))
    by now apply render_one_line.
  cbn [render] in Hline.
  assert (Hs : ~ In NL (scalar q d)).
  { intros H. apply Hline. apply in_or_app. now right. }
  destruct q as [q|]; cbn [scalar] in *.
  - exists (quote_char q), (d ++ [quote_char q]).
    split; [reflexivity|]. split; [now destruct q|assumption].
  - unfold description_ok in Hok.
    apply andb_prop in Hok. destruct Hok as [Hok Hbare].
    apply andb_prop in Hok. destruct Hok as [_ Hne].
    apply andb_prop in Hbare. destruct Hbare as [Hbare _].
    apply andb_prop in Hbare. destruct Hbare as [Hstrip _].
    apply str_eqb_eq in Hstrip.
    destruct (strip d) as [|c line] eqn:E; [discriminate|].
    exists c, line. rewrite <- Hstrip. split; [reflexivity|].
    split; [now apply (strip_head d c line)|]. now rewrite Hstrip.
Qed.

Lemma decides_description (f : field) :
  field_ok f = true ->
  decides fl_description (Seq Bol (Seq (Lit description_key) description_tail))
    written_description f.
Proof.
  intros Hok p rest Hp Hrest.
  destruct f as [q d|b|lead items]; cbn [written_description render].
  - cbn [field_ok] in Hok.
    destruct (scalar_head q d Hok) as (c & line & -> & Hc & Hline).
    rewrite keyed_match_at, Hp.
    change (s "description: ") with (description_key ++ [32%N]).
    rewrite <- !app_assoc.
    rewrite lit_prefix_self by reflexivity.
    apply description_tail_found; try assumption. repeat constructor.
  - rewrite keyed_match_at, Hp. now destruct b.
  - rewrite keyed_match_at, Hp. reflexivity.
Qed.

Lemma decides_alwaysApply (f : field) :
  decides fl_alwaysApply (Seq Bol (Seq (Lit alwaysApply_key) alwaysApply_tail))
    written_alwaysApply f.
Proof.
  intros p rest Hp Hrest.
  destruct f as [q d|b|lead items]; cbn [written_alwaysApply render].
  - rewrite keyed_match_at, Hp. reflexivity.
  - rewrite <- re_alwaysApply_keyed.
    change (s "alwaysApply: ") with (alwaysApply_key ++ [32%N]).
    rewrite <- !app_assoc.
    apply (alwaysApply_match_at_complete p alwaysApply_key [32%N]
             (boolean_literal b) rest b); try assumption.
    + exact caseless_self_key.
    + repeat constructor.
    + apply caseless_self_literal.
  - rewrite keyed_match_at, Hp. reflexivity.
Qed.

Lemma decides_globs (f : field) :
  field_ok f = true ->
  decides fl_globs (Seq Bol (Seq (Lit globs_key) globs_tail)) written_globs f.
Proof.
  intros Hok p rest Hp Hrest.
  destruct f as [q d|b|lead items]; cbn [written_globs render].
  - rewrite keyed_match_at, Hp. reflexivity.
  - rewrite keyed_match_at, Hp. now destruct b.
  - cbn [field_ok] in Hok. apply andb_prop in Hok. destruct Hok as [Hok _].
    rewrite <- re_globs_keyed.
    change (s "globs: [") with (globs_key ++ [32%N] ++ [91%N]).
    change (s "]") with [93%N].
    rewrite <- !app_assoc.
    apply globs_match_at_found; try assumption; [repeat constructor|].
    now apply items_text_free.
Qed.

Lemma decides_globs_simple (f : field) :
  written_globs f = None ->
  decides fl_globs_simple (Seq Bol (Seq (Lit globs_key) globs_simple_tail))
    (fun _ => None) f.
Proof.
  intros Hf p rest Hp Hrest.
  destruct f as [q d|b|lead items]; cbn [render]; [| |discriminate].
  - rewrite keyed_match_at, Hp. reflexivity.
  - rewrite keyed_match_at, Hp. now destruct b.
Qed.

(** ** The list items *)

Lemma item_char_not_quote (c : char) : item_char_ok c = true -> is_quote c = false.
Proof.
  unfold item_char_ok. intros H. apply negb_true_iff in H.
  now apply orb_false_iff in H.
Qed.

Lemma one_of_quotes (c : char) :
  atom_match no_flags (OneOf [DQ; SQ]) c = is_quote c.
Proof. unfold is_quote. cbn. now rewrite orb_false_r. Qed.

Lemma none_of_quotes (c : char) :
  atom_match no_flags (NoneOf [DQ; SQ]) c = negb (is_quote c).
Proof. unfold is_quote. cbn. now rewrite orb_false_r. Qed.

Lemma item_no_match p (c : char) (x : str) :
  is_quote c = false -> match_at no_flags re_glob_item p (c :: x) = None.
Proof.
  intros H. unfold match_at, re_glob_item. cbn [exec].
  now rewrite one_of_quotes, H.
Qed.

Lemma item_no_match_nil p : match_at no_flags re_glob_item p [] = None.
Proof. reflexivity. Qed.

(** A quoted item is matched whole, with its text as group 1. *)
Lemma item_match p (q1 q2 : quote) (i rest : str) :
  text_ok i = true ->
  match_at no_flags re_glob_item p
    (quote_char q1 :: i ++ quote_char q2 :: rest)
  = Some (Match (Some i) rest, Some (quote_char q2)).
Proof.
  intros Hok. unfold text_ok in Hok.
  apply andb_prop in Hok. destruct Hok as [Hne Hchars].
  destruct i as [|c i]; [discriminate|].
  cbn [forallb] in Hchars. apply andb_prop in Hchars.
  destruct Hchars as [Hc Hi].
  unfold match_at, re_glob_item. cbn [exec].
  rewrite one_of_quotes.
  replace (is_quote (quote_char q1)) with true by now destruct q1.
  cbn [app]. rewrite none_of_quotes, (item_char_not_quote c Hc).
  cbn [negb star].
  erewrite star_greedy_longest; [reflexivity| | |].
  - apply List.Forall_forall. intros c' Hc'.
    rewrite forallb_forall in Hi. rewrite none_of_quotes.
    now rewrite (item_char_not_quote c' (Hi c' Hc')).
  - rewrite none_of_quotes. now destruct q2.
  - change (c :: i ++ quote_char q2 :: rest)
      with ((c :: i) ++ quote_char q2 :: rest).
    rewrite firstn_length_app.
    rewrite one_of_quotes.
    replace (is_quote (quote_char q2)) with true by now destruct q2.
    reflexivity.
Qed.

(** The bound of [re_findall] is enough: any greater one gives the same
    list. *)
Lemma findall_from_fuel fl r (n m : nat) :
  forall p (x : str), (length x < n)%nat -> (length x < m)%nat ->
    findall_from fl r n p x = findall_from fl r m p x.
Proof.
  revert m. induction n as [|n IH]; intros m p x Hn Hm; [lia|].
  destruct m as [|m]; [lia|]. cbn [findall_from].
  destruct (match_at fl r p x) as [[m' p']|].
  - destruct (length (after m') <? length x)%nat eqn:E.
    + apply Nat.ltb_lt in E. f_equal. apply IH; lia.
    + destruct x as [|c x]; [reflexivity|]. f_equal.
      cbn [length] in *. apply IH; lia.
  - destruct x as [|c x]; [reflexivity|].
    cbn [length] in *. apply IH; lia.
Qed.

Lemma findall_nil n p : findall_from no_flags re_glob_item n p [] = [].
Proof. destruct n; reflexivity. Qed.

Lemma findall_skip n p (c : char) (x : str) :
  is_quote c = false ->
  findall_from no_flags re_glob_item (S n) p (c :: x)
  = findall_from no_flags re_glob_item n (Some c) x.
Proof. intros H. cbn [findall_from]. now rewrite item_no_match. Qed.

Lemma findall_item n p (q1 q2 : quote) (i rest : str) :
  text_ok i = true ->
  findall_from no_flags re_glob_item (S n) p
    (quote_char q1 :: i ++ quote_char q2 :: rest)
  = i :: findall_from no_flags re_glob_item n (Some (quote_char q2)) rest.
Proof.
  intros Hok. cbn [findall_from]. rewrite item_match by assumption.
  cbn [after group group1].
  assert (Hlt : (length rest <? length (quote_char q1 :: i ++ quote_char q2 :: rest))%nat
                = true).
  { apply Nat.ltb_lt. cbn [length]. rewrite length_app. cbn [length]. lia. }
  now rewrite Hlt.
Qed.

Lemma item_written_app (q : quote) (i a x : str) :
  item_written (Item q i a) ++ x
  = quote_char q :: i ++ quote_char q :: a ++ x.
Proof.
  unfold item_written, quoted. cbn [item_quote item_text item_after app].
  now rewrite <- !app_assoc.
Qed.

(** Commas and white space hold no item. *)
Lemma findall_separators (sep : str) :
  forallb is_separator sep = true ->
  forall n p (x : str), (length (sep ++ x) < n)%nat ->
    exists p',
      findall_from no_flags re_glob_item n p (sep ++ x)
      = findall_from no_flags re_glob_item (n - length sep) p' x.
Proof.
  induction sep as [|c sep IH]; intros Hsep n p x Hn.
  - exists p. cbn [app length]. now rewrite Nat.sub_0_r.
  - cbn [forallb] in Hsep. apply andb_prop in Hsep. destruct Hsep as [Hc Hsep].
    cbn [app length] in *. destruct n as [|n]; [lia|].
    rewrite findall_skip by now apply separator_not_quote.
    destruct (IH Hsep n (Some c) x ltac:(lia)) as [p' ->].
    now exists p'.
Qed.

(** The items of a list are found in order, whatever separates them. *)
Lemma findall_items (items : list item) :
  forallb item_ok items = true ->
  forall n p, (length (concat (map item_written items)) < n)%nat ->
    findall_from no_flags re_glob_item n p (concat (map item_written items))
    = map item_text items.
Proof.
  induction items as [|[q i a] items IH]; intros Hok n p Hn.
  - apply findall_nil.
  - cbn [forallb] in Hok. apply andb_prop in Hok. destruct Hok as [Hi Hok].
    unfold item_ok in Hi. cbn [item_text item_after] in Hi.
    apply andb_prop in Hi. destruct Hi as [Hi Ha].
    cbn [map concat item_text] in *. rewrite item_written_app in *.
    cbn [length] in Hn. rewrite length_app in Hn. cbn [length] in Hn.
    destruct n as [|n]; [lia|].
    rewrite findall_item by assumption. f_equal.
    destruct (findall_separators a Ha n (Some (quote_char q))
                (concat (map item_written items)) ltac:(lia)) as [p' ->].
    apply IH; [assumption|]. rewrite length_app in Hn. lia.
Qed.

Lemma findall_items_text (lead : str) (items : list item) :
  list_ok lead items = true ->
  re_findall no_flags re_glob_item (items_text lead items) = map item_text items.
Proof.
  intros [Hl Hi]%andb_prop. unfold re_findall, items_text.
  destruct (findall_separators lead Hl
              (S (length (lead ++ concat (map item_written items)))) None
              (concat (map item_written items)) ltac:(lia)) as [p' ->].
  apply findall_items; [assumption|]. rewrite length_app. lia.
Qed.

(** ** White space around the items *)

Lemma lstrip_app_nonspace (a : str) (c : char) (b : str) :
  isspace c = false -> lstrip (a ++ c :: b) = lstrip a ++ c :: b.
Proof.
  intros Hc. induction a as [|x a IH]; cbn [app lstrip].
  - now rewrite Hc.
  - destruct (isspace x); [exact IH|reflexivity].
Qed.

Lemma rstrip_app_nonspace (a : str) (c : char) (b : str) :
  isspace c = false -> rstrip (a ++ c :: b) = a ++ c :: rstrip b.
Proof.
  intros Hc. unfold rstrip. rewrite rev_app_distr. cbn [rev].
  rewrite <- app_assoc. cbn [app].
  rewrite lstrip_app_nonspace by assumption.
  rewrite rev_app_distr. cbn [rev]. rewrite rev_involutive, <- app_assoc.
  reflexivity.
Qed.

Lemma separators_lstrip (x : str) :
  forallb is_separator x = true -> forallb is_separator (lstrip x) = true.
Proof.
  intros H. destruct (lstrip_split x) as (ws & Hx & _).
  rewrite Hx, forallb_app in H. now apply andb_prop in H.
Qed.

Lemma separators_rstrip (x : str) :
  forallb is_separator x = true -> forallb is_separator (rstrip x) = true.
Proof.
  intros H. destruct (rstrip_prefix x) as [t Hx].
  rewrite Hx, forallb_app in H. now apply andb_prop in H.
Qed.

Lemma quote_not_space (q : quote) : isspace (quote_char q) = false.
Proof. now destruct q. Qed.

(** Stripping the end of a list touches only what follows its last
    item. *)
Lemma rstrip_items (items : list item) :
  items <> [] -> forallb item_ok items = true ->
  forall pre : str,
    exists items',
      rstrip (pre ++ concat (map item_written items))
      = pre ++ concat (map item_written items')
      /\ forallb item_ok items' = true
      /\ map item_text items' = map item_text items.
Proof.
  induction items as [|[q i a] items IH]; [contradiction|].
  intros _ Hok pre.
  cbn [forallb] in Hok. apply andb_prop in Hok. destruct Hok as [Hi Hok].
  destruct items as [|i2 items].
  - exists [Item q i (rstrip a)].
    unfold item_ok in Hi |- *. cbn [item_text item_after] in Hi.
    apply andb_prop in Hi. destruct Hi as [Hi Ha].
    cbn [map concat forallb item_text item_after].
    rewrite !item_written_app, !app_nil_r.
    split; [|split; [|reflexivity]].
    + replace (pre ++ quote_char q :: i ++ quote_char q :: a)
        with ((pre ++ quote_char q :: i) ++ quote_char q :: a)
        by now rewrite <- app_assoc.
      rewrite rstrip_app_nonspace by apply quote_not_space.
      now rewrite <- app_assoc.
    + now rewrite Hi, separators_rstrip.
  - destruct (IH ltac:(discriminate) Hok (pre ++ item_written (Item q i a)))
      as (items' & E & Hok' & Hmap).
    exists (Item q i a :: items').
    change (concat (map item_written (Item q i a :: i2 :: items)))
      with (item_written (Item q i a) ++ concat (map item_written (i2 :: items))).
    change (concat (map item_written (Item q i a :: items')))
      with (item_written (Item q i a) ++ concat (map item_written items')).
    rewrite !app_assoc, E. split; [reflexivity|].
    cbn [forallb map]. rewrite Hi, Hok', Hmap. now split.
Qed.

Lemma strip_items_text (lead : str) (items : list item) :
  list_ok lead items = true ->
  exists lead' items',
    strip (items_text lead items) = items_text lead' items'
    /\ list_ok lead' items' = true
    /\ map item_text items' = map item_text items.
Proof.
  intros [Hl Hi]%andb_prop. destruct items as [|[q i a] items].
  - exists (strip lead), []. unfold items_text, list_ok.
    cbn [map concat forallb]. rewrite !app_nil_r.
    split; [reflexivity|]. split; [|reflexivity].
    unfold strip. now rewrite separators_rstrip by now apply separators_lstrip.
  - assert (Hl' : lstrip (items_text lead (Item q i a :: items))
                  = lstrip lead ++ concat (map item_written (Item q i a :: items))).
    { unfold items_text. cbn [map concat]. rewrite item_written_app.
      apply lstrip_app_nonspace, quote_not_space. }
    destruct (rstrip_items (Item q i a :: items) ltac:(discriminate) Hi (lstrip lead))
      as (items' & E & Hok' & Hmap).
    exists (lstrip lead), items'. unfold strip. rewrite Hl', E.
    split; [reflexivity|]. split; [|assumption].
    unfold list_ok. now rewrite separators_lstrip, Hok'.
Qed.

(** Lines 78 to 84 on the text between the brackets of a conforming
    list. *)
Lemma globs_of_items (lead : str) (items : list item) :
  list_ok lead items = true ->
  match strip (items_text lead items) with
  | _ :: _ =>
      PList (map PStr
               (re_findall no_flags re_glob_item (strip (items_text lead items))))
  | [] => PList []
  end = PList (map PStr (map item_text items)).
Proof.
  intros Hok.
  destruct (strip_items_text lead items Hok) as (lead' & items' & -> & Hok' & <-).
  pose proof (findall_items_text lead' items' Hok') as H.
  destruct (items_text lead' items') as [|c x].
  - cbn in H. now rewrite <- H.
  - now rewrite H.
Qed.

(** C6, as the code has it.  A bracketed list after the first [globs:] key
    is read up to the first closing bracket and parsed into the list of
    its quoted items whether or not the white space after the key or the
    text between the brackets holds line feeds: quoted items with commas
    and white space, line feeds among it, between them give the list of
    their texts.  The field is absent for every header in which no
    [globs:] key at the start of a line is followed, after white space, by
    a bracket, which is the case of a list written one item per line with
    dashes. *)
Theorem globs_bracketed_or_absent :
  (forall (ls : list str) (ws body post : str),
     Forall (other_line globs_key) ls -> all_space ws -> ~ In 93%N body ->
     parse_globs
       (join_lines ls ++ globs_key ++ ws ++ [91%N] ++ body ++ [93%N] ++ post)
     = PList (map PStr (re_findall no_flags re_glob_item (strip body))))
  /\ (forall (ls : list str) (ws lead post : str) (items : list item),
        Forall (other_line globs_key) ls -> all_space ws ->
        list_ok lead items = true ->
        parse_globs
          (join_lines ls ++ globs_key ++ ws ++ [91%N] ++ items_text lead items
           ++ [93%N] ++ post)
        = PList (map PStr (map item_text items)))
  /\ (forall hdr : str, ~ globs_key_bracket hdr -> parse_globs hdr = PNone).
Proof.
  split; [|split].
  - intros ls ws body post Hls Hws Hbody.
    now apply parse_globs_bracketed.
  - intros ls ws lead post items Hls Hws Hok.
    rewrite parse_globs_bracketed by (try assumption; now apply items_text_free).
    pose proof (globs_of_items lead items Hok) as H.
    destruct (strip (items_text lead items)); exact H.
  - intros hdr Hno. unfold parse_globs.
    pose proof (parse_globs_no_bracket hdr Hno) as H.
    unfold parse_globs in H. exact H.
Qed.

Lemma globs_bracketed_or_absent_witness :
  parse_globs (s "description: d" ++ [NL] ++ s "globs:" ++ [NL; 32%N; 32%N]
               ++ s "[" ++ [NL; DQ] ++ s "*.ts" ++ [DQ; 44%N; NL; DQ] ++ s "*.js"
               ++ [DQ; NL] ++ s "]")
  = PList [PStr (s "*.ts"); PStr (s "*.js")]
  /\ parse_globs (s "globs:" ++ [NL] ++ s "  - src/a.ts" ++ [NL] ++ s "  - src/b.ts")
     = PNone.
Proof.
  split.
  - exact (proj1 (proj2 globs_bracketed_or_absent) [s "description: d"]
             [NL; 32%N; 32%N] [NL] []
             [Item Double (s "*.ts") [44%N; NL]; Item Double (s "*.js") [NL]]
             ltac:(repeat constructor; vm_compute; intuition discriminate)
             ltac:(repeat constructor)
             eq_refl).
  - apply (proj2 (proj2 globs_bracketed_or_absent)).
    intros H%key_bracketb_spec. vm_compute in H. discriminate.
Defined.

(** C6 as stated fails: the list between the brackets spans four lines and
    the parser produces the list of its two items. *)
Lemma globs_bracketed_or_absent_counterexample :
  let body := [NL; DQ] ++ s "*.ts" ++ [DQ; 44%N; NL; DQ] ++ s "*.js" ++ [DQ; NL] in
  let hdr := s "globs: [" ++ body ++ s "]" in
  In NL body
  /\ length (lines hdr) = 4%nat
  /\ parse_globs hdr = PList [PStr (s "*.ts"); PStr (s "*.js")].
Proof.
  cbv zeta. split; [left; reflexivity|]. split; vm_compute; reflexivity.
Qed.

(** ** The header of a conforming file *)

Lemma nl_dash_suffix (u1 u2 : str) : nl_dash (u1 ++ u2) = false -> nl_dash u2 = false.
Proof.
  induction u1 as [|c u1 IH]; [exact (fun H => H)|].
  cbn [app nl_dash]. intros H. apply orb_false_iff in H. now apply IH.
Qed.

Lemma nl_dash_line (l y : str) : ~ In NL l -> nl_dash (l ++ y) = nl_dash y.
Proof.
  induction l as [|c l IH]; intros Hl; [reflexivity|].
  cbn [app nl_dash].
  destruct (N.eqb_spec c NL) as [->|_]; [destruct Hl; now left|].
  cbn [andb orb]. apply IH. intros H. apply Hl. now right.
Qed.

Lemma render_head_not_dash (f : field) (y : str) :
  match render f ++ y with c :: _ => (c =? 45)%N = false | [] => True end.
Proof. destruct f as [q d|b|lead items]; reflexivity. Qed.

Lemma nl_dash_header (fs : list field) :
  forallb field_ok fs = true -> nl_dash (header fs) = false.
Proof.
  induction fs as [|f fs IH]; [reflexivity|].
  cbn [forallb header]. intros [Hf Hfs]%andb_prop.
  rewrite nl_dash_line by now apply render_one_line.
  destruct fs as [|f' fs']; [reflexivity|].
  pose proof (render_head_not_dash f'
    (match fs' with [] => [] | _ :: _ => NL :: header fs' end)) as Hd.
  change (render f' ++ _) with (header (f' :: fs')) in Hd.
  specialize (IH Hfs).
  cbn [nl_dash]. rewrite IH, orb_false_r.
  destruct (header (f' :: fs')) as [|c x]; [reflexivity|]. now rewrite Hd.
Qed.

Lemma nl_dash_first_closing (h body : str) :
  nl_dash h = false ->
  forall u1 u2 z, h = u1 ++ u2 -> u2 <> [] ->
    u2 ++ closing ++ body <> closing ++ z.
Proof.
  intros Hh u1 u2 z -> Hu2 Heq. apply nl_dash_suffix in Hh.
  destruct u2 as [|c u2]; [contradiction|].
  injection Heq as -> Heq.
  destruct u2 as [|c' u2]; [discriminate|].
  injection Heq as -> _. discriminate.
Qed.

(** The header block of a conforming file is its header. *)
Lemma conforming_frontmatter (fs : list field) (body : str) :
  forallb field_ok fs = true ->
  re_match fl_frontmatter re_frontmatter (opening ++ header fs ++ closing ++ body)
  = Some (Match (Some (header fs)) body).
Proof.
  intros Hok. apply frontmatter_found.
  now apply nl_dash_first_closing, nl_dash_header.
Qed.

Lemma conforming_lines fl (r : regex) (value : field -> option str)
    (fs : list field) :
  forallb field_ok fs = true ->
  (forall f, field_ok f = true -> decides fl r value f) ->
  Forall (fun f => ~ In NL (render f) /\ decides fl r value f) fs.
Proof.
  intros Hok Hdec. apply List.Forall_forall. intros f Hf.
  rewrite forallb_forall in Hok.
  split; [apply render_one_line|apply Hdec]; now apply Hok.
Qed.

Lemma parse_description_header (fs : list field) :
  forallb field_ok fs = true ->
  parse_description (header fs)
  = match first_value written_description fs with
    | Some v => PStr (unquote (strip v))
    | None => PNone
    end.
Proof.
  intros Hok. unfold parse_description, re_search.
  rewrite re_description_keyed.
  rewrite <- (search_header fl_description description_key description_tail
                written_description fs eq_refl ltac:(discriminate)
                (conforming_lines _ _ _ fs Hok decides_description)
                None eq_refl).
  now destruct (search_from _ _ _ _).
Qed.

Lemma parse_alwaysApply_header (fs : list field) :
  forallb field_ok fs = true ->
  parse_alwaysApply (header fs)
  = match first_value written_alwaysApply fs with
    | Some v => PBool (str_eqb (lower v) (s "true"))
    | None => PNone
    end.
Proof.
  intros Hok. unfold parse_alwaysApply, re_search.
  rewrite re_alwaysApply_keyed.
  rewrite <- (search_header fl_alwaysApply alwaysApply_key alwaysApply_tail
                written_alwaysApply fs eq_refl ltac:(discriminate)
                (conforming_lines _ _ _ fs Hok (fun f _ => decides_alwaysApply f))
                None eq_refl).
  now destruct (search_from _ _ _ _).
Qed.

Lemma first_value_None {A : Type} (value : field -> option A) (fs : list field) :
  first_value value fs = None -> Forall (fun f => value f = None) fs.
Proof.
  induction fs as [|f fs IH]; cbn [first_value]; [constructor|].
  destruct (value f) eqn:E; [discriminate|]. intros H. constructor; auto.
Qed.

Lemma parse_globs_header (fs : list field) :
  forallb field_ok fs = true ->
  parse_globs (header fs)
  = match first_value written_globs fs with
    | Some v =>
        match strip v with
        | _ :: _ => PList (map PStr (re_findall no_flags re_glob_item (strip v)))
        | [] => PList []
        end
    | None => PNone
    end.
Proof.
  intros Hok. unfold parse_globs, re_search.
  rewrite re_globs_keyed, re_globs_simple_keyed.
  pose proof (search_header fl_globs globs_key globs_tail written_globs fs
                eq_refl ltac:(discriminate)
                (conforming_lines _ _ _ fs Hok decides_globs) None eq_refl) as H.
  destruct (first_value written_globs fs) as [v|] eqn:Hv.
  - destruct (search_from fl_globs _ _ _) as [m|]; [|discriminate].
    cbn [option_map] in H. now injection H as ->.
  - destruct (search_from fl_globs _ _ _) as [m|]; [discriminate|].
    assert (Hall : Forall (fun f => ~ In NL (render f)
                     /\ decides fl_globs_simple
                          (Seq Bol (Seq (Lit globs_key) globs_simple_tail))
                          (fun _ => None) f) fs).
    { apply first_value_None in Hv. rewrite List.Forall_forall in *.
      intros f Hf. rewrite forallb_forall in Hok.
      split; [apply render_one_line; now apply Hok|].
      apply decides_globs_simple. now apply Hv. }
    pose proof (search_header fl_globs_simple globs_key globs_simple_tail
                  (fun _ => None) fs eq_refl ltac:(discriminate) Hall
                  None eq_refl) as H'.
    assert (Hnone : first_value (fun _ : field => @None str) fs = None)
      by (clear; induction fs; auto).
    rewrite Hnone in H'.
    now destruct (search_from fl_globs_simple _ _ _).
Qed.

(** The literal values and the text the patterns capture. *)
Lemma first_written_description (fs : list field) (d : str) :
  forallb field_ok fs = true -> description_of fs = Some d ->
  exists q, first_value written_description fs = Some (scalar q d)
            /\ description_ok q d = true.
Proof.
  unfold description_of.
  induction fs as [|f fs IH]; cbn [first_value forallb]; [discriminate|].
  intros [Hf Hfs]%andb_prop.
  destruct f as [q d'|b|items]; cbn [written_description]; auto.
  intros [= ->]. now exists q.
Qed.

Lemma first_written_alwaysApply (fs : list field) (b : bool) :
  alwaysApply_of fs = Some b ->
  first_value written_alwaysApply fs = Some (boolean_literal b).
Proof.
  unfold alwaysApply_of.
  induction fs as [|f fs IH]; cbn [first_value]; [discriminate|].
  destruct f as [q d'|b'|lead items]; cbn [written_alwaysApply]; auto.
  now intros [= ->].
Qed.

Lemma first_written_globs (fs : list field) :
  forallb field_ok fs = true ->
  match globs_of fs with
  | Some l =>
      exists lead items,
        first_value written_globs fs = Some (items_text lead items)
        /\ map item_text items = l
        /\ list_ok lead items = true
  | None => first_value written_globs fs = None
  end.
Proof.
  unfold globs_of.
  induction fs as [|f fs IH]; cbn [first_value forallb]; [reflexivity|].
  intros [Hf Hfs]%andb_prop.
  destruct f as [q d'|b'|lead items]; cbn [written_globs];
    [exact (IH Hfs)|exact (IH Hfs)|].
  cbn [field_ok] in Hf. apply andb_prop in Hf. destruct Hf as [Hf _].
  now exists lead, items.
Qed.

(** The three fields of a conforming header. *)
Lemma conforming_description (fs : list field) (d : str) :
  forallb field_ok fs = true -> description_of fs = Some d ->
  parse_description (header fs) = PStr d /\ strip d <> [].
Proof.
  intros Hok Hd. rewrite parse_description_header by assumption.
  destruct (first_written_description fs d Hok Hd) as (q & -> & Hq).
  rewrite unquote_scalar by assumption. split; [reflexivity|].
  unfold description_ok in Hq.
  apply andb_prop in Hq. destruct Hq as [Hq _].
  apply andb_prop in Hq. destruct Hq as [_ Hq].
  now destruct (strip d).
Qed.

Lemma conforming_alwaysApply (fs : list field) (b : bool) :
  forallb field_ok fs = true -> alwaysApply_of fs = Some b ->
  parse_alwaysApply (header fs) = PBool b.
Proof.
  intros Hok Hb. rewrite parse_alwaysApply_header by assumption.
  rewrite (first_written_alwaysApply fs b Hb). now destruct b.
Qed.

Lemma conforming_globs (fs : list field) :
  forallb field_ok fs = true ->
  parse_globs (header fs)
  = match globs_of fs with
    | Some l => PList (map PStr l)
    | None => PNone
    end.
Proof.
  intros Hok. rewrite parse_globs_header by assumption.
  pose proof (first_written_globs fs Hok) as H.
  destruct (globs_of fs) as [l|].
  - destruct H as (lead & items & -> & <- & Hitems). now apply globs_of_items.
  - now rewrite H.
Qed.

Lemma example_content_conforming :
  example_content = opening ++ header example_fields ++ closing ++ s "Body text".
Proof. reflexivity. Qed.

(** C1, as the code has it.  A file whose header block is made of
    description, [alwaysApply] and [globs] lines in any order, with a
    description on one line that is not blank (quoted, or bare without
    white space or quotes around it), [true] or [false], and a one-line
    bracketed list of quoted items that are not empty and hold no quote
    and no closing bracket, with commas and white space between them, is
    valid, and the returned
    dictionary holds the literal values of the first line of each key; the
    example of the specification is such a file. *)
Theorem conforming_file_round_trip :
  (forall (v : RuleValidator) (file_path : path) (fs : list field)
          (body d : str) (b : bool),
     forallb field_ok fs = true ->
     description_of fs = Some d ->
     alwaysApply_of fs = Some b ->
     let r := validate_file v file_path
                (Content (opening ++ header fs ++ closing ++ body)) in
     fst (fst r) = true
     /\ snd (fst r) !! "description"%string = Some (PStr d)
     /\ snd (fst r) !! "alwaysApply"%string = Some (PBool b)
     /\ snd (fst r) !! "globs"%string
        = Some match globs_of fs with
               | Some l => PList (map PStr l)
               | None => PNone
               end
     /\ errors (snd r) = errors v
     /\ valid_files (stats (snd r)) = valid_files (stats v) + 1
     /\ invalid_files (stats (snd r)) = invalid_files (stats v))
  /\ (forall (v : RuleValidator) (file_path : path),
        let r := validate_file v file_path (Content example_content) in
        fst (fst r) = true
        /\ snd (fst r) !! "description"%string = Some (PStr (s "Test rule"))
        /\ snd (fst r) !! "alwaysApply"%string = Some (PBool true)
        /\ snd (fst r) !! "globs"%string = Some (PList [PStr (s "*.ts")])).
Proof.
  assert (General : forall (v : RuleValidator) (file_path : path)
            (fs : list field) (body d : str) (b : bool),
     forallb field_ok fs = true ->
     description_of fs = Some d ->
     alwaysApply_of fs = Some b ->
     let r := validate_file v file_path
                (Content (opening ++ header fs ++ closing ++ body)) in
     fst (fst r) = true
     /\ snd (fst r) !! "description"%string = Some (PStr d)
     /\ snd (fst r) !! "alwaysApply"%string = Some (PBool b)
     /\ snd (fst r) !! "globs"%string
        = Some match globs_of fs with
               | Some l => PList (map PStr l)
               | None => PNone
               end
     /\ errors (snd r) = errors v
     /\ valid_files (stats (snd r)) = valid_files (stats v) + 1
     /\ invalid_files (stats (snd r)) = invalid_files (stats v)).
  { intros v file_path fs body d b Hok Hd Hb. cbv zeta.
    rewrite validate_file_opening, (conforming_frontmatter fs body Hok).
    pose proof (validate_frontmatter_result (incr_total_files v) file_path
                  (Match (Some (header fs)) body)) as H.
    cbv zeta in H. unfold group in H. cbn [group1] in H.
    destruct (conforming_description fs d Hok Hd) as [Hpd Hblank].
    rewrite Hpd, (conforming_alwaysApply fs b Hok Hb) in H.
    unfold description_errors, alwaysApply_errors in H.
    destruct (strip d) as [|c d'] eqn:Hstrip; [contradiction|].
    cbn [is_none app] in H.
    destruct H as (Hfst & Herr & _ & _ & Hvalid & Hinvalid & _).
    rewrite Hfst, Herr, Hvalid, Hinvalid. cbn [fst snd].
    rewrite frontmatter_of_description, frontmatter_of_alwaysApply,
      frontmatter_of_globs, Hpd, (conforming_alwaysApply fs b Hok Hb),
      (conforming_globs fs Hok).
    repeat split; try reflexivity.
    - simpl. now rewrite app_nil_r.
    - simpl. lia. }
  split; [exact General|].
  intros v file_path. rewrite example_content_conforming.
  destruct (General v file_path example_fields (s "Body text") (s "Test rule")
              true eq_refl eq_refl eq_refl) as (H1 & H2 & H3 & H4 & _).
  repeat split; assumption.
Qed.

Lemma conforming_file_round_trip_witness :
  let r := validate_file (init default_rules_dir)
             (default_rules_dir ++ [s "typescript.mdc"])
             (Content (opening
                       ++ header [AlwaysApply false;
                                  Globs [32%N]
                                    [Item Single (s "src/**/*.ts") (s ", ");
                                     Item Double (s "*.tsx") [32%N]];
                                  Description None (s "TypeScript rules")]
                       ++ closing ++ s "Use strict mode.")) in
  fst (fst r) = true
  /\ snd (fst r) !! "description"%string = Some (PStr (s "TypeScript rules"))
  /\ snd (fst r) !! "alwaysApply"%string = Some (PBool false)
  /\ snd (fst r) !! "globs"%string
     = Some (PList [PStr (s "src/**/*.ts"); PStr (s "*.tsx")]).
Proof.
  cbv zeta.
  destruct (proj1 conforming_file_round_trip (init default_rules_dir)
              (default_rules_dir ++ [s "typescript.mdc"])
              [AlwaysApply false;
               Globs [32%N] [Item Single (s "src/**/*.ts") (s ", ");
                             Item Double (s "*.tsx") [32%N]];
               Description None (s "TypeScript rules")]
              (s "Use strict mode.") (s "TypeScript rules") false
              ltac:(vm_compute; reflexivity) eq_refl eq_refl)
    as (H1 & H2 & H3 & H4 & _).
  repeat split; assumption.
Defined.

(** C1 as stated fails: the globs are a one-line bracketed list of one
    quoted string and the file is valid, but the item holds a closing
    bracket and the parsed list is empty, not the literal value. *)
Lemma conforming_file_round_trip_counterexample :
  let content :=
    s "---" ++ [NL] ++ s "description: " ++ [DQ] ++ s "Test rule" ++ [DQ] ++ [NL]
    ++ s "alwaysApply: true" ++ [NL]
    ++ s "globs: [" ++ [DQ] ++ s "src/[id]/*.ts" ++ [DQ] ++ s "]" ++ [NL]
    ++ s "---" ++ [NL] ++ s "Body text" in
  let r := validate_file (init default_rules_dir)
             (default_rules_dir ++ [s "a.mdc"]) (Content content) in
  fst (fst r) = true
  /\ snd (fst r) !! "globs"%string = Some (PList [])
  /\ snd (fst r) !! "globs"%string <> Some (PList [PStr (s "src/[id]/*.ts")]).
Proof.
  cbv zeta. split; [vm_compute; reflexivity|].
  assert (H : snd (fst (validate_file (init default_rules_dir)
                 (default_rules_dir ++ [s "a.mdc"])
                 (Content (s "---" ++ [NL] ++ s "description: " ++ [DQ]
                    ++ s "Test rule" ++ [DQ] ++ [NL]
                    ++ s "alwaysApply: true" ++ [NL]
                    ++ s "globs: [" ++ [DQ] ++ s "src/[id]/*.ts" ++ [DQ]
                    ++ s "]" ++ [NL] ++ s "---" ++ [NL] ++ s "Body text"))))
              !! "globs"%string = Some (PList []))
    by (vm_compute; reflexivity).
  split; [exact H|]. rewrite H. discriminate.
Qed.

(** * Further properties of the validator *)

(** ** One call, whatever the object holds *)

Lemma validator_eq (v w : RuleValidator) :
  rules_dir v = rules_dir w -> errors v = errors w -> warnings v = warnings w ->
  total_files (stats v) = total_files (stats w) ->
  valid_files (stats v) = valid_files (stats w) ->
  invalid_files (stats v) = invalid_files (stats w) ->
  files_without_description (stats v) = files_without_description (stats w) ->
  files_without_alwaysApply (stats v) = files_without_alwaysApply (stats w) ->
  files_with_invalid_yaml (stats v) = files_with_invalid_yaml (stats w) ->
  v = w.
Proof.
  destruct v as [d es ws [t1 t2 t3 t4 t5 t6]], w as [d' es' ws' [u1 u2 u3 u4 u5 u6]].
  simpl. intros. now subst.
Qed.

(** The three early returns of [validate_file]. *)



Lemma early_return_absorb v m :
  early_return v m = absorb v (early_return (init (rules_dir v)) m).
Proof.
  apply validator_eq; simpl; try reflexivity; try lia.
  now rewrite app_nil_r.
Qed.

Lemma validate_frontmatter_absorb v file_path m :
  fst (validate_frontmatter (incr_total_files v) file_path m)
  = fst (validate_frontmatter (incr_total_files (init (rules_dir v))) file_path m)
  /\ snd (validate_frontmatter (incr_total_files v) file_path m)
     = absorb v (snd (validate_frontmatter (incr_total_files (init (rules_dir v)))
                        file_path m)).
Proof.
  pose proof (validate_frontmatter_result (incr_total_files v) file_path m) as H.
  pose proof (validate_frontmatter_result
                (incr_total_files (init (rules_dir v))) file_path m) as H0.
  pose proof (ext_rules_dir _ _
                (extends_validate_frontmatter (incr_total_files v) file_path m)) as Hd.
  cbv zeta in H, H0.
  destruct H as (H1 & H2 & H3 & H4 & H5 & H6 & H7 & H8 & H9).
  destruct H0 as (G1 & G2 & G3 & G4 & G5 & G6 & G7 & G8 & G9).
  split; [now rewrite H1, G1|].
  apply validator_eq; cbn [absorb rules_dir errors warnings stats add_stats
    total_files valid_files invalid_files files_without_description
    files_without_alwaysApply files_with_invalid_yaml].
  - exact Hd.
  - now rewrite H2, G2.
  - now rewrite H3, G3.
  - rewrite H4, G4. simpl. lia.
  - rewrite H5, G5. simpl. lia.
  - rewrite H6, G6. simpl. lia.
  - rewrite H7, G7. simpl. lia.
  - rewrite H8, G8. simpl. lia.
  - rewrite H9, G9. simpl. lia.
Qed.

Lemma validate_file_cases v file_path read :
  (exists m, validate_file v file_path read = ((false, ∅), early_return v m)
             /\ forall w, validate_file w file_path read
                          = ((false, ∅), early_return w m))
  \/ (exists m, forall w, validate_file w file_path read
                  = validate_frontmatter (incr_total_files w) file_path m).
Proof.
  unfold validate_file. destruct read as [e|content].
  - left. eexists. split; [reflexivity|]. reflexivity.
  - destruct (negb _).
    + left. eexists. split; reflexivity.
    + destruct (re_match _ _ _) as [m|].
      * right. exists m. reflexivity.
      * left. eexists. split; reflexivity.
Qed.

(** A call seen from the object it is made on: what the same call gives
    on an object that holds nothing, added to it. *)
Lemma validate_file_frame (v : RuleValidator) (file_path : path)
    (read : read_result) :
  fst (validate_file v file_path read)
  = fst (validate_file (init (rules_dir v)) file_path read)
  /\ snd (validate_file v file_path read)
     = absorb v (recorded (rules_dir v) (file_path, read)).
Proof.
  unfold recorded. cbn [fst snd].
  destruct (validate_file_cases v file_path read) as [(m & _ & H)|[m H]].
  - rewrite !H. split; [reflexivity|]. cbn [snd]. apply early_return_absorb.
  - rewrite !H. apply validate_frontmatter_absorb.
Qed.

Lemma app_self_nil {A : Type} (x y : list A) : x ++ y = x -> y = [].
Proof.
  intros H. apply (app_inv_head x). now rewrite app_nil_r.
Qed.

Lemma description_errors_length file_path d :
  (length (description_errors file_path d) <= 1)%nat.
Proof.
  destruct d as [| |x|]; simpl; try lia. destruct (strip x); simpl; lia.
Qed.

Lemma alwaysApply_errors_length file_path a :
  (length (alwaysApply_errors file_path a) <= 1)%nat.
Proof. unfold alwaysApply_errors. destruct (is_none a); simpl; lia. Qed.

(** X2.  A call returns valid exactly when it appends no error; an invalid
    file appends one error or two.  Each call adds one to the total and
    one to the valid or to the invalid counter, according to the
    verdict. *)
Theorem valid_iff_no_error_added (v : RuleValidator) (file_path : path)
    (read : read_result) :
  let r := validate_file v file_path read in
  (fst (fst r) = true <-> errors (snd r) = errors v)
  /\ (exists es, errors (snd r) = errors v ++ es
                 /\ (length es <= 2)%nat
                 /\ (fst (fst r) = false -> (1 <= length es)%nat))
  /\ total_files (stats (snd r)) = total_files (stats v) + 1
  /\ valid_files (stats (snd r))
     = valid_files (stats v) + (if fst (fst r) then 1 else 0)
  /\ invalid_files (stats (snd r))
     = invalid_files (stats v) + (if fst (fst r) then 0 else 1).
Proof.
  cbv zeta.
  destruct (validate_file_cases v file_path read) as [(m & H & _)|[m H]].
  - rewrite H. cbn [fst snd early_return]. simpl.
    split; [split; [discriminate|]|].
    + intros E. apply app_self_nil in E. discriminate.
    + split; [exists [m]; simpl; repeat split; lia|].
      repeat split; lia.
  - rewrite H.
    pose proof (validate_frontmatter_result (incr_total_files v) file_path m) as R.
    cbv zeta in R. destruct R as (R1 & R2 & _ & R4 & R5 & R6 & _).
    rewrite R1, R2, R4, R5, R6. cbn [fst snd]. simpl errors. simpl total_files.
    simpl valid_files. simpl invalid_files.
    pose proof (description_errors_length file_path (parse_description (group m))).
    pose proof (alwaysApply_errors_length file_path (parse_alwaysApply (group m))).
    destruct (description_errors _ _ ++ alwaysApply_errors _ _) as [|e es] eqn:E.
    + rewrite app_nil_r. split; [tauto|].
      split; [exists []; rewrite app_nil_r; simpl; repeat split; [lia|discriminate]|].
      repeat split; lia.
    + split; [split; [discriminate|]|].
      * intros E'. apply app_self_nil in E'. discriminate.
      * split; [|repeat split; lia].
        exists (e :: es). split; [reflexivity|].
        apply (f_equal (@length _)) in E. rewrite length_app in E.
        split; [lia|]. intros _. simpl. lia.
Qed.

(** X1.  The verdict and the dictionary of a file do not depend on what the
    object holds, and the object after the call is the object before it
    with what the file records by itself added: errors and warnings
    appended, counters summed. *)
Theorem validate_file_independent (v w : RuleValidator) (file_path : path)
    (read : read_result) :
  fst (validate_file v file_path read) = fst (validate_file w file_path read)
  /\ snd (validate_file v file_path read)
     = absorb v (recorded (rules_dir v) (file_path, read)).
Proof.
  split; [|apply validate_file_frame].
  destruct (validate_file_cases v file_path read) as [(m & _ & H)|[m H]].
  - now rewrite !H.
  - rewrite !H.
    pose proof (validate_frontmatter_result (incr_total_files v) file_path m)
      as (R1 & _).
    pose proof (validate_frontmatter_result (incr_total_files w) file_path m)
      as (R2 & _).
    now rewrite R1, R2.
Qed.

(** A valid file has a description that is not blank and a boolean, and
    only such a file is valid. *)
Lemma verdict_fields (v : RuleValidator) (file_path : path) (read : read_result) :
  let r := validate_file v file_path read in
  fst (fst r) = true <->
  exists x b,
    snd (fst r) !! "description"%string = Some (PStr x)
    /\ strip x <> []
    /\ snd (fst r) !! "alwaysApply"%string = Some (PBool b).
Proof.
  cbv zeta.
  destruct (validate_file_cases v file_path read) as [(m & H & _)|[m H]].
  - rewrite H. cbn [fst snd].
    split; [discriminate|]. intros (x & b & Hx & _). now rewrite lookup_empty in Hx.
  - rewrite H.
    pose proof (validate_frontmatter_result (incr_total_files v) file_path m) as R.
    cbv zeta in R. destruct R as (R1 & _). rewrite R1. cbn [fst snd].
    rewrite frontmatter_of_description, frontmatter_of_alwaysApply.
    unfold description_errors, alwaysApply_errors.
    destruct (parse_description_type (group m)) as [->|[x ->]];
      destruct (parse_alwaysApply_type (group m)) as [->|[b ->]];
      cbn [is_none app].
    + split; [discriminate|]. intros (? & ? & ? & _). discriminate.
    + split; [discriminate|]. intros (? & ? & ? & _). discriminate.
    + split; [destruct (strip x); discriminate|].
      intros (? & ? & _ & _ & ?). discriminate.
    + destruct (strip x) as [|c y] eqn:E; cbn [app].
      * split; [discriminate|]. intros (x' & ? & [= <-] & Hne & _).
        now rewrite E in Hne.
      * split; [|reflexivity]. intros _. exists x, b.
        rewrite E. repeat split. discriminate.
Qed.

(** X3.  The dictionary a call returns is empty, on the three early
    returns, or holds exactly the three keys, each with [None] or a value
    of its type; the file is valid exactly when the description is a
    string that is not blank and [alwaysApply] is a boolean, whatever
    [globs] is. *)
Theorem valid_iff_both_properties_parsed (v : RuleValidator) (file_path : path)
    (read : read_result) :
  let r := validate_file v file_path read in
  let frontmatter := snd (fst r) in
  (frontmatter = ∅ /\ fst (fst r) = false
   \/ exists d a g,
        frontmatter = <["globs" := g]> (<["alwaysApply" := a]>
                        (<["description" := d]> ∅))
        /\ (d = PNone \/ exists x, d = PStr x)
        /\ (a = PNone \/ exists b, a = PBool b)
        /\ (g = PNone \/ exists l, g = PList (map PStr l)))
  /\ (fst (fst r) = true <->
      exists x b,
        frontmatter !! "description"%string = Some (PStr x)
        /\ strip x <> []
        /\ frontmatter !! "alwaysApply"%string = Some (PBool b)).
Proof.
  cbv zeta. split; [|apply verdict_fields].
  destruct (validate_file_cases v file_path read) as [(m & H & _)|[m H]].
  - rewrite H. cbn [fst snd]. now left.
  - rewrite H. rewrite validate_frontmatter_dict.
    right. do 3 eexists. split; [reflexivity|].
    split; [apply parse_description_type|].
    split; [apply parse_alwaysApply_type|apply parse_globs_type].
Qed.

(** ** Where the header block ends *)

Lemma app_eq_length {A : Type} (x y x' y' : list A) :
  x ++ y = x' ++ y' -> length x = length x' -> x = x' /\ y = y'.
Proof.
  revert x'. induction x as [|a x IH]; intros [|a' x'] H Hl;
    simpl in *; try discriminate; [auto|].
  injection H as -> H. destruct (IH x' H) as [-> ->]; [lia|auto].
Qed.

(** The call on a text that begins with the opening line and holds a
    closing line: the header block is the text before the first one. *)
Lemma validate_file_cut v file_path (rest h b : str) :
  first_cut rest h b ->
  validate_file v file_path (Content (opening ++ rest))
  = validate_frontmatter (incr_total_files v) file_path (Match (Some h) b).
Proof.
  intros [Hrest Hmin]. rewrite validate_file_opening.
  destruct (re_match _ _ _) as [m|] eqn:E.
  - destruct (frontmatter_Some rest m E) as (h0 & Hg & Hh0 & Hmin0).
    assert (Hlen : length h0 = length h).
    { apply Nat.le_antisymm; [now apply (Hmin0 h b)|now apply (Hmin h0 (after m))]. }
    rewrite Hrest in Hh0. apply app_eq_length in Hh0; [|now rewrite Hlen].
    destruct Hh0 as [-> Hb]. apply app_inv_head in Hb.
    destruct m as [g a]. cbn [group1 after] in *. now subst.
  - now destruct (proj1 (frontmatter_None rest) E h b).
Qed.

(** X4.  A text that begins with the opening line is reported as malformed
    when no closing line (a line feed, three dashes, a line feed) follows;
    otherwise the header block is the text before the first closing line,
    whatever follows it, further closing lines included, and the rest of
    the text is the body. *)
Theorem header_block_ends_at_first_closing (v : RuleValidator)
    (file_path : path) (rest : str) :
  let r := validate_file v file_path (Content (opening ++ rest)) in
  ((forall h b, rest <> h ++ closing ++ b) ->
   r = ((false, ∅), early_return v (ErrBadFrontmatter file_path)))
  /\ (forall h b, first_cut rest h b ->
       r = validate_frontmatter (incr_total_files v) file_path (Match (Some h) b)
       /\ snd (fst r) = frontmatter_of h)
  /\ ((exists h b, rest = h ++ closing ++ b) -> exists h b, first_cut rest h b).
Proof.
  cbv zeta. split; [|split].
  - intros Hno. rewrite validate_file_opening.
    now rewrite (proj2 (frontmatter_None rest) Hno).
  - intros h b Hcut. rewrite (validate_file_cut v file_path rest h b Hcut).
    split; [reflexivity|]. now rewrite validate_frontmatter_dict.
  - intros (h & b & Hrest).
    destruct (re_match fl_frontmatter re_frontmatter (opening ++ rest)) as [m|] eqn:E.
    + destruct (frontmatter_Some rest m E) as (h0 & _ & Hh0 & Hmin0).
      exists h0, (after m). now split.
    + now destruct (proj1 (frontmatter_None rest) E h b).
Qed.

Lemma header_block_ends_at_first_closing_witness :
  let rest := s "description: d" ++ closing ++ s "Body" ++ closing ++ s "more" in
  let r := validate_file (init default_rules_dir) [s "a.mdc"]
             (Content (opening ++ rest)) in
  snd (fst r) = frontmatter_of (s "description: d").
Proof.
  cbv zeta.
  refine (proj2 (proj1 (proj2 (header_block_ends_at_first_closing
            (init default_rules_dir) [s "a.mdc"]
            (s "description: d" ++ closing ++ s "Body" ++ closing ++ s "more")))
            (s "description: d") (s "Body" ++ closing ++ s "more") _)).
  split; [reflexivity|]. intros h' b' H.
  destruct (Nat.le_gt_cases (length (s "description: d")) (length h'))
    as [Hle|Hgt]; [exact Hle|exfalso].
  change (length (s "description: d")) with 14%nat in Hgt.
  do 14 (destruct h' as [|? h']; [vm_compute in H; discriminate|]).
  simpl in Hgt. lia.
Defined.

(** X5.  The empty-body warning depends on the body alone and the verdict
    on the header block alone: the warning is recorded exactly when the
    text after the first closing line is blank, for a valid and for an
    invalid file alike, and the errors are those of the description and
    of [alwaysApply] in the header block. *)
Theorem empty_body_warning (v : RuleValidator) (file_path : path)
    (rest h b : str) :
  first_cut rest h b ->
  let r := validate_file v file_path (Content (opening ++ rest)) in
  warnings (snd r)
  = warnings v ++ match strip b with
                  | [] => [WarnNoContent file_path]
                  | _ :: _ => []
                  end
  /\ errors (snd r)
     = errors v ++ description_errors file_path (parse_description h)
       ++ alwaysApply_errors file_path (parse_alwaysApply h)
  /\ fst (fst r)
     = match description_errors file_path (parse_description h)
             ++ alwaysApply_errors file_path (parse_alwaysApply h) with
       | [] => true
       | _ :: _ => false
       end.
Proof.
  intros Hcut. cbv zeta. rewrite (validate_file_cut v file_path rest h b Hcut).
  pose proof (validate_frontmatter_result (incr_total_files v) file_path
                (Match (Some h) b)) as R.
  cbv zeta in R. unfold group in R. cbn [group1 after] in R.
  destruct R as (R1 & R2 & R3 & _). rewrite R1, R2, R3. auto.
Qed.

Lemma first_cut_nl_dash (h b : str) :
  nl_dash h = false -> first_cut (h ++ closing ++ b) h b.
Proof.
  intros Hh. split; [reflexivity|].
  pose proof (frontmatter_found h b (nl_dash_first_closing h b Hh)) as E.
  destruct (frontmatter_Some _ _ E) as (h0 & Hg & _ & Hmin).
  cbn [group1] in Hg. injection Hg as <-. exact Hmin.
Qed.

Lemma empty_body_warning_witness :
  let r := validate_file (init default_rules_dir) [s "a.mdc"]
             (Content (opening ++ s "alwaysApply: true" ++ closing ++ [32%N; NL])) in
  warnings (snd r) = [WarnNoContent [s "a.mdc"]]
  /\ errors (snd r) = [ErrNoDescription [s "a.mdc"]]
  /\ fst (fst r) = false.
Proof.
  exact (empty_body_warning (init default_rules_dir) [s "a.mdc"]
           (s "alwaysApply: true" ++ closing ++ [32%N; NL])
           (s "alwaysApply: true") [32%N; NL]
           (first_cut_nl_dash (s "alwaysApply: true") [32%N; NL] eq_refl)).
Defined.

(** ** The status lines of a valid file *)

Lemma print_status_valid (dir rel : path) (frontmatter : dict) (x : str) (b : bool) :
  frontmatter !! "description"%string = Some (PStr x) -> strip x <> [] ->
  frontmatter !! "alwaysApply"%string = Some (PBool b) ->
  print_status dir (dir ++ rel) frontmatter
  = Some [OutFile b rel; OutDescription (PStr (slice_to 60 x))].
Proof.
  intros Hx Hne Hb. unfold print_status. rewrite Hx, Hb. simpl.
  rewrite relative_to_app. simpl.
  destruct x as [|c x]; [now destruct Hne|]. reflexivity.
Qed.

(** X6.  For a valid file the loop prints two lines: the path relative to
    the rules directory with the mark of the parsed [alwaysApply], and
    the first 60 characters of the description; the description line is
    never left out, and neither default of the two [get] is used. *)
Theorem valid_file_status_lines (v : RuleValidator) (dir rel : path)
    (read : read_result) :
  let r := validate_file v (dir ++ rel) read in
  fst (fst r) = true ->
  exists x b,
    snd (fst r) !! "description"%string = Some (PStr x)
    /\ snd (fst r) !! "alwaysApply"%string = Some (PBool b)
    /\ print_status dir (dir ++ rel) (snd (fst r))
       = Some [OutFile b rel; OutDescription (PStr (firstn 60 x))]
    /\ firstn 60 x <> [].
Proof.
  cbv zeta. intros Hvalid.
  apply (proj1 (verdict_fields v (dir ++ rel) read)) in Hvalid.
  destruct Hvalid as (x & b & Hx & Hne & Hb).
  exists x, b. split; [assumption|]. split; [assumption|].
  split; [now apply print_status_valid|].
  destruct x as [|c x]; [now destruct Hne|]. discriminate.
Qed.

Lemma valid_file_status_lines_witness :
  let dir := default_rules_dir in
  let read := Content (opening ++ s "description: d" ++ [NL]
                       ++ s "alwaysApply: false" ++ closing) in
  exists x b,
    print_status dir (dir ++ [s "a.mdc"])
      (snd (fst (validate_file (init dir) (dir ++ [s "a.mdc"]) read)))
    = Some [OutFile b [s "a.mdc"]; OutDescription (PStr (firstn 60 x))].
Proof.
  cbv zeta.
  destruct (valid_file_status_lines (init default_rules_dir) default_rules_dir
              [s "a.mdc"]
              (Content (opening ++ s "description: d" ++ [NL]
                        ++ s "alwaysApply: false" ++ closing))
              ltac:(vm_compute; reflexivity))
    as (x & b & _ & _ & H & _).
  now exists x, b.
Defined.

(** ** The counters and the lists of an object *)

Lemma consistent_init (dir : path) : consistent (init dir).
Proof. unfold consistent. simpl. lia. Qed.

Lemma consistent_validate_file (v : RuleValidator) (file_path : path)
    (read : read_result) :
  consistent v -> consistent (snd (validate_file v file_path read)).
Proof.
  unfold consistent. cbv zeta. intros (C1 & C2 & C3 & C4 & C5 & C6).
  destruct (validate_file_cases v file_path read) as [(m & H & _)|[m H]].
  - rewrite H. cbn [snd early_return]. simpl. rewrite length_app. simpl. lia.
  - rewrite H.
    pose proof (validate_frontmatter_result (incr_total_files v) file_path m) as R.
    cbv zeta in R. destruct R as (_ & R2 & R3 & R4 & R5 & R6 & R7 & R8 & _).
    rewrite R2, R3, R4, R5, R6, R7, R8. simpl errors. simpl warnings.
    simpl total_files. simpl valid_files. simpl invalid_files.
    simpl files_without_description. simpl files_without_alwaysApply.
    rewrite !length_app.
    unfold description_errors, alwaysApply_errors.
    destruct (parse_description_type (group m)) as [->|[x ->]];
      destruct (parse_alwaysApply_type (group m)) as [->|[b ->]];
      try destruct (strip x);
      destruct (strip (after m)); simpl; lia.
Qed.

(** X7.  Every call keeps the counters and the lists consistent (the
    total is the sum of valid and invalid, the two missing-property
    counters are at most the invalid counter, the number of errors is
    between the invalid counter and twice it, and there are at most as
    many warnings as files), and it moves them by little: a
    missing-property counter grows by one at most, and only when the
    invalid counter does; at most one warning is added. *)
Theorem validate_file_keeps_consistent (v : RuleValidator) (file_path : path)
    (read : read_result) :
  consistent v ->
  let v' := snd (validate_file v file_path read) in
  consistent v'
  /\ invalid_files (stats v') - invalid_files (stats v) <= 1
  /\ 0 <= files_without_description (stats v')
          - files_without_description (stats v)
       <= invalid_files (stats v') - invalid_files (stats v)
  /\ 0 <= files_without_alwaysApply (stats v')
          - files_without_alwaysApply (stats v)
       <= invalid_files (stats v') - invalid_files (stats v)
  /\ (length (warnings v') <= length (warnings v) + 1)%nat.
Proof.
  intros Hv. cbv zeta. split; [now apply consistent_validate_file|].
  destruct (validate_file_cases v file_path read) as [(m & H & _)|[m H]].
  - rewrite H. cbn [snd early_return]. simpl. lia.
  - rewrite H.
    pose proof (validate_frontmatter_result (incr_total_files v) file_path m) as R.
    cbv zeta in R. destruct R as (_ & _ & R3 & _ & _ & R6 & R7 & R8 & _).
    rewrite R3, R6, R7, R8. simpl warnings. simpl invalid_files.
    simpl files_without_description. simpl files_without_alwaysApply.
    rewrite length_app.
    unfold description_errors, alwaysApply_errors.
    destruct (parse_description_type (group m)) as [->|[x ->]];
      destruct (parse_alwaysApply_type (group m)) as [->|[b ->]];
      try destruct (strip x);
      destruct (strip (after m)); simpl; lia.
Qed.

Lemma validate_file_keeps_consistent_witness :
  let v' := snd (validate_file (init default_rules_dir) [s "a.mdc"]
                   (ReadError (s "denied"))) in
  consistent v' /\ invalid_files (stats v') = 1.
Proof.
  cbv zeta.
  destruct (validate_file_keeps_consistent (init default_rules_dir)
              [s "a.mdc"] (ReadError (s "denied"))
              ltac:(unfold consistent; simpl; lia)) as [H _].
  split; [exact H|reflexivity].
Defined.

(** ** The loop over the files *)

Lemma errors_fold_absorb (ws : list RuleValidator) (v : RuleValidator) :
  errors (fold_left absorb ws v) = errors v ++ flat_map errors ws
  /\ warnings (fold_left absorb ws v) = warnings v ++ flat_map warnings ws
  /\ rules_dir (fold_left absorb ws v) = rules_dir v.
Proof.
  revert v. induction ws as [|w ws IH]; intros v; simpl.
  - now rewrite !app_nil_r.
  - destruct (IH (absorb v w)) as (-> & -> & ->). simpl.
    now rewrite <- !app_assoc.
Qed.

(** The loop is a fold: each file adds what it records by itself, and the
    status lines are those of each file by itself. *)
Lemma validate_each_fold (dir : path) (files : list (path * read_result)) :
  forall (v : RuleValidator) (out : list line),
    rules_dir v = dir ->
    Forall (fun f => exists rel, fst f = dir ++ rel) files ->
    validate_each v out files
    = Some (fold_left absorb (map (recorded dir) files) v,
            out ++ flat_map (file_status dir) files).
Proof.
  induction files as [|[file_path read] files IH]; intros v out Hdir Hall.
  - simpl. now rewrite app_nil_r.
  - inversion Hall as [|? ? [rel Hrel] Hall']; subst. cbn [fst] in Hrel.
    cbn [validate_each map fold_left flat_map].
    destruct (validate_file_frame v file_path read)
      as [Hfst Hsnd].
    unfold file_status. cbn [fst snd].
    pose proof (verdict_fields (init (rules_dir v)) file_path read) as Hvalid.
    cbv zeta in Hvalid.
    destruct (validate_file v file_path read) as [[is_valid frontmatter] v1].
    destruct (validate_file (init (rules_dir v)) file_path read)
      as [[is_valid0 frontmatter0] v0] eqn:E0.
    cbn [fst snd] in *. injection Hfst as -> ->. subst v1.
    destruct is_valid0.
    + destruct (proj1 Hvalid eq_refl) as (x & b & Hx & Hne & Hb).
      cbn [absorb rules_dir]. rewrite Hrel.
      rewrite (print_status_valid (rules_dir v) rel frontmatter0 x b Hx Hne Hb).
      cbn [mbind option_bind]. rewrite <- Hrel.
      rewrite IH by (assumption || reflexivity).
      now rewrite <- app_assoc.
    + rewrite IH by (assumption || reflexivity). reflexivity.
Qed.

Lemma insert_sorted_length x l : length (insert_sorted x l) = S (length l).
Proof.
  induction l as [|y l IH]; simpl; [reflexivity|].
  destruct (path_ltb _ _); simpl; [now rewrite IH|reflexivity].
Qed.

Lemma sorted_length l : length (sorted l) = length l.
Proof.
  induction l as [|x l IH]; simpl; [reflexivity|].
  now rewrite insert_sorted_length, IH.
Qed.

Lemma sorted_nil_inv l : sorted l = [] -> l = [].
Proof.
  intros H. apply (f_equal (@length _)) in H. rewrite sorted_length in H.
  now destruct l.
Qed.

(** The files of the run: what [rglob] found, under the rules directory,
    in the order of their paths. *)
Lemma files_under (dir : path) (l : list (path * read_result)) :
  Forall (fun f => exists rel, fst f = dir ++ rel)
    (sorted (map (fun f => (dir ++ fst f, snd f)) l)).
Proof.
  apply Forall_sorted, List.Forall_forall.
  intros x [y [<- _]]%in_map_iff. now exists (fst y).
Qed.

Lemma validate_all_run (v : RuleValidator) (d : directory) :
  dir_exists d = true -> rglob d <> [] ->
  let files := sorted (map (fun f => (rules_dir v ++ fst f, snd f)) (rglob d)) in
  let v' := fold_left absorb (map (recorded (rules_dir v)) files) v in
  validate_all v d
  = Some (match errors v' with [] => true | _ :: _ => false end, v',
          OutValidating (length (rglob d))
          :: flat_map (file_status (rules_dir v)) files).
Proof.
  intros Hd Hne. cbv zeta. unfold validate_all. rewrite Hd. cbn [negb].
  destruct (rglob d) as [|f fs] eqn:Hfs; [now destruct Hne|].
  rewrite <- Hfs.
  destruct (map _ (rglob d)) as [|g gs] eqn:Hmap;
    [rewrite Hfs in Hmap; discriminate|].
  rewrite <- Hmap.
  rewrite (validate_each_fold (rules_dir v)) by (reflexivity || apply files_under).
  cbn [mbind option_bind]. now rewrite length_map.
Qed.

Lemma consistent_fold (dir : path) (files : list (path * read_result)) :
  forall v, rules_dir v = dir -> consistent v ->
    consistent (fold_left absorb (map (recorded dir) files) v)
    /\ total_files (stats (fold_left absorb (map (recorded dir) files) v))
       = total_files (stats v) + Z.of_nat (length files).
Proof.
  induction files as [|[p r] files IH]; intros v Hdir Hv.
  - simpl. split; [assumption|lia].
  - cbn [map fold_left].
    destruct (validate_file_frame v p r) as [_ Hsnd]. rewrite Hdir in Hsnd.
    rewrite <- Hsnd.
    destruct (IH (snd (validate_file v p r))) as [H1 H2].
    + rewrite Hsnd. exact Hdir.
    + now apply consistent_validate_file.
    + split; [assumption|]. rewrite H2.
      pose proof (validate_file_cases v p r) as [(m & H & _)|[m H]].
      * rewrite H. simpl. lia.
      * rewrite H.
        pose proof (validate_frontmatter_result (incr_total_files v) p m) as R.
        cbv zeta in R. destruct R as (_ & _ & _ & R4 & _). rewrite R4.
        simpl. lia.
Qed.

(** ** The order of the paths *)

(** A lexicographic comparison over a strict total order is one. *)
Section Lexicographic.
Context {A : Type} (ltb eqb : A -> A -> bool) (lex : list A -> list A -> bool).
Hypothesis eqb_eq : forall a b, eqb a b = true <-> a = b.
Hypothesis ltb_irrefl : forall a, ltb a a = false.
Hypothesis ltb_trans :
  forall a b c, ltb a b = true -> ltb b c = true -> ltb a c = true.
Hypothesis ltb_total : forall a b, ltb a b = false -> ltb b a = false -> a = b.
Hypothesis lex_equation :
  forall x y, lex x y = match x, y with
                        | _, [] => false
                        | [], _ :: _ => true
                        | a :: x', b :: y' => ltb a b || (eqb a b && lex x' y')
                        end.

Lemma eqb_refl' a : eqb a a = true.
Proof. now apply eqb_eq. Qed.

Lemma lex_irrefl x : lex x x = false.
Proof.
  induction x as [|a x IH]; rewrite lex_equation; [reflexivity|].
  now rewrite ltb_irrefl, IH, andb_false_r.
Qed.

Lemma lex_trans x : forall y z, lex x y = true -> lex y z = true -> lex x z = true.
Proof.
  induction x as [|a x IH]; intros [|b y] [|c z];
    rewrite (lex_equation _ (b :: y)) || rewrite (lex_equation _ []);
    try discriminate;
    rewrite ?(lex_equation _ (c :: z)), ?(lex_equation (b :: y) []);
    try discriminate; try reflexivity.
  intros [Hab|[Hab Hxy]%andb_prop]%orb_prop [Hbc|[Hbc Hyz]%andb_prop]%orb_prop.
  - now rewrite (ltb_trans a b c).
  - apply eqb_eq in Hbc. subst c. now rewrite Hab.
  - apply eqb_eq in Hab. subst b. now rewrite Hbc.
  - apply eqb_eq in Hab, Hbc. subst b c.
    rewrite eqb_refl', (IH y z) by assumption. apply orb_true_r.
Qed.

Lemma lex_total x : forall y, lex x y = false -> lex y x = false -> x = y.
Proof.
  induction x as [|a x IH]; intros [|b y];
    rewrite (lex_equation _ (b :: y)) || rewrite (lex_equation _ []);
    rewrite ?(lex_equation _ (a :: x)), ?(lex_equation _ []);
    try discriminate; try reflexivity.
  intros [Hab Hxy]%orb_false_iff [Hba Hyx]%orb_false_iff.
  assert (a = b) by now apply ltb_total. subst b.
  rewrite eqb_refl' in Hxy, Hyx. cbn [andb] in Hxy, Hyx.
  f_equal. now apply IH.
Qed.
End Lexicographic.

Lemma N_ltb_total (a b : N) : (a <? b)%N = false -> (b <? a)%N = false -> a = b.
Proof. intros H1%N.ltb_ge H2%N.ltb_ge. lia. Qed.

Lemma N_ltb_trans (a b c : N) :
  (a <? b)%N = true -> (b <? c)%N = true -> (a <? c)%N = true.
Proof. intros H1%N.ltb_lt H2%N.ltb_lt. apply N.ltb_lt. lia. Qed.

Lemma str_ltb_equation (x y : str) :
  str_ltb x y = match x, y with
                | _, [] => false
                | [], _ :: _ => true
                | a :: x', b :: y' => (a <? b)%N || ((a =? b)%N && str_ltb x' y')
                end.
Proof. now destruct x, y. Qed.

Lemma path_ltb_equation (x y : path) :
  path_ltb x y = match x, y with
                 | _, [] => false
                 | [], _ :: _ => true
                 | a :: x', b :: y' => str_ltb a b || (str_eqb a b && path_ltb x' y')
                 end.
Proof. now destruct x, y. Qed.

Lemma str_ltb_irrefl (x : str) : str_ltb x x = false.
Proof.
  apply (lex_irrefl N.ltb N.eqb str_ltb);
    first [exact N.eqb_eq | exact N.ltb_irrefl | exact N_ltb_trans
          | exact N_ltb_total | exact str_ltb_equation].
Qed.

Lemma str_ltb_trans (x y z : str) :
  str_ltb x y = true -> str_ltb y z = true -> str_ltb x z = true.
Proof.
  apply (lex_trans N.ltb N.eqb str_ltb);
    first [exact N.eqb_eq | exact N.ltb_irrefl | exact N_ltb_trans
          | exact N_ltb_total | exact str_ltb_equation].
Qed.

Lemma str_ltb_total (x y : str) :
  str_ltb x y = false -> str_ltb y x = false -> x = y.
Proof.
  apply (lex_total N.ltb N.eqb str_ltb);
    first [exact N.eqb_eq | exact N.ltb_irrefl | exact N_ltb_trans
          | exact N_ltb_total | exact str_ltb_equation].
Qed.

Lemma path_ltb_irrefl (x : path) : path_ltb x x = false.
Proof.
  apply (lex_irrefl str_ltb str_eqb path_ltb);
    first [exact str_eqb_eq | exact str_ltb_irrefl | exact str_ltb_trans
          | exact str_ltb_total | exact path_ltb_equation].
Qed.

Lemma path_ltb_trans (x y z : path) :
  path_ltb x y = true -> path_ltb y z = true -> path_ltb x z = true.
Proof.
  apply (lex_trans str_ltb str_eqb path_ltb);
    first [exact str_eqb_eq | exact str_ltb_irrefl | exact str_ltb_trans
          | exact str_ltb_total | exact path_ltb_equation].
Qed.

Lemma path_ltb_total (x y : path) :
  path_ltb x y = false -> path_ltb y x = false -> x = y.
Proof.
  apply (lex_total str_ltb str_eqb path_ltb);
    first [exact str_eqb_eq | exact str_ltb_irrefl | exact str_ltb_trans
          | exact str_ltb_total | exact path_ltb_equation].
Qed.

Lemma path_ltb_asym (x y : path) : path_ltb x y = true -> path_ltb y x = false.
Proof.
  intros H. destruct (path_ltb y x) eqn:E; [|reflexivity].
  pose proof (path_ltb_trans x y x H E) as Hxx.
  now rewrite path_ltb_irrefl in Hxx.
Qed.

(** Not after: the order [sorted] leaves the files in. *)
Lemma not_after_trans (x y z : path) :
  path_ltb y x = false -> path_ltb z y = false -> path_ltb z x = false.
Proof.
  intros Hyx Hzy. destruct (path_ltb z x) eqn:Hzx; [|reflexivity].
  destruct (path_ltb x y) eqn:Hxy.
  - now rewrite (path_ltb_trans z x y Hzx Hxy) in Hzy.
  - assert (x = y) by now apply path_ltb_total. subst y. congruence.
Qed.

(** ** [sorted] *)

Lemma insert_sorted_perm x l : Permutation (insert_sorted x l) (x :: l).
Proof.
  induction l as [|y l IH]; simpl; [reflexivity|].
  destruct (path_ltb _ _); [|reflexivity].
  rewrite IH. apply perm_swap.
Qed.

Lemma sorted_perm l : Permutation (sorted l) l.
Proof.
  induction l as [|x l IH]; simpl; [constructor|].
  rewrite insert_sorted_perm. now constructor.
Qed.

Lemma insert_sorted_ordered x l :
  StronglySorted (fun a b => file_ltb b a = false) l ->
  StronglySorted (fun a b => file_ltb b a = false) (insert_sorted x l).
Proof.
  induction 1 as [|y l Hl IH Hy]; simpl.
  - constructor; constructor.
  - unfold file_ltb in *. destruct (path_ltb (fst y) (fst x)) eqn:E.
    + constructor; [assumption|].
      apply Forall_insert_sorted; [now apply path_ltb_asym|assumption].
    + constructor; [now constructor|].
      constructor; [assumption|].
      rewrite List.Forall_forall in Hy. apply List.Forall_forall.
      intros z Hz. apply (not_after_trans (fst x) (fst y) (fst z) E), Hy, Hz.
Qed.

Lemma sorted_ordered l : StronglySorted (fun a b => file_ltb b a = false) (sorted l).
Proof.
  induction l as [|x l IH]; simpl; [constructor|].
  now apply insert_sorted_ordered.
Qed.

(** Two ordered lists of the same files, no two of them with the same
    path, are one list. *)
Lemma ordered_unique (l1 : list (path * read_result)) :
  forall l2,
    StronglySorted (fun a b => file_ltb b a = false) l1 ->
    StronglySorted (fun a b => file_ltb b a = false) l2 ->
    Permutation l1 l2 -> List.NoDup (map fst l1) -> l1 = l2.
Proof.
  induction l1 as [|x l1 IH]; intros l2 H1 H2 Hp Hn.
  - apply Permutation_nil in Hp. now subst.
  - destruct l2 as [|y l2]; [now apply Permutation_sym, Permutation_nil in Hp|].
    apply StronglySorted_inv in H1, H2.
    destruct H1 as [H1 Hx], H2 as [H2 Hy].
    cbn [map] in Hn. apply List.NoDup_cons_iff in Hn. destruct Hn as [Hnx Hn].
    assert (Hxy : x = y).
    { assert (Hin1 : In x (y :: l2))
        by (eapply Permutation_in; [exact Hp|now left]).
      assert (Hin2 : In y (x :: l1))
        by (eapply Permutation_in; [apply Permutation_sym; exact Hp|now left]).
      destruct Hin1 as [->|Hin1]; [reflexivity|].
      destruct Hin2 as [->|Hin2]; [reflexivity|].
      exfalso. apply Hnx.
      rewrite List.Forall_forall in Hx, Hy.
      assert (fst x = fst y)
        by (apply path_ltb_total; [apply (Hy x Hin1)|apply (Hx y Hin2)]).
      rewrite H. now apply in_map. }
    subst y. f_equal. apply IH; try assumption.
    now apply Permutation_cons_inv in Hp.
Qed.

Lemma NoDup_map_under (dir : path) (l : list (path * read_result)) :
  List.NoDup (map fst l) ->
  List.NoDup (map fst (map (fun f => (dir ++ fst f, snd f)) l)).
Proof.
  induction l as [|x l IH]; simpl; intros H; [constructor|].
  apply List.NoDup_cons_iff in H. destruct H as [Hx H].
  constructor; [|now apply IH].
  intros Hin. apply Hx. rewrite map_map in Hin. cbn [fst] in Hin.
  apply in_map_iff in Hin. destruct Hin as (y & Hy & Hin).
  apply app_inv_head in Hy. rewrite <- Hy. now apply in_map.
Qed.

Lemma sorted_permutation (dir : path) (l l' : list (path * read_result)) :
  Permutation l l' -> List.NoDup (map fst l) ->
  sorted (map (fun f => (dir ++ fst f, snd f)) l)
  = sorted (map (fun f => (dir ++ fst f, snd f)) l').
Proof.
  intros Hp Hn. apply ordered_unique.
  - apply sorted_ordered.
  - apply sorted_ordered.
  - rewrite !sorted_perm. now apply Permutation_map.
  - eapply Permutation_NoDup; [apply Permutation_map, Permutation_sym, sorted_perm|].
    now apply NoDup_map_under.
Qed.

(** X8.  A run over a directory that holds rule files validates every file
    once, in the order of the paths: the errors and the warnings are those
    of each file by itself, one file after the other, the status lines
    are those of the valid files in the same order after the line that
    announces the number of files, and the report follows. *)
Theorem run_in_path_order (d : directory) :
  dir_exists d = true -> rglob d <> [] ->
  let dir := default_rules_dir in
  let files := sorted (map (fun f => (dir ++ fst f, snd f)) (rglob d)) in
  exists code v,
    main d = Some (code, v,
                   OutValidating (length (rglob d))
                   :: flat_map (file_status dir) files ++ print_report v)
    /\ errors v = flat_map (fun f => errors (recorded dir f)) files
    /\ warnings v = flat_map (fun f => warnings (recorded dir f)) files
    /\ Permutation files (map (fun f => (dir ++ fst f, snd f)) (rglob d))
    /\ StronglySorted (fun a b => path_ltb (fst b) (fst a) = false) files.
Proof.
  intros Hd Hne. cbv zeta. unfold main.
  rewrite (validate_all_run (init default_rules_dir) d Hd Hne). cbv zeta.
  cbn [mbind option_bind rules_dir init].
  do 2 eexists. split; [reflexivity|].
  destruct (errors_fold_absorb
    (map (recorded default_rules_dir)
       (sorted (map (fun f => (default_rules_dir ++ fst f, snd f)) (rglob d))))
    (init default_rules_dir)) as (He & Hw & _).
  fold (init default_rules_dir).
  rewrite He, Hw. simpl errors. simpl warnings. cbn [app].
  rewrite !flat_map_concat_map, !map_map.
  split; [reflexivity|]. split; [reflexivity|].
  split; [apply sorted_perm|apply sorted_ordered].
Qed.

Lemma run_in_path_order_witness :
  let b := ([s "b.mdc"], ReadError (s "denied")) in
  let a := ([s "a.mdc"], Content (s "no header")) in
  exists code v,
    main (mkDirectory true [b; a])
    = Some (code, v,
            OutValidating 2 :: print_report v)
    /\ errors v = [ErrNoFrontmatter (default_rules_dir ++ [s "a.mdc"]);
                   ErrUnreadable (default_rules_dir ++ [s "b.mdc"]) (s "denied")].
Proof.
  cbv zeta.
  destruct (run_in_path_order
              (mkDirectory true [([s "b.mdc"], ReadError (s "denied"));
                                 ([s "a.mdc"], Content (s "no header"))])
              eq_refl ltac:(discriminate)) as (code & v & Hmain & He & _).
  exists code, v. split; [exact Hmain|exact He].
Defined.

(** X9.  The run does not depend on the order in which the directory is
    listed: two listings of the same files, no two with the same path,
    give the same exit status, the same object and the same output. *)
Theorem run_independent_of_listing_order (d d' : directory) :
  dir_exists d = dir_exists d' ->
  Permutation (rglob d) (rglob d') ->
  List.NoDup (map fst (rglob d)) ->
  main d = main d'.
Proof.
  intros He Hp Hn. unfold main, validate_all. rewrite <- He.
  destruct (negb (dir_exists d)); [reflexivity|].
  cbn [rules_dir init].
  rewrite (sorted_permutation default_rules_dir _ _ Hp Hn).
  rewrite !length_map, (Permutation_length Hp).
  destruct (rglob d) as [|f fs].
  - apply Permutation_nil in Hp. now rewrite Hp.
  - destruct (rglob d') as [|f' fs'];
      [now apply Permutation_sym, Permutation_nil in Hp|].
    reflexivity.
Qed.

Lemma run_independent_of_listing_order_witness :
  let a := ([s "a.mdc"], Content (opening ++ s "description: d" ++ [NL]
                                  ++ s "alwaysApply: false" ++ closing)) in
  let b := ([s "b.mdc"], ReadError (s "denied")) in
  main (mkDirectory true [a; b]) = main (mkDirectory true [b; a]).
Proof.
  cbv zeta. apply run_independent_of_listing_order.
  - reflexivity.
  - apply perm_swap.
  - simpl. repeat constructor; simpl; intuition discriminate.
Defined.

(** X10.  At the end of a run over a directory that holds rule files the
    total is the number of files found, and the counters and the lists
    are consistent: total = valid + invalid, each missing-property
    counter is at most the invalid counter, the number of errors is
    between the invalid counter and twice it, and there are at most as
    many warnings as files. *)
Theorem run_counts_every_file (d : directory) :
  dir_exists d = true -> rglob d <> [] ->
  exists code v out,
    main d = Some (code, v, out)
    /\ total_files (stats v) = Z.of_nat (length (rglob d))
    /\ consistent v.
Proof.
  intros Hd Hne. unfold main.
  rewrite (validate_all_run (init default_rules_dir) d Hd Hne). cbv zeta.
  cbn [mbind option_bind rules_dir init].
  do 3 eexists. split; [reflexivity|].
  fold (init default_rules_dir).
  destruct (consistent_fold default_rules_dir
              (sorted (map (fun f => (default_rules_dir ++ fst f, snd f)) (rglob d)))
              (init default_rules_dir) eq_refl (consistent_init _)) as [H1 H2].
  split; [|exact H1].
  rewrite H2, sorted_length, length_map. simpl. lia.
Qed.

Lemma run_counts_every_file_witness :
  exists code v out,
    main (mkDirectory true [([s "a.mdc"], ReadError (s "denied"))])
    = Some (code, v, out)
    /\ total_files (stats v) = 1 /\ consistent v.
Proof.
  exact (run_counts_every_file
           (mkDirectory true [([s "a.mdc"], ReadError (s "denied"))])
           eq_refl ltac:(discriminate)).
Defined.

(** ** The report *)

Lemma items_app (x y : list line) : items (x ++ y) = items x ++ items y.
Proof.
  induction x as [|l x IH]; [reflexivity|].
  destruct l; simpl; rewrite IH; reflexivity.
Qed.

Lemma items_map (l : list message) : items (map OutItem l) = l.
Proof. induction l as [|m l IH]; simpl; [reflexivity|now rewrite IH]. Qed.

Lemma in_map_OutItem (x : line) (l : list message) :
  In x (map OutItem l) -> exists m, x = OutItem m.
Proof. intros (m & <- & _)%in_map_iff. now exists m. Qed.

(** The report is the statistics, the two lists and the closing message. *)
Lemma print_report_parts (v : RuleValidator) :
  exists head tail,
    print_report v = head ++ tail
    /\ items head = []
    /\ (forall n, ~ In (OutErrors n) head)
    /\ (forall n, ~ In (OutWarnings n) head)
    /\ tail
       = (match errors v with
          | [] => []
          | _ :: _ => OutErrors (length (errors v)) :: map OutItem (errors v)
          end)
         ++ (match warnings v with
             | [] => []
             | _ :: _ => OutWarnings (length (warnings v)) :: map OutItem (warnings v)
             end)
         ++ [match errors v, warnings v with
             | [], [] => OutAllReadable
             | [], _ :: _ => OutValidWithWarnings
             | _ :: _, _ => OutMustBeFixed
             end; OutRule].
Proof.
  unfold print_report.
  match goal with |- context [?a ++ ?b ++ ?c ++ ?d ++ ?e ++ ?f ++ ?g ++ ?h] =>
    exists (a ++ b ++ c ++ d), (e ++ f ++ g ++ h)
  end.
  split; [now rewrite <- !app_assoc|].
  split; [|split; [|split; [|reflexivity]]].
  - rewrite !items_app.
    destruct (0 <? _), (0 <? _), (0 <? _); reflexivity.
  - intros n. rewrite !in_app_iff.
    destruct (0 <? _), (0 <? _), (0 <? _); simpl; intuition discriminate.
  - intros n. rewrite !in_app_iff.
    destruct (0 <? _), (0 <? _), (0 <? _); simpl; intuition discriminate.
Qed.

(** X11.  The report lists every recorded error and then every recorded
    warning, once each and in the order they were recorded; the errors
    and the warnings each come under a header with their number, which
    is printed only when there is at least one. *)
Theorem report_lists_every_message (v : RuleValidator) :
  items (print_report v) = errors v ++ warnings v
  /\ (forall n, In (OutErrors n) (print_report v)
                <-> errors v <> [] /\ n = length (errors v))
  /\ (forall n, In (OutWarnings n) (print_report v)
                <-> warnings v <> [] /\ n = length (warnings v)).
Proof.
  destruct (print_report_parts v) as (head & tail & -> & Hitems & He & Hw & ->).
  split; [|split].
  - rewrite !items_app, Hitems.
    destruct (errors v) as [|e es], (warnings v) as [|w ws]; simpl;
      rewrite ?items_app, ?items_map, ?app_nil_r; simpl;
      rewrite ?items_map; reflexivity.
  - intros n. rewrite !in_app_iff. split.
    + intros [H|[H|[H|H]]].
      * now apply He in H.
      * destruct (errors v) as [|e es]; [destruct H|].
        destruct H as [[= <-]|H]; [split; [discriminate|reflexivity]|].
        apply in_map_OutItem in H. destruct H as [m H]. discriminate.
      * destruct (warnings v) as [|w ws]; [destruct H|].
        destruct H as [H|H]; [discriminate|].
        apply in_map_OutItem in H. destruct H as [m H]. discriminate.
      * destruct H as [H|[H|[]]]; [|discriminate].
        destruct (errors v), (warnings v); discriminate.
    + intros [Hne ->]. right. left.
      destruct (errors v); [now destruct Hne|]. now left.
  - intros n. rewrite !in_app_iff. split.
    + intros [H|[H|[H|H]]].
      * now apply Hw in H.
      * destruct (errors v) as [|e es]; [destruct H|].
        destruct H as [H|H]; [discriminate|].
        apply in_map_OutItem in H. destruct H as [m H]. discriminate.
      * destruct (warnings v) as [|w ws]; [destruct H|].
        destruct H as [[= <-]|H]; [split; [discriminate|reflexivity]|].
        apply in_map_OutItem in H. destruct H as [m H]. discriminate.
      * destruct H as [H|[H|[]]]; [|discriminate].
        destruct (errors v), (warnings v); discriminate.
    + intros [Hne ->]. right. right. left.
      destruct (warnings v); [now destruct Hne|]. now left.
Qed.

(** X12.  The output of every run ends with the closing message of the
    report and a rule, and the closing message agrees with the exit
    status: status 1 comes with the message that errors must be fixed,
    status 0 with one of the two messages of success, the one without
    reserve exactly when no warning was recorded either. *)
Theorem exit_status_matches_closing_message (d : directory) :
  exists code v before closing_message,
    main d = Some (code, v, before ++ [closing_message; OutRule])
    /\ (code = 1 <-> closing_message = OutMustBeFixed)
    /\ (code = 0 <-> closing_message = OutAllReadable
                     \/ closing_message = OutValidWithWarnings)
    /\ (closing_message = OutAllReadable <-> errors v = [] /\ warnings v = []).
Proof.
  unfold main.
  destruct (validate_all_defined (init default_rules_dir) d)
    as (is_valid & v & out & -> & _ & Hflag & _).
  specialize (Hflag eq_refl). cbn [mbind option_bind].
  destruct (print_report_parts v) as (head & tail & -> & _ & _ & _ & ->).
  exists (if is_valid then 0 else 1), v.
  match goal with |- context [?E ++ ?W ++ [?c; OutRule]] =>
    exists (out ++ head ++ E ++ W), c
  end.
  split; [now rewrite <- !app_assoc|].
  destruct is_valid.
  - rewrite (proj1 Hflag eq_refl).
    destruct (warnings v) as [|w ws].
    + split; [split; discriminate|].
      split; [split; [intros _; now left|reflexivity]|].
      split; auto.
    + split; [split; discriminate|].
      split; [split; [intros _; now right|reflexivity]|].
      split; [discriminate|]. intros [_ H]. discriminate.
  - destruct (errors v) as [|e es]; [now pose proof (proj2 Hflag eq_refl)|].
    split; [split; reflexivity|].
    split; [split; [discriminate|intros [H|H]; discriminate]|].
    split; [discriminate|]. intros [H _]. discriminate.
Qed.

(** X13.  When the rules directory is missing or holds no rule file the
    run validates nothing: the counters stay at zero, the line that
    announces the files is not printed, and the output is the report
    with the one error. *)
Theorem run_without_files (d : directory) :
  dir_exists d = false \/ rglob d = [] ->
  let e := if dir_exists d then ErrNoMdcFiles default_rules_dir
           else ErrNoRulesDir default_rules_dir in
  main d
  = Some (1, mkValidator default_rules_dir [e] [] (mkStats 0 0 0 0 0 0),
          [OutRule; OutTitle; OutRule; OutStatistics;
           OutTotal 0; OutValid 0; OutInvalid 0;
           OutErrors 1; OutItem e; OutMustBeFixed; OutRule]).
Proof.
  intros H. cbv zeta. unfold main, validate_all.
  destruct (dir_exists d); cbn [negb]; [|reflexivity].
  destruct H as [H|H]; [discriminate|]. now rewrite H.
Qed.

Lemma run_without_files_witness :
  main (mkDirectory true [])
  = Some (1, mkValidator default_rules_dir [ErrNoMdcFiles default_rules_dir] []
               (mkStats 0 0 0 0 0 0),
          [OutRule; OutTitle; OutRule; OutStatistics;
           OutTotal 0; OutValid 0; OutInvalid 0;
           OutErrors 1; OutItem (ErrNoMdcFiles default_rules_dir);
           OutMustBeFixed; OutRule]).
Proof. exact (run_without_files (mkDirectory true []) (or_intror eq_refl)). Defined.

(** ** More on the matcher *)

Section GreedyFacts.
Context (fl : flags) {R : Type}.

(** A greedy repetition that succeeds has given the continuation some
    split of the text after a run of the repeated item. *)
Lemma star_greedy_Some a p (x : str) (k : option char -> str -> option R) r :
  star_greedy fl a p x k = Some r ->
  exists u y, x = u ++ y
    /\ Forall (fun c => atom_match fl a c = true) u
    /\ k (prev_after p u) y = Some r.
Proof.
  revert p. induction x as [|c x IH]; intros p; simpl.
  - intros H. exists [], []. repeat split; [constructor|assumption].
  - destruct (atom_match fl a c) eqn:Hc.
    + destruct (star_greedy fl a (Some c) x k) as [r'|] eqn:E.
      * intros [= ->]. destruct (IH _ E) as (u & y & -> & Hu & Hk).
        exists (c :: u), y. repeat split; [now constructor|assumption].
      * intros H. exists [], (c :: x). repeat split; [constructor|assumption].
    + intros H. exists [], (c :: x). repeat split; [constructor|assumption].
Qed.

(** When the continuation fails after every run, the repetition fails. *)
Lemma star_greedy_None a p (x : str) (k : option char -> str -> option R) :
  (forall u y, x = u ++ y -> k (prev_after p u) y = None) ->
  star_greedy fl a p x k = None.
Proof.
  revert p. induction x as [|c x IH]; intros p H; simpl.
  - apply (H [] [] eq_refl).
  - rewrite IH by (intros u y ->; apply (H (c :: u) y eq_refl)).
    pose proof (H [] (c :: x) eq_refl) as H0. cbn in H0.
    rewrite H0. now destruct (atom_match fl a c).
Qed.

(** Giving characters back: the continuation is tried after shorter and
    shorter runs, and the first that succeeds decides. *)
Lemma star_greedy_all_fail a p (u y : str) (k : option char -> str -> option R) :
  Forall (fun c => atom_match fl a c = true) u ->
  match y with c :: _ => atom_match fl a c = false | [] => True end ->
  (forall v1 v2, u = v1 ++ v2 -> v1 <> [] ->
     k (prev_after p v1) (v2 ++ y) = None) ->
  star_greedy fl a p (u ++ y) k = k p (u ++ y).
Proof.
  intros Hu Hy. revert p. induction Hu as [|c u Hc Hu IH]; intros p Hfail.
  - cbn [app]. destruct y as [|c y]; [reflexivity|]. simpl. now rewrite Hy.
  - cbn [app star_greedy]. rewrite Hc, IH.
    + pose proof (Hfail [c] u eq_refl ltac:(discriminate)) as H0. cbn in H0.
      now rewrite H0.
    + intros v1 v2 -> Hv1. apply (Hfail (c :: v1) v2 eq_refl). discriminate.
Qed.

Lemma star_greedy_backtrack a p (u1 u2 y : str)
    (k : option char -> str -> option R) r :
  Forall (fun c => atom_match fl a c = true) (u1 ++ u2) ->
  match y with c :: _ => atom_match fl a c = false | [] => True end ->
  (forall v1 v2, u2 = v1 ++ v2 -> v1 <> [] ->
     k (prev_after p (u1 ++ v1)) (v2 ++ y) = None) ->
  k (prev_after p u1) (u2 ++ y) = Some r ->
  star_greedy fl a p (u1 ++ u2 ++ y) k = Some r.
Proof.
  revert p. induction u1 as [|c u1 IH]; intros p Hu Hy Hfail Hk.
  - cbn [app] in *. rewrite star_greedy_all_fail; assumption.
  - cbn [app] in Hu. inversion Hu as [|? ? Hc Hu']; subst.
    cbn [app star_greedy]. rewrite Hc.
    now rewrite (IH (Some c) Hu' Hy Hfail Hk).
Qed.
End GreedyFacts.

(** ** The description, from the key on *)

Lemma description_match_at p (ws : str) (c : char) (line rest : str) :
  at_bol fl_description p = true ->
  all_space ws -> isspace c = false -> ~ In NL (c :: line) -> line_end rest ->
  exists q,
    match_at fl_description (Seq Bol (Seq (Lit description_key) description_tail))
      p (description_key ++ ws ++ (c :: line) ++ rest)
    = Some (Match (Some (c :: line)) rest, q).
Proof.
  intros Hp Hws Hc Hline Hrest.
  rewrite keyed_match_at, Hp, lit_prefix_self by reflexivity.
  now apply description_tail_found.
Qed.

(** X14.  The description is read from the first line that begins with
    the key: it is the text from the first character after the key that
    is not white space up to the end of that character's line, stripped
    and with one layer of quotes removed; the white space after the key
    may hold line feeds, so that a key without a value takes the text of
    a following line. *)
Theorem description_is_text_after_first_key (ls : list str) (ws : str)
    (c : char) (line rest : str) :
  Forall (other_line description_key) ls ->
  all_space ws -> isspace c = false -> ~ In NL (c :: line) -> line_end rest ->
  parse_description
    (join_lines ls ++ description_key ++ ws ++ (c :: line) ++ rest)
  = PStr (unquote (strip (c :: line))).
Proof.
  intros Hls Hws Hc Hline Hrest. unfold parse_description, re_search.
  rewrite re_description_keyed.
  destruct (search_skip_lines fl_description description_key description_tail
              eq_refl eq_refl description_key_one_line ls None
              (description_key ++ ws ++ (c :: line) ++ rest) Hls eq_refl)
    as (p' & Hp' & ->).
  destruct (description_match_at p' ws c line rest Hp' Hws Hc Hline Hrest)
    as [q Hm].
  now rewrite (search_from_here _ _ _ _ _ _ Hm).
Qed.

Lemma description_is_text_after_first_key_witness :
  parse_description (s "description:" ++ [NL] ++ s "alwaysApply: true")
  = PStr (s "alwaysApply: true")
  /\ parse_description (s "globs: []" ++ [NL] ++ s "description:  "
                        ++ [DQ] ++ s " a rule " ++ [DQ] ++ [32%N; NL]
                        ++ s "alwaysApply: true")
     = PStr (s " a rule ").
Proof.
  split.
  - exact (description_is_text_after_first_key [] [NL] 97%N
             (s "lwaysApply: true") []
             ltac:(constructor) ltac:(repeat constructor) eq_refl
             ltac:(vm_compute; intuition discriminate) ltac:(now left)).
  - exact (description_is_text_after_first_key [s "globs: []"] [32%N; 32%N] DQ
             (s " a rule " ++ [DQ; 32%N]) (NL :: s "alwaysApply: true")
             ltac:(repeat constructor; vm_compute; intuition discriminate)
             ltac:(repeat constructor) eq_refl
             ltac:(vm_compute; intuition discriminate)
             ltac:(right; eexists; reflexivity)).
Defined.

(** ** A description key without a value *)

(** Line feeds only: the lines are empty. *)
Lemma line_feeds_lines (nls : str) :
  Forall (eq NL) nls -> nls = join_lines (map (fun _ => []) nls).
Proof.
  induction 1 as [|c nls <- _ IH]; [reflexivity|].
  cbn [map join_lines concat app]. f_equal. exact IH.
Qed.

Lemma empty_lines_other (key : str) (nls : str) :
  key <> [] -> Forall (other_line key) (map (fun _ => []) nls).
Proof.
  intros Hk. apply List.Forall_forall. intros l [c [<- _]]%in_map_iff.
  split; [intros []|]. now destruct key.
Qed.

Lemma Forall_suffix {A : Type} (P : A -> Prop) (u y : list A) :
  Forall P (u ++ y) -> Forall P y.
Proof. intros H. apply Forall_app in H. tauto. Qed.

Lemma line_feeds_space (nls : str) : Forall (eq NL) nls -> all_space nls.
Proof. induction 1 as [|c nls <- _ IH]; constructor; [reflexivity|exact IH]. Qed.

Lemma description_no_value_match_at p (nls : str) :
  Forall (eq NL) nls ->
  match_at fl_description (Seq Bol (Seq (Lit description_key) description_tail))
    p (description_key ++ nls) = None.
Proof.
  intros Hn. rewrite keyed_match_at.
  destruct (at_bol fl_description p); [|reflexivity].
  rewrite lit_prefix_self by reflexivity.
  unfold description_tail. cbn [exec star].
  apply star_greedy_None. intros u y ->.
  apply Forall_suffix in Hn. destruct Hn as [|c y <- _]; reflexivity.
Qed.

Lemma description_blank_match_at p (w1 : str) (c : char) (nls : str) :
  at_bol fl_description p = true ->
  all_space w1 -> isspace c = true -> c <> NL -> Forall (eq NL) nls ->
  exists q,
    match_at fl_description (Seq Bol (Seq (Lit description_key) description_tail))
      p (description_key ++ w1 ++ c :: nls)
    = Some (Match (Some [c]) nls, q).
Proof.
  intros Hp Hw1 Hc Hnl Hn.
  rewrite keyed_match_at, Hp, lit_prefix_self by reflexivity.
  unfold description_tail. cbn [exec star]. eexists.
  replace (w1 ++ c :: nls) with (w1 ++ (c :: nls) ++ []) by now rewrite app_nil_r.
  apply star_greedy_backtrack.
  - apply Forall_app. split; [exact Hw1|].
    constructor; [exact Hc|now apply line_feeds_space].
  - exact I.
  - intros v1 v2 Hv Hv1. rewrite app_nil_r.
    destruct v1 as [|c1 v1]; [contradiction|].
    injection Hv as _ Hv. rewrite Hv in Hn. apply Forall_suffix in Hn.
    destruct Hn as [|c' y <- _]; reflexivity.
  - rewrite app_nil_r. cbn [exec].
    assert (Hany : atom_match fl_description Any c = true).
    { cbn. destruct (N.eqb_spec c NL); [contradiction|reflexivity]. }
    rewrite Hany. cbn [star].
    assert (Hstop : star_greedy fl_description Any (Some c) nls
              (fun p' x' =>
                 if at_eol fl_description x'
                 then Some (Match (Some (firstn (length (c :: nls) - length x')
                                           (c :: nls))) x', p')
                 else None)
            = Some (Match (Some [c]) nls, Some c)).
    { destruct Hn as [|c' nls <- _].
      - reflexivity.
      - cbn [star_greedy atom_match fl_description DOTALL orb negb N.eqb].
        change (NL =? NL)%N with true.
        cbn [negb at_eol fl_description MULTILINE].
        change (NL =? NL)%N with true. cbn [andb orb].
        replace (length (c :: NL :: nls) - length (NL :: nls))%nat with 1%nat
          by (cbn [length]; lia).
        reflexivity. }
    exact Hstop.
Qed.

(** X15.  A description key followed by nothing but white space up to the
    end of the header block: when that white space holds a character
    other than the line feed the description is the empty string (the
    blank-description error, which leaves the missing-description counter
    alone), and when it holds line feeds only, or nothing, the
    description is absent. *)
Theorem description_key_without_value (file_path : path) (ls : list str)
    (w1 : str) (c : char) (nls : str) :
  Forall (other_line description_key) ls ->
  all_space w1 -> isspace c = true -> c <> NL -> Forall (eq NL) nls ->
  (parse_description (join_lines ls ++ description_key ++ w1 ++ c :: nls)
   = PStr []
   /\ description_errors file_path
        (parse_description (join_lines ls ++ description_key ++ w1 ++ c :: nls))
      = [ErrEmptyDescription file_path])
  /\ (parse_description (join_lines ls ++ description_key ++ nls) = PNone
      /\ description_errors file_path
           (parse_description (join_lines ls ++ description_key ++ nls))
         = [ErrNoDescription file_path]).
Proof.
  intros Hls Hw1 Hc Hnl Hn.
  assert (Hblank : parse_description
                     (join_lines ls ++ description_key ++ w1 ++ c :: nls)
                   = PStr []).
  { unfold parse_description, re_search. rewrite re_description_keyed.
    destruct (search_skip_lines fl_description description_key description_tail
                eq_refl eq_refl description_key_one_line ls None
                (description_key ++ w1 ++ c :: nls) Hls eq_refl)
      as (p' & Hp' & ->).
    destruct (description_blank_match_at p' w1 c nls Hp' Hw1 Hc Hnl Hn) as [q Hm].
    rewrite (search_from_here _ _ _ _ _ _ Hm).
    unfold group. cbn [group1]. unfold strip. cbn [lstrip]. now rewrite Hc. }
  assert (Habsent : parse_description (join_lines ls ++ description_key ++ nls)
                    = PNone).
  { unfold parse_description, re_search. rewrite re_description_keyed.
    destruct (search_skip_lines fl_description description_key description_tail
                eq_refl eq_refl description_key_one_line ls None
                (description_key ++ nls) Hls eq_refl)
      as (p' & Hp' & ->).
    assert (Hnone : search_from fl_description
              (Seq Bol (Seq (Lit description_key) description_tail)) p'
              (description_key ++ nls) = None).
    { destruct Hn as [|c' nls <- Hn].
      - rewrite app_nil_r.
        apply (search_last_line fl_description description_key description_tail);
          [exact description_key_one_line|].
        rewrite <- (app_nil_r description_key).
        apply description_no_value_match_at. constructor.
      - rewrite (search_skip_line fl_description description_key description_tail
                   p' description_key nls description_key_one_line).
        + rewrite (line_feeds_lines nls Hn) at 1.
          rewrite <- (app_nil_r (join_lines _)).
          apply (search_absent fl_description description_key description_tail
                   eq_refl eq_refl description_key_one_line).
          * apply empty_lines_other. discriminate.
          * split; [intros []|reflexivity].
          * reflexivity.
        + apply description_no_value_match_at. now constructor. }
    now rewrite Hnone. }
  rewrite Hblank, Habsent. repeat split.
Qed.

Lemma description_key_without_value_witness :
  parse_description (s "alwaysApply: true" ++ [NL] ++ s "description:  ")
  = PStr []
  /\ parse_description (s "alwaysApply: true" ++ [NL] ++ s "description:" ++ [NL])
     = PNone.
Proof.
  destruct (description_key_without_value [] [s "alwaysApply: true"] [32%N]
              32%N [NL]
              ltac:(repeat constructor; vm_compute; intuition discriminate)
              ltac:(repeat constructor) eq_refl ltac:(discriminate)
              ltac:(repeat constructor)) as [[H1 _] [H2 _]].
  split; [|exact H2].
  destruct (description_key_without_value [] [s "alwaysApply: true"] [32%N]
              32%N []
              ltac:(repeat constructor; vm_compute; intuition discriminate)
              ltac:(repeat constructor) eq_refl ltac:(discriminate)
              ltac:(constructor)) as [[H3 _] _].
  exact H3.
Defined.

(** ** What a parsed description is made of *)

(** [x] is a piece of [y]. *)
Lemma piece_refl (x : str) : piece x x.
Proof. exists [], []. now rewrite app_nil_r. Qed.

Lemma piece_trans (x y z : str) : piece x y -> piece y z -> piece x z.
Proof.
  intros (a & b & ->) (a' & b' & ->). exists (a' ++ a), (b ++ b').
  now rewrite <- !app_assoc.
Qed.

Lemma piece_in (x y : str) (c : char) : piece x y -> In c x -> In c y.
Proof.
  intros (a & b & ->) H. apply in_or_app. right. apply in_or_app. now left.
Qed.

Lemma piece_lstrip (x : str) : piece (lstrip x) x.
Proof.
  destruct (lstrip_split x) as (ws & Hx & _). exists ws, [].
  now rewrite app_nil_r.
Qed.

Lemma piece_rstrip (x : str) : piece (rstrip x) x.
Proof. destruct (rstrip_prefix x) as [t Hx]. now exists [], t. Qed.

Lemma piece_strip (x : str) : piece (strip x) x.
Proof.
  unfold strip. eapply piece_trans; [apply piece_rstrip|apply piece_lstrip].
Qed.

Lemma piece_removelast (x : str) : piece (removelast x) x.
Proof.
  destruct x as [|c x] using rev_ind; [apply piece_refl|].
  rewrite removelast_snoc. now exists [], [c].
Qed.

Lemma piece_slice_1_m1 (x : str) : piece (slice_1_m1 x) x.
Proof.
  unfold slice_1_m1. eapply piece_trans; [apply piece_removelast|].
  destruct x as [|c x]; [apply piece_refl|]. exists [c], [].
  now rewrite app_nil_r.
Qed.

Lemma piece_unquote (x : str) : piece (unquote x) x.
Proof.
  unfold unquote.
  destruct (_ && _); [apply piece_slice_1_m1|].
  destruct (_ && _); [apply piece_slice_1_m1|apply piece_refl].
Qed.

Lemma firstn_cons_app (c : char) (u y : str) :
  firstn (S (length (u ++ y)) - length y) (c :: u ++ y) = c :: u.
Proof. exact (firstn_length_app (c :: u) y). Qed.

(** The text the description pattern captures: a piece of the header,
    not empty, without a line feed. *)
Lemma description_match_group p (x : str) m q :
  match_at fl_description (Seq Bol (Seq (Lit description_key) description_tail))
    p x = Some (m, q) ->
  exists g, group1 m = Some g /\ g <> [] /\ ~ In NL g /\ piece g x.
Proof.
  rewrite keyed_match_at. destruct (at_bol fl_description p); [|discriminate].
  destruct (lit_prefix fl_description description_key x) as [x1|] eqn:Hk;
    [|discriminate].
  apply lit_prefix_exact in Hk; [|reflexivity]. subst x.
  unfold description_tail. cbn [exec star].
  intros (u & y & -> & _ & H)%star_greedy_Some.
  destruct y as [|c y]; [discriminate|].
  destruct (atom_match fl_description Any c) eqn:Hc; [|discriminate].
  apply star_greedy_Some in H. destruct H as (u' & y' & -> & Hu' & H).
  destruct (at_eol fl_description y'); [|discriminate].
  injection H as <- _. cbn [group1].
  rewrite firstn_cons_app.
  exists (c :: u'). split; [reflexivity|]. split; [discriminate|]. split.
  - assert (Hall : Forall (fun c => atom_match fl_description Any c = true)
                     (c :: u')) by now constructor.
    rewrite List.Forall_forall in Hall. intros Hin.
    specialize (Hall NL Hin). discriminate.
  - exists (description_key ++ u), y'. now rewrite <- !app_assoc.
Qed.

(** X16.  A parsed description is a piece of the header block taken as it
    is written, and it holds no line feed: the value never runs over the
    end of its line. *)
Theorem parsed_description_is_on_one_line (hdr d : str) :
  parse_description hdr = PStr d ->
  ~ In NL d /\ piece d hdr.
Proof.
  unfold parse_description, re_search.
  destruct (search_from fl_description re_description None hdr) as [m|] eqn:E;
    [|discriminate].
  intros [= <-].
  apply search_from_Some in E. destruct E as (u & y & q & -> & Hm).
  rewrite re_description_keyed in Hm.
  apply description_match_group in Hm.
  destruct Hm as (g & Hg & _ & Hnl & Hp).
  unfold group. rewrite Hg.
  assert (Hpiece : piece (unquote (strip g)) g)
    by (eapply piece_trans; [apply piece_unquote|apply piece_strip]).
  split.
  - intros Hin. apply Hnl. exact (piece_in _ _ _ Hpiece Hin).
  - eapply piece_trans; [exact Hpiece|].
    eapply piece_trans; [exact Hp|]. exists u, []. now rewrite app_nil_r.
Qed.

Lemma parsed_description_is_on_one_line_witness :
  ~ In NL (s "alwaysApply: true")
  /\ piece (s "alwaysApply: true")
       (s "description:" ++ [NL] ++ s "alwaysApply: true" ++ [NL] ++ s "globs: []").
Proof.
  apply parsed_description_is_on_one_line. vm_compute. reflexivity.
Defined.

(** ** What a parsed list of globs is made of *)

Lemma forallb_piece (P : char -> bool) (x y : str) :
  piece x y -> forallb P y = true -> forallb P x = true.
Proof.
  intros (a & b & ->). rewrite !forallb_app.
  intros [_ [H _]%andb_prop]%andb_prop. exact H.
Qed.

(** What the item pattern matches: a quote, the item, a quote. *)
Lemma item_match_inv p (x : str) m q :
  match_at no_flags re_glob_item p x = Some (m, q) ->
  exists q1 g q2,
    x = q1 :: g ++ q2 :: after m
    /\ group1 m = Some g /\ g <> []
    /\ forallb (fun c => negb (is_quote c)) g = true.
Proof.
  unfold match_at, re_glob_item. cbn [exec].
  destruct x as [|q1 x]; [discriminate|].
  destruct (atom_match no_flags (OneOf [DQ; SQ]) q1); [|discriminate].
  destruct x as [|c x]; [discriminate|].
  destruct (atom_match no_flags (NoneOf [DQ; SQ]) c) eqn:Hc; [|discriminate].
  cbn [star].
  intros (u & y & -> & Hu & H)%star_greedy_Some.
  destruct y as [|q2 y]; [discriminate|].
  destruct (atom_match no_flags (OneOf [DQ; SQ]) q2); [|discriminate].
  injection H as <- _. cbn [group1 after].
  assert (Hlen : (length (u ++ q2 :: y) - length y)%nat = length (c :: u))
    by (rewrite length_app; cbn [length]; lia).
  rewrite Hlen. change (c :: u ++ q2 :: y) with ((c :: u) ++ q2 :: y).
  rewrite firstn_exact.
  exists q1, (c :: u), q2. split; [reflexivity|]. split; [reflexivity|].
  split; [discriminate|].
  apply forallb_forall. intros c' Hc'.
  assert (Hall : Forall (fun c => atom_match no_flags (NoneOf [DQ; SQ]) c = true)
                   (c :: u)) by now constructor.
  rewrite List.Forall_forall in Hall. specialize (Hall c' Hc').
  now rewrite none_of_quotes in Hall.
Qed.

(** Every item [re.findall] returns is a piece of the text, not empty and
    without a quote. *)
Lemma findall_items_pieces (n : nat) :
  forall p (x : str),
    Forall (fun g => g <> []
                     /\ forallb (fun c => negb (is_quote c)) g = true
                     /\ piece g x)
      (findall_from no_flags re_glob_item n p x).
Proof.
  induction n as [|n IH]; intros p x; [constructor|].
  cbn [findall_from].
  assert (Htail : forall c x', x = c :: x' ->
            Forall (fun g => g <> []
                             /\ forallb (fun c => negb (is_quote c)) g = true
                             /\ piece g x)
              (findall_from no_flags re_glob_item n (Some c) x')).
  { intros c x' ->. eapply List.Forall_impl; [|apply IH].
    intros g (H1 & H2 & H3). repeat split; try assumption.
    eapply piece_trans; [exact H3|]. exists [c], []. now rewrite app_nil_r. }
  destruct (match_at no_flags re_glob_item p x) as [[m q]|] eqn:E.
  - destruct (item_match_inv p x m q E) as (q1 & g & q2 & Hx & Hg & Hne & Hq).
    assert (Hitem : group m <> []
                    /\ forallb (fun c => negb (is_quote c)) (group m) = true
                    /\ piece (group m) x).
    { unfold group. rewrite Hg. repeat split; try assumption.
      exists [q1], (q2 :: after m). exact Hx. }
    destruct (length (after m) <? length x)%nat.
    + constructor; [exact Hitem|].
      eapply List.Forall_impl; [|apply IH].
      intros g' (H1 & H2 & H3). repeat split; try assumption.
      eapply piece_trans; [exact H3|]. exists (q1 :: g ++ [q2]), [].
      rewrite app_nil_r, Hx. cbn [app]. now rewrite <- app_assoc.
    + constructor; [exact Hitem|].
      destruct x as [|c x']; [constructor|]. now apply Htail.
  - destruct x as [|c x']; [constructor|]. now apply Htail.
Qed.

(** The text between the brackets holds no closing bracket. *)
Lemma globs_match_group p (x : str) m q :
  match_at fl_globs (Seq Bol (Seq (Lit globs_key) globs_tail)) p x = Some (m, q) ->
  exists g, group1 m = Some g /\ ~ In 93%N g /\ piece g x.
Proof.
  rewrite keyed_match_at. destruct (at_bol fl_globs p); [|discriminate].
  destruct (lit_prefix fl_globs globs_key x) as [x1|] eqn:Hk; [|discriminate].
  apply lit_prefix_exact in Hk; [|reflexivity]. subst x.
  unfold globs_tail. cbn [exec star].
  intros (u & y & -> & _ & H)%star_greedy_Some.
  destruct y as [|c y]; [discriminate|].
  destruct (atom_match fl_globs (Chr 91%N) c); [|discriminate].
  apply star_lazy_Some in H. destruct H as (g & z & -> & H & Hmin).
  destruct z as [|c' z]; [discriminate|].
  destruct (atom_match fl_globs (Chr 93%N) c') eqn:Hc'; [|discriminate].
  injection H as <- _. cbn [group1].
  rewrite firstn_length_app.
  exists g. split; [reflexivity|]. split.
  - intros Hin. apply in_split in Hin. destruct Hin as (g1 & g2 & ->).
    specialize (Hmin g1 (93%N :: g2) eq_refl ltac:(discriminate)).
    cbn in Hmin. discriminate.
  - exists (globs_key ++ u ++ [c]), (c' :: z). now rewrite <- !app_assoc.
Qed.

(** X17.  The items of a parsed list of globs are pieces of the header
    block taken between quotes: none is empty, and none holds a quote
    character or a closing bracket. *)
Theorem parsed_globs_items (hdr : str) (l : list pyval) :
  parse_globs hdr = PList l ->
  Forall (fun v => exists g, v = PStr g
                             /\ g <> []
                             /\ forallb (fun c => negb (is_quote c)) g = true
                             /\ ~ In 93%N g
                             /\ piece g hdr) l.
Proof.
  unfold parse_globs, re_search.
  destruct (search_from fl_globs re_globs None hdr) as [m|] eqn:E.
  - apply search_from_Some in E. destruct E as (u & y & q & -> & Hm).
    rewrite re_globs_keyed in Hm. apply globs_match_group in Hm.
    destruct Hm as (g & Hg & Hb & Hp). unfold group. rewrite Hg.
    destruct (strip g) as [|c x] eqn:Hs; [intros [= <-]; constructor|].
    intros [= <-]. rewrite <- Hs. unfold re_findall.
    apply Forall_map.
    eapply List.Forall_impl;
      [|apply (findall_items_pieces (S (length (strip g))) None (strip g))].
    intros g' (H1 & H2 & H3). exists g'. split; [reflexivity|].
    split; [assumption|]. split; [assumption|].
    assert (Hg' : piece g' g) by (eapply piece_trans; [exact H3|apply piece_strip]).
    split.
    + intros Hin. apply Hb. exact (piece_in _ _ _ Hg' Hin).
    + eapply piece_trans; [exact Hg'|].
      eapply piece_trans; [exact Hp|]. exists u, []. now rewrite app_nil_r.
  - destruct (search_from fl_globs_simple re_globs_simple None hdr);
      [|discriminate].
    intros [= <-]. constructor.
Qed.

Lemma parsed_globs_items_witness :
  Forall (fun v => exists g, v = PStr g
                             /\ g <> []
                             /\ forallb (fun c => negb (is_quote c)) g = true
                             /\ ~ In 93%N g
                             /\ piece g (s "globs: ['a', " ++ [DQ] ++ s "b" ++ [DQ]
                                         ++ s "]"))
    [PStr (s "a"); PStr (s "b")].
Proof.
  apply parsed_globs_items. vm_compute. reflexivity.
Defined.

(** Text without a quote holds no item. *)
Lemma findall_no_quote (x : str) :
  forallb (fun c => negb (is_quote c)) x = true ->
  forall n p, findall_from no_flags re_glob_item n p x = [].
Proof.
  induction x as [|c x IH]; intros Hx n p; [apply findall_nil|].
  cbn [forallb] in Hx. apply andb_prop in Hx. destruct Hx as [Hc Hx].
  destruct n as [|n]; [reflexivity|].
  rewrite findall_skip by now apply negb_true_iff in Hc.
  now apply IH.
Qed.

(** X18.  Items written without quotes are dropped without a message: a
    bracketed list whose text holds no quote character is parsed as the
    empty list, whatever is written between the brackets. *)
Theorem unquoted_items_dropped (ls : list str) (ws body post : str) :
  Forall (other_line globs_key) ls -> all_space ws -> ~ In 93%N body ->
  forallb (fun c => negb (is_quote c)) body = true ->
  parse_globs
    (join_lines ls ++ globs_key ++ ws ++ [91%N] ++ body ++ [93%N] ++ post)
  = PList [].
Proof.
  intros Hls Hws Hb Hq. rewrite parse_globs_bracketed by assumption.
  unfold re_findall. rewrite findall_no_quote; [reflexivity|].
  exact (forallb_piece _ _ _ (piece_strip body) Hq).
Qed.

Lemma unquoted_items_dropped_witness :
  parse_globs (s "description: d" ++ [NL] ++ s "globs: [*.ts, src/**/*.js]")
  = PList [].
Proof.
  exact (unquoted_items_dropped [s "description: d"] [32%N]
           (s "*.ts, src/**/*.js") []
           ltac:(repeat constructor; vm_compute; intuition discriminate)
           ltac:(repeat constructor)
           ltac:(vm_compute; intuition discriminate) eq_refl).
Defined.

(** ** Three dashes that are not a line *)

Lemma frontmatter_needs_opening (content : str) :
  startswith content opening = false ->
  re_match fl_frontmatter re_frontmatter content = None.
Proof.
  intros H. unfold re_match. rewrite frontmatter_match_at.
  destruct (lit_prefix fl_frontmatter opening content) as [x1|] eqn:E;
    [|reflexivity].
  apply (lit_prefix_startswith fl_frontmatter eq_refl) in E. congruence.
Qed.

(** X19.  A text that starts with the three dashes without a line feed
    right after them (more dashes, a space, or nothing at all) passes the
    first test and is reported as malformed, not as lacking the header
    block: one error, the file counted as invalid, the empty
    dictionary. *)
Theorem dashes_without_line_feed_malformed (v : RuleValidator)
    (file_path : path) (content : str) :
  startswith content (s "---") = true ->
  startswith content opening = false ->
  validate_file v file_path (Content content)
  = ((false, ∅), early_return v (ErrBadFrontmatter file_path)).
Proof.
  intros Hs Ho. unfold validate_file. rewrite Hs. cbn [negb].
  now rewrite (frontmatter_needs_opening content Ho).
Qed.

Lemma dashes_without_line_feed_malformed_witness :
  validate_file (init default_rules_dir) [s "a.mdc"]
    (Content (s "--- " ++ [NL] ++ s "description: d" ++ [NL]
              ++ s "alwaysApply: true" ++ closing ++ s "Body"))
  = ((false, ∅),
     early_return (init default_rules_dir) (ErrBadFrontmatter [s "a.mdc"])).
Proof.
  exact (dashes_without_line_feed_malformed (init default_rules_dir)
           [s "a.mdc"]
           (s "--- " ++ [NL] ++ s "description: d" ++ [NL]
            ++ s "alwaysApply: true" ++ closing ++ s "Body")
           eq_refl eq_refl).
Defined.

(** ** A run on an object that already holds something *)

Lemma absorb_assoc (v a b : RuleValidator) :
  absorb (absorb v a) b = absorb v (absorb a b).
Proof.
  apply validator_eq; simpl; try reflexivity; try lia;
    now rewrite app_assoc.
Qed.

Lemma absorb_init (v : RuleValidator) : absorb v (init (rules_dir v)) = v.
Proof.
  apply validator_eq; simpl; try reflexivity; try lia;
    now rewrite app_nil_r.
Qed.

Lemma absorb_over_init (v : RuleValidator) (dir : path) (w : RuleValidator) :
  absorb v (absorb (init dir) w) = absorb v w.
Proof. apply validator_eq; simpl; try reflexivity; lia. Qed.

Lemma fold_absorb (ws : list RuleValidator) :
  forall v dir,
    fold_left absorb ws v = absorb v (fold_left absorb ws (init dir)).
Proof.
  induction ws as [|w ws IH]; intros v dir; cbn [fold_left].
  - apply validator_eq; simpl; try reflexivity; try lia;
      now rewrite app_nil_r.
  - rewrite (IH (absorb v w) dir), (IH (absorb (init dir) w) dir).
    now rewrite !absorb_assoc, absorb_over_init.
Qed.

Lemma absorb_errors_append (v : RuleValidator) (m : message) :
  absorb v (errors_append m (init (rules_dir v))) = errors_append m v.
Proof.
  apply validator_eq; simpl; try reflexivity; try lia;
    now rewrite app_nil_r.
Qed.

(** X20.  [validate_all] does not reset the object: a call on an object
    that already holds counts and messages leaves it with what the same
    call records on a new object added to it (messages appended, counters
    summed) and prints the same lines; the returned flag is that of the
    new object when no error was held before, and false otherwise. *)
Theorem validate_all_accumulates (v : RuleValidator) (d : directory) :
  exists flag w out,
    validate_all (init (rules_dir v)) d = Some (flag, w, out)
    /\ validate_all v d
       = Some (match errors v with [] => flag | _ :: _ => false end,
               absorb v w, out).
Proof.
  destruct (dir_exists d) eqn:Hd.
  - destruct (rglob d) as [|f fs] eqn:Hfs.
    + unfold validate_all. rewrite Hd, Hfs. cbn [negb map rules_dir init].
      do 3 eexists. split; [reflexivity|].
      fold (init (rules_dir v)). rewrite absorb_errors_append.
      now destruct (errors v).
    + assert (Hne : rglob d <> []) by (rewrite Hfs; discriminate).
      rewrite (validate_all_run v d Hd Hne).
      rewrite (validate_all_run (init (rules_dir v)) d Hd Hne).
      cbv zeta. cbn [rules_dir init]. do 3 eexists. split; [reflexivity|].
      rewrite (fold_absorb _ v (rules_dir v)). cbn [absorb errors].
      now destruct (errors v).
  - unfold validate_all. rewrite Hd. cbn [negb rules_dir init].
    do 3 eexists. split; [reflexivity|].
    fold (init (rules_dir v)). rewrite absorb_errors_append.
    now destruct (errors v).
Qed.
